(** * GuardRail: a distributed circuit breaker

    A shallow embedding of the GuardRail sources
    ([src/HighPerformanceCircuitBreaker.ts], [src/ShardedCircuitBreakerFactory.ts],
    [src/EtcdStateStore.ts], [src/types.ts] and the in-memory store of the
    test suite) together with the properties its specification states.

    JavaScript numbers that the program only ever uses as integers
    (counters, epoch milliseconds, 32-bit hashes) are modelled as [Z]. The
    few genuinely fractional quantities (rates and averages) are exact
    rationals in [Q] where JavaScript rounds to a double; they are advisory
    values, and the statements below say no more of them than that one is
    0, which is exact on both sides.

    An [async] function is described twice: as what it does when nothing
    else runs in between ([M]), and cut at its [await]s ([Async]), so that
    operations in flight together can take turns. The second, run alone,
    is the first.

    The file has two parts: the embedding of the program, with the notions
    and concrete inputs the statements need, and then the facts proved
    about it. *)

From stdpp Require Import base numbers option list strings pretty gmap sets.
From Stdlib Require Import ZArith QArith Lia.
#[local] Open Scope Z_scope.

(** ** Numbers and 32-bit integer operators of JavaScript *)

(** A number that is an integer or [NaN]. *)
Inductive JsNumber :=
| Finite (z : Z)
| NaN.

Module Int32.

(** [ToInt32] of ECMA-262: reduce modulo 2^32 into the signed range. *)
Definition ToInt32 (x : Z) : Z := (x + 2^31) mod 2^32 - 2^31.

(** [a << b]: both operands go through [ToInt32], the shift count is
    masked to five bits, and the result is again a signed 32-bit value. *)
Definition shl (a b : Z) : Z :=
  ToInt32 (Z.shiftl (ToInt32 a) (Z.land b 31)).

(** [a | b]. *)
Definition bitor (a b : Z) : Z := ToInt32 (Z.lor (ToInt32 a) (ToInt32 b)).

(** [Math.abs] on an integral number. *)
Definition Math_abs (x : Z) : Z := Z.abs x.

(** [a % n] on integral numbers: the remainder takes the sign of the
    dividend (truncated division); [NaN] for a zero divisor. *)
Definition rem (a n : Z) : JsNumber :=
  if decide (n = 0) then NaN else Finite (Z.rem a n).

End Int32.

(** ** Shard routing ([ShardedCircuitBreakerFactory.getShardIdForKey]) *)

(** A JavaScript string is a sequence of UTF-16 code units; [charCodeAt]
    reads one of them, a number in [0, 65535]. *)
Definition CodeUnits := list Z.

(** Code units of a Latin-1 string literal. *)
Definition charCodes (s : string) : CodeUnits :=
  (fun a => Z.of_nat (Ascii.nat_of_ascii a)) <$> String.list_ascii_of_string s.

(** One iteration of the loop body:
    [hash = ((hash << 5) - hash) + key.charCodeAt(i); hash |= 0]. *)
Definition hashStep (hash c : Z) : Z :=
  Int32.bitor ((Int32.shl hash 5 - hash) + c) 0.

(** The [for] loop, left to right over the key. *)
Fixpoint hashLoop (hash : Z) (key : CodeUnits) : Z :=
  match key with
  | [] => hash
  | c :: rest => hashLoop (hashStep hash c) rest
  end.

Definition getShardIdForKey (key : CodeUnits) (shardCount : Z) : JsNumber :=
  let hash := hashLoop 0 key in
  Int32.rem (Int32.Math_abs hash) shardCount.

(** *** The routing function as the specification words it *)

Module RoutingSpec.

(** "32-bit wrap semantics": the representative of [x] modulo 2^32 in
    the signed range. *)
Definition wrap32 (x : Z) : Z :=
  let r := x mod 2^32 in if r <? 2^31 then r else r - 2^32.

(** "the djb2-style iterative hash h = ((h << 5) − h) + c_i", with the
    shift read as multiplication by 2^5 on mathematical integers. *)
Definition djb2_step (h c : Z) : Z := wrap32 ((h * 2^5 - h) + c).

Definition djb2 (key : CodeUnits) : Z := fold_left djb2_step key 0.

(** "shardId = abs(hash(key)) mod shardCount". *)
Definition routeKey (key : CodeUnits) (n : Z) : Z := Z.abs (djb2 key) mod n.

End RoutingSpec.

(** ** Data model ([types.ts]) *)

Inductive CircuitBreakerState := CLOSED | OPEN | HALF_OPEN.

#[global] Instance CircuitBreakerState_eq_dec : EqDecision CircuitBreakerState.
Proof. solve_decision. Defined.

Record CircuitBreakerOptions := mkOptions {
  failureThreshold : Z;
  resetTimeout : Z;
  halfOpenRetryLimit : Z;
  monitorInterval : Z;
  serviceTimeout : Z;
  maxConcurrent : option Z;
}.

(** [Partial<CircuitBreakerOptions>]: every field may be missing. *)
Record PartialOptions := mkPartial {
  p_failureThreshold : option Z;
  p_resetTimeout : option Z;
  p_halfOpenRetryLimit : option Z;
  p_monitorInterval : option Z;
  p_serviceTimeout : option Z;
  p_maxConcurrent : option Z;
}.

Definition noOptions : PartialOptions := mkPartial None None None None None None.

(** The persisted record. The four trailing fields are optional in the
    interface ([currentLoad?], ...). *)
Record CircuitBreakerStats := mkStats {
  state : CircuitBreakerState;
  failureCount : Z;
  lastFailureTime : option Z;
  lastSuccessTime : option Z;
  totalRequests : Z;
  successfulRequests : Z;
  failedRequests : Z;
  lastError : option string;
  currentLoad : option Z;
  averageResponseTime : option Q;
  lastMinuteRequests : option Z;
  lastUpdateTime : option Z;
}.

(** Object spread with one overriding property, [{...s, f: v}]. *)
Definition with_state (v : CircuitBreakerState) (s : CircuitBreakerStats) : CircuitBreakerStats :=
  {| state := v; failureCount := failureCount s; lastFailureTime := lastFailureTime s;
     lastSuccessTime := lastSuccessTime s; totalRequests := totalRequests s;
     successfulRequests := successfulRequests s; failedRequests := failedRequests s;
     lastError := lastError s; currentLoad := currentLoad s;
     averageResponseTime := averageResponseTime s;
     lastMinuteRequests := lastMinuteRequests s; lastUpdateTime := lastUpdateTime s |}.

Definition with_failureCount (v : Z) (s : CircuitBreakerStats) : CircuitBreakerStats :=
  {| state := state s; failureCount := v; lastFailureTime := lastFailureTime s;
     lastSuccessTime := lastSuccessTime s; totalRequests := totalRequests s;
     successfulRequests := successfulRequests s; failedRequests := failedRequests s;
     lastError := lastError s; currentLoad := currentLoad s;
     averageResponseTime := averageResponseTime s;
     lastMinuteRequests := lastMinuteRequests s; lastUpdateTime := lastUpdateTime s |}.

Definition with_lastFailureTime (v : option Z) (s : CircuitBreakerStats) : CircuitBreakerStats :=
  {| state := state s; failureCount := failureCount s; lastFailureTime := v;
     lastSuccessTime := lastSuccessTime s; totalRequests := totalRequests s;
     successfulRequests := successfulRequests s; failedRequests := failedRequests s;
     lastError := lastError s; currentLoad := currentLoad s;
     averageResponseTime := averageResponseTime s;
     lastMinuteRequests := lastMinuteRequests s; lastUpdateTime := lastUpdateTime s |}.

Definition with_lastSuccessTime (v : option Z) (s : CircuitBreakerStats) : CircuitBreakerStats :=
  {| state := state s; failureCount := failureCount s; lastFailureTime := lastFailureTime s;
     lastSuccessTime := v; totalRequests := totalRequests s;
     successfulRequests := successfulRequests s; failedRequests := failedRequests s;
     lastError := lastError s; currentLoad := currentLoad s;
     averageResponseTime := averageResponseTime s;
     lastMinuteRequests := lastMinuteRequests s; lastUpdateTime := lastUpdateTime s |}.

Definition with_totalRequests (v : Z) (s : CircuitBreakerStats) : CircuitBreakerStats :=
  {| state := state s; failureCount := failureCount s; lastFailureTime := lastFailureTime s;
     lastSuccessTime := lastSuccessTime s; totalRequests := v;
     successfulRequests := successfulRequests s; failedRequests := failedRequests s;
     lastError := lastError s; currentLoad := currentLoad s;
     averageResponseTime := averageResponseTime s;
     lastMinuteRequests := lastMinuteRequests s; lastUpdateTime := lastUpdateTime s |}.

Definition with_successfulRequests (v : Z) (s : CircuitBreakerStats) : CircuitBreakerStats :=
  {| state := state s; failureCount := failureCount s; lastFailureTime := lastFailureTime s;
     lastSuccessTime := lastSuccessTime s; totalRequests := totalRequests s;
     successfulRequests := v; failedRequests := failedRequests s; lastError := lastError s;
     currentLoad := currentLoad s; averageResponseTime := averageResponseTime s;
     lastMinuteRequests := lastMinuteRequests s; lastUpdateTime := lastUpdateTime s |}.

Definition with_failedRequests (v : Z) (s : CircuitBreakerStats) : CircuitBreakerStats :=
  {| state := state s; failureCount := failureCount s; lastFailureTime := lastFailureTime s;
     lastSuccessTime := lastSuccessTime s; totalRequests := totalRequests s;
     successfulRequests := successfulRequests s; failedRequests := v;
     lastError := lastError s; currentLoad := currentLoad s;
     averageResponseTime := averageResponseTime s;
     lastMinuteRequests := lastMinuteRequests s; lastUpdateTime := lastUpdateTime s |}.

Definition with_lastError (v : option string) (s : CircuitBreakerStats) : CircuitBreakerStats :=
  {| state := state s; failureCount := failureCount s; lastFailureTime := lastFailureTime s;
     lastSuccessTime := lastSuccessTime s; totalRequests := totalRequests s;
     successfulRequests := successfulRequests s; failedRequests := failedRequests s;
     lastError := v; currentLoad := currentLoad s;
     averageResponseTime := averageResponseTime s;
     lastMinuteRequests := lastMinuteRequests s; lastUpdateTime := lastUpdateTime s |}.

Definition with_currentLoad (v : option Z) (s : CircuitBreakerStats) : CircuitBreakerStats :=
  {| state := state s; failureCount := failureCount s; lastFailureTime := lastFailureTime s;
     lastSuccessTime := lastSuccessTime s; totalRequests := totalRequests s;
     successfulRequests := successfulRequests s; failedRequests := failedRequests s;
     lastError := lastError s; currentLoad := v;
     averageResponseTime := averageResponseTime s;
     lastMinuteRequests := lastMinuteRequests s; lastUpdateTime := lastUpdateTime s |}.

Definition with_averageResponseTime (v : option Q) (s : CircuitBreakerStats) : CircuitBreakerStats :=
  {| state := state s; failureCount := failureCount s; lastFailureTime := lastFailureTime s;
     lastSuccessTime := lastSuccessTime s; totalRequests := totalRequests s;
     successfulRequests := successfulRequests s; failedRequests := failedRequests s;
     lastError := lastError s; currentLoad := currentLoad s; averageResponseTime := v;
     lastMinuteRequests := lastMinuteRequests s; lastUpdateTime := lastUpdateTime s |}.

Definition with_lastMinuteRequests (v : option Z) (s : CircuitBreakerStats) : CircuitBreakerStats :=
  {| state := state s; failureCount := failureCount s; lastFailureTime := lastFailureTime s;
     lastSuccessTime := lastSuccessTime s; totalRequests := totalRequests s;
     successfulRequests := successfulRequests s; failedRequests := failedRequests s;
     lastError := lastError s; currentLoad := currentLoad s;
     averageResponseTime := averageResponseTime s; lastMinuteRequests := v;
     lastUpdateTime := lastUpdateTime s |}.

Definition with_lastUpdateTime (v : option Z) (s : CircuitBreakerStats) : CircuitBreakerStats :=
  {| state := state s; failureCount := failureCount s; lastFailureTime := lastFailureTime s;
     lastSuccessTime := lastSuccessTime s; totalRequests := totalRequests s;
     successfulRequests := successfulRequests s; failedRequests := failedRequests s;
     lastError := lastError s; currentLoad := currentLoad s;
     averageResponseTime := averageResponseTime s;
     lastMinuteRequests := lastMinuteRequests s; lastUpdateTime := v |}.

Module Metrics.
Record lastMinute := mkLastMinute {
  totalRequests : Z;
  successfulRequests : Z;
  failedRequests : Z;
}.
Record t := mk {
  requestRate : Q;
  errorRate : Q;
  averageResponseTime : Q;
  currentLoad : Z;
  lastMinuteStats : lastMinute;
}.
End Metrics.
Abbreviation CircuitBreakerMetrics := Metrics.t.

(** A value that travels along a rejected promise or a [throw]: an
    [Error] object with its message; something else that has properties
    (a string, a number, a plain object), kept as the text
    [String(value)] gives for it and its [message] property when it has
    one; or one of [undefined] and [null], which have no properties at
    all. A [message] that is not a string is outside the model, as
    [lastError] is typed [string | null]. *)
Inductive Thrown :=
| ErrorObject (message : string)
| NonError (text : string) (message : option string)
| Undefined
| Null.

(** [error instanceof Error]. *)
Definition instanceofError (e : Thrown) : bool :=
  match e with ErrorObject _ => true | _ => false end.

(** [error === undefined || error === null]: the values on which a
    property read throws instead of answering. *)
Definition nullish (e : Thrown) : bool :=
  match e with Undefined | Null => true | _ => false end.

(** The value of [(error as Error).message] where the read answers;
    [undefined] when the property is missing. *)
Definition message (e : Thrown) : option string :=
  match e with
  | ErrorObject m => Some m
  | NonError _ m => m
  | _ => None
  end.

(** [String(error)]; an [Error] prints as its name and message. *)
Definition toText (e : Thrown) : string :=
  match e with
  | ErrorObject m => "Error: " +:+ m
  | NonError text _ => text
  | Undefined => "undefined"
  | Null => "null"
  end.

(** What a breaker's [EventEmitter] has been asked to emit. The last three
    kinds are declared in [CircuitBreakerEventType] and can be subscribed
    to through the factory. *)
Inductive Event :=
| stateChange (from to : CircuitBreakerState)
| circuitOpen (error : Thrown)
| failure (error : Thrown)
| metricsTick (m : CircuitBreakerMetrics)
| metricsCall (requestRate errorRate averageResponseTime : Q) (concurrentRequests : Z)
| healthCheck (stats : CircuitBreakerStats)
| stateUpdate (stats : CircuitBreakerStats)
| success (responseTime : Z) (stats : CircuitBreakerStats)
| timeout (error : Thrown) (stats : CircuitBreakerStats)
| rejected (error : Thrown) (stats : CircuitBreakerStats).

Definition is_rejected (ev : Event) : bool :=
  match ev with rejected _ _ => true | _ => false end.

(** ** The world a breaker runs in *)

(** The mutable fields of one [HighPerformanceCircuitBreaker] instance,
    and the log of what it emitted. Request ids ([Symbol("request")]) are
    natural numbers drawn from a global counter. *)
Record Local := mkLocal {
  activeRequests : gset nat;
  requestTimes : list Z;
  errorTimes : list Z;
  responseTimes : list Z;
  metrics : CircuitBreakerMetrics;
  lastMetricsUpdate : Z;
  emitted : list Event;
}.

Definition set_activeRequests (v : gset nat) (l : Local) : Local :=
  {| activeRequests := v; requestTimes := requestTimes l; errorTimes := errorTimes l;
     responseTimes := responseTimes l; metrics := metrics l;
     lastMetricsUpdate := lastMetricsUpdate l; emitted := emitted l |}.

Definition set_requestTimes (v : list Z) (l : Local) : Local :=
  {| activeRequests := activeRequests l; requestTimes := v; errorTimes := errorTimes l;
     responseTimes := responseTimes l; metrics := metrics l;
     lastMetricsUpdate := lastMetricsUpdate l; emitted := emitted l |}.

Definition set_errorTimes (v : list Z) (l : Local) : Local :=
  {| activeRequests := activeRequests l; requestTimes := requestTimes l; errorTimes := v;
     responseTimes := responseTimes l; metrics := metrics l;
     lastMetricsUpdate := lastMetricsUpdate l; emitted := emitted l |}.

Definition set_responseTimes (v : list Z) (l : Local) : Local :=
  {| activeRequests := activeRequests l; requestTimes := requestTimes l;
     errorTimes := errorTimes l; responseTimes := v; metrics := metrics l;
     lastMetricsUpdate := lastMetricsUpdate l; emitted := emitted l |}.

Definition set_metrics (v : CircuitBreakerMetrics) (l : Local) : Local :=
  {| activeRequests := activeRequests l; requestTimes := requestTimes l;
     errorTimes := errorTimes l; responseTimes := responseTimes l; metrics := v;
     lastMetricsUpdate := lastMetricsUpdate l; emitted := emitted l |}.

Definition set_lastMetricsUpdate (v : Z) (l : Local) : Local :=
  {| activeRequests := activeRequests l; requestTimes := requestTimes l;
     errorTimes := errorTimes l; responseTimes := responseTimes l; metrics := metrics l;
     lastMetricsUpdate := v; emitted := emitted l |}.

Definition set_emitted (v : list Event) (l : Local) : Local :=
  {| activeRequests := activeRequests l; requestTimes := requestTimes l;
     errorTimes := errorTimes l; responseTimes := responseTimes l; metrics := metrics l;
     lastMetricsUpdate := lastMetricsUpdate l; emitted := v |}.

(** - [kv]: the records the state store holds (the [Map] of the in-memory
      store, the key space of etcd);
    - [watchers]: per watched key, the breakers (by service key) whose
      [stateUpdate] forwarder was registered with [watchState];
    - [clock], [tick]: [Date.now()] answers [clock tick] and moves on, so
      time may pass between any two readings;
    - [invocations]: how many times a caller-supplied thunk was invoked;
    - [locals]: the breaker instances, by service key. *)
Record World := mkWorld {
  kv : gmap string CircuitBreakerStats;
  watchers : gmap string (list string);
  clock : nat -> Z;
  tick : nat;
  nextSymbol : nat;
  invocations : nat;
  locals : gmap string Local;
}.

Definition set_kv (v : gmap string CircuitBreakerStats) (w : World) : World :=
  {| kv := v; watchers := watchers w; clock := clock w; tick := tick w;
     nextSymbol := nextSymbol w; invocations := invocations w; locals := locals w |}.

Definition set_watchers (v : gmap string (list string)) (w : World) : World :=
  {| kv := kv w; watchers := v; clock := clock w; tick := tick w; nextSymbol := nextSymbol w;
     invocations := invocations w; locals := locals w |}.

Definition set_clock (v : nat -> Z) (w : World) : World :=
  {| kv := kv w; watchers := watchers w; clock := v; tick := tick w;
     nextSymbol := nextSymbol w; invocations := invocations w; locals := locals w |}.

Definition set_tick (v : nat) (w : World) : World :=
  {| kv := kv w; watchers := watchers w; clock := clock w; tick := v;
     nextSymbol := nextSymbol w; invocations := invocations w; locals := locals w |}.

Definition set_nextSymbol (v : nat) (w : World) : World :=
  {| kv := kv w; watchers := watchers w; clock := clock w; tick := tick w; nextSymbol := v;
     invocations := invocations w; locals := locals w |}.

Definition set_invocations (v : nat) (w : World) : World :=
  {| kv := kv w; watchers := watchers w; clock := clock w; tick := tick w;
     nextSymbol := nextSymbol w; invocations := v; locals := locals w |}.

Definition set_locals (v : gmap string Local) (w : World) : World :=
  {| kv := kv w; watchers := watchers w; clock := clock w; tick := tick w;
     nextSymbol := nextSymbol w; invocations := invocations w; locals := v |}.

(** ** Promises as a state-and-exception monad *)

(** The outcome of an [async] function: it fulfils, rejects, or never
    settles. *)
Inductive Result (A : Type) :=
| Ok (a : A)
| Throw (e : Thrown)
| Pending.
Arguments Ok {A} a.
Arguments Throw {A} e.
Arguments Pending {A}.

Definition M (A : Type) : Type := World -> Result A * World.

Definition ret {A} (a : A) : M A := fun w => (Ok a, w).

Definition bind {A B} (m : M A) (k : A -> M B) : M B :=
  fun w =>
    match m w with
    | (Ok a, w') => k a w'
    | (Throw e, w') => (Throw e, w')
    | (Pending, w') => (Pending, w')
    end.

Definition throw {A} (e : Thrown) : M A := fun w => (Throw e, w).

Definition pending {A} : M A := fun w => (Pending, w).

(** The property read [error.message]: a [TypeError] on [undefined] and
    on [null]. *)
Definition readMessage (error : Thrown) : M (option string) :=
  match error with
  | Undefined =>
      throw (ErrorObject "Cannot read properties of undefined (reading 'message')")
  | Null =>
      throw (ErrorObject "Cannot read properties of null (reading 'message')")
  | _ => ret (message error)
  end.

Notation "'let*' x ':=' m 'in' k" := (bind m (fun x => k))
  (at level 10, x name, m at level 100, k at level 200).
Notation "m ';;;' k" := (bind m (fun _ => k))
  (at level 100, k at level 200, right associativity).

(** [try { body } catch (e) { handler e } finally { fin }]; a promise that
    never settles reaches neither [catch] nor [finally]. *)
Definition try_catch_finally {A} (body : M A) (handler : Thrown -> M A) (fin : M unit) : M A :=
  fun w =>
    let after_catch :=
      match body w with
      | (Throw e, w') => handler e w'
      | other => other
      end in
    match after_catch with
    | (Pending, w') => (Pending, w')
    | (r, w') =>
        match fin w' with
        | (Ok _, w'') => (r, w'')
        | (Throw e, w'') => (Throw e, w'')
        | (Pending, w'') => (Pending, w'')
        end
    end.

Definition try_catch {A} (body : M A) (handler : Thrown -> M A) : M A :=
  fun w =>
    match body w with
    | (Throw e, w') => handler e w'
    | other => other
    end.

(** [Date.now()]. *)
Definition Date_now : M Z :=
  fun w => (Ok (clock w (tick w)), set_tick (S (tick w)) w).

(** [Symbol("request")]: a value never seen before. *)
Definition Symbol : M nat :=
  fun w => (Ok (nextSymbol w), set_nextSymbol (S (nextSymbol w)) w).

Definition emptyMetrics : CircuitBreakerMetrics :=
  Metrics.mk 0 0 0 0 (Metrics.mkLastMinute 0 0 0).

(** A breaker instance as its field initialisers leave it; [created] is
    the [Date.now()] stored in [lastMetricsUpdate]. *)
Definition newLocal (created : Z) : Local :=
  mkLocal ∅ [] [] [] emptyMetrics created [].

Definition local_of (key : string) (w : World) : Local :=
  default (newLocal 0) (locals w !! key).

Definition getLocal (key : string) : M Local :=
  fun w => (Ok (local_of key w), w).

Definition updateLocal (key : string) (f : Local -> Local) (w : World) : World :=
  set_locals (<[key := f (local_of key w)]> (locals w)) w.

Definition modifyLocal (key : string) (f : Local -> Local) : M unit :=
  fun w => (Ok tt, updateLocal key f w).

(** [this.emit(...)] on the breaker keyed [key]. *)
Definition deliver (key : string) (ev : Event) (w : World) : World :=
  updateLocal key (fun l => set_emitted (emitted l ++ [ev]) l) w.

Definition emit (key : string) (ev : Event) : M unit :=
  fun w => (Ok tt, deliver key ev w).

(** ** Asynchronous operations, cut at their [await]s

    An [async] function runs in stretches. From one [await] to the next it
    runs uninterrupted; at an [await] it gives way, and whatever else is
    ready runs before it is resumed. [M] describes what an operation does
    when nothing else gets to run in between. [Async] keeps the stretches
    apart:
    - [Finished r]: the operation has run to its end with outcome [r]
      ([Pending]: it waits for a promise that never settles);
    - [Suspended next]: when it gets its next turn, in world [w], the
      stretch it runs leaves the world [snd (next w)], and what is left of
      the operation is [fst (next w)]. *)
#[warning="-register-all"]
Inductive Async (A : Type) : Type :=
| Finished (r : Result A)
| Suspended (next : World -> Async A * World).
Arguments Finished {A} r.
Arguments Suspended {A} next.

(** The next stretch of an operation. *)
Definition first_stretch {A} (t : Async A) (w : World) : Async A * World :=
  match t with
  | Finished r => (Finished r, w)
  | Suspended next => next w
  end.

(** Where an awaited promise has settled with [r] and the operation waits
    for its turn to go on. *)
Definition resumed {A} (r : Result A) : Async A :=
  Suspended (fun w => (Finished r, w)).

(** [await f(...)] for a callee that does all its work before the first
    [await] of its own: the work [m] is done in the current stretch, and
    the caller goes on with the outcome once it is resumed. *)
Definition await {A} (m : M A) : Async A :=
  Suspended (fun w => let (r, w') := m w in (resumed r, w')).

(** Synchronous code [m] followed by [k]: no [await] separates [m] from
    the first stretch of [k]. *)
Definition sync {A B} (m : M A) (k : A -> Async B) : Async B :=
  Suspended (fun w =>
    match m w with
    | (Ok a, w') => first_stretch (k a) w'
    | (Throw e, w') => (Finished (Throw e), w')
    | (Pending, w') => (Finished Pending, w')
    end).

(** [const a = await t; k a], for a callee [t] with [await]s of its own. *)
Fixpoint abind {A B} (t : Async A) (k : A -> Async B) : Async B :=
  match t with
  | Finished (Ok a) => k a
  | Finished (Throw e) => Finished (Throw e)
  | Finished Pending => Finished Pending
  | Suspended next =>
      Suspended (fun w => let (rest, w') := next w in (abind rest k, w'))
  end.

Notation "'let*a' x ':=' t 'in' k" := (abind t (fun x => k))
  (at level 10, x name, t at level 100, k at level 200).
Notation "'let*s' x ':=' m 'in' k" := (sync m (fun x => k))
  (at level 10, x name, m at level 100, k at level 200).

(** [try { body } catch (e) { handler e }]: the handler starts in the
    stretch in which the body throws. *)
Fixpoint try_catchA {A} (body : Async A) (handler : Thrown -> Async A) : Async A :=
  match body with
  | Finished (Throw e) => handler e
  | Finished r => Finished r
  | Suspended next =>
      Suspended (fun w =>
        let (rest, w') := next w in
        match rest with
        | Finished (Throw e) => first_stretch (handler e) w'
        | _ => (try_catchA rest handler, w')
        end)
  end.

(** The [finally] block [fin], free of [await], run in the stretch in
    which the protected code ends with outcome [r]. *)
Definition settle_finally {A} (r : Result A) (fin : M unit) (w : World)
    : Async A * World :=
  match r with
  | Pending => (Finished Pending, w)
  | _ =>
      match fin w with
      | (Ok _, w') => (Finished r, w')
      | (Throw e, w') => (Finished (Throw e), w')
      | (Pending, w') => (Finished Pending, w')
      end
  end.

(** [try { t } finally { fin }] *)
Fixpoint finallyA {A} (t : Async A) (fin : M unit) : Async A :=
  match t with
  | Finished r => Suspended (settle_finally r fin)
  | Suspended next =>
      Suspended (fun w =>
        let (rest, w') := next w in
        match rest with
        | Finished r => settle_finally r fin w'
        | _ => (finallyA rest fin, w')
        end)
  end.

(** The result of an operation dropped. *)
Definition discard {A} (t : Async A) : Async unit :=
  let*a _ := t in Finished (Ok tt).

(** An operation run with nothing else in between: its stretches one
    after the other. *)
Fixpoint runAlone {A} (t : Async A) (w : World) : Result A * World :=
  match t with
  | Finished r => (r, w)
  | Suspended next => let (rest, w') := next w in runAlone rest w'
  end.

(** Operations in flight together: any one that is suspended may be the
    next to run a stretch. *)
Inductive resume : World * list (Async unit) -> World * list (Async unit) -> Prop :=
| resume_stretch w before next after rest w' :
    next w = (rest, w') ->
    resume (w, before ++ Suspended next :: after) (w', before ++ rest :: after).

(** ** State stores ([StateStore] and its two implementations) *)

Record StateStore := mkStore {
  getState : string -> M (option CircuitBreakerStats);
  setState : string -> CircuitBreakerStats -> M unit;
  incrementFailureCount : string -> M Z;
  resetStats : string -> M unit;
  close : M unit;
  (** the callback is always a breaker's [stateUpdate] forwarder; the
      second argument names that breaker *)
  watchState : string -> string -> M unit;
}.

Definition readKv (k : string) : M (option CircuitBreakerStats) :=
  fun w => (Ok (kv w !! k), w).

Definition writeKv (k : string) (stats : CircuitBreakerStats) : M unit :=
  fun w => (Ok tt, set_kv (<[k := stats]> (kv w)) w).

(** [test/utils/InMemoryStateStore.ts] *)
Module InMemoryStateStore.

Definition getState (key : string) : M (option CircuitBreakerStats) :=
  readKv key.

(** [this.watchers.get(key)?.forEach((callback) => callback(stats))] *)
Definition notifyAll (subscribers : list string) (stats : CircuitBreakerStats)
    (w : World) : World :=
  foldl (fun acc subscriber => deliver subscriber (stateUpdate stats) acc) w subscribers.

Definition notifyWatchers (key : string) (stats : CircuitBreakerStats) : M unit :=
  fun w => (Ok tt, notifyAll (default [] (watchers w !! key)) stats w).

Definition setState (key : string) (stats : CircuitBreakerStats) : M unit :=
  writeKv key stats ;;;
  notifyWatchers key stats.

Definition incrementFailureCount (key : string) : M Z :=
  let* stats := getState key in
  match stats with
  | None => ret 0
  | Some stats =>
      let* now := Date_now in
      let updatedStats :=
        with_lastUpdateTime (Some now)
          (with_lastFailureTime (Some now)
            (with_failedRequests (failedRequests stats + 1)
              (with_failureCount (failureCount stats + 1) stats))) in
      setState key updatedStats ;;;
      ret (failureCount updatedStats)
  end.

(** [incrementFailureCount] with its two [await]s. *)
Definition incrementFailureCountA (key : string) : Async Z :=
  let*a stats := await (getState key) in
  match stats with
  | None => Finished (Ok 0)
  | Some stats =>
      let*s now := Date_now in
      let updatedStats :=
        with_lastUpdateTime (Some now)
          (with_lastFailureTime (Some now)
            (with_failedRequests (failedRequests stats + 1)
              (with_failureCount (failureCount stats + 1) stats))) in
      let*a _ := await (setState key updatedStats) in
      Finished (Ok (failureCount updatedStats))
  end.

Definition resetStats (key : string) : M unit :=
  let* stats := getState key in
  match stats with
  | Some stats =>
      let resetStats :=
        with_state CLOSED
          (with_lastError None
            (with_lastFailureTime None
              (with_failedRequests 0
                (with_failureCount 0 stats)))) in
      setState key resetStats
  | None => ret tt
  end.

Definition watchState (key subscriber : string) : M unit :=
  fun w =>
    (Ok tt,
     set_watchers (<[key := default [] (watchers w !! key) ++ [subscriber]]> (watchers w)) w).

Definition close : M unit :=
  fun w => (Ok tt, set_watchers ∅ (set_kv ∅ w)).

Definition store : StateStore :=
  mkStore getState setState incrementFailureCount resetStats close watchState.

End InMemoryStateStore.

(** [src/EtcdStateStore.ts]. The etcd key space is [kv]; a value is kept
    as the record itself, since [JSON.parse (JSON.stringify stats)] gives
    back the same fields for records made of finite numbers, strings and
    [null]. Failures of the etcd client are outside the model. Watch
    notifications arrive asynchronously from the etcd server and are not
    part of [setState]. *)
Module EtcdStateStore.

Definition keyPrefix : string := "circuit-breaker/".

Definition getKey (serviceKey : string) : string := keyPrefix +:+ serviceKey.

Definition getState (serviceKey : string) : M (option CircuitBreakerStats) :=
  let key := getKey serviceKey in
  readKv key.

Definition setState (serviceKey : string) (stats : CircuitBreakerStats) : M unit :=
  let key := getKey serviceKey in
  writeKv key stats.

Definition incrementFailureCount (serviceKey : string) : M Z :=
  let* currentStats := getState serviceKey in
  match currentStats with
  | Some currentStats =>
      let* now := Date_now in
      let updatedStats :=
        with_lastFailureTime (Some now)
          (with_totalRequests (totalRequests currentStats + 1)
            (with_failedRequests (failedRequests currentStats + 1)
              (with_failureCount (failureCount currentStats + 1) currentStats))) in
      setState serviceKey updatedStats ;;;
      ret (failureCount updatedStats)
  | None =>
      let* now := Date_now in
      let initialStats :=
        {| state := CLOSED;
           failureCount := 1;
           failedRequests := 1;
           totalRequests := 1;
           successfulRequests := 0;
           lastFailureTime := Some now;
           lastSuccessTime := None;
           lastError := None;
           currentLoad := None;
           averageResponseTime := None;
           lastMinuteRequests := None;
           lastUpdateTime := None |} in
      setState serviceKey initialStats ;;;
      ret 1
  end.

(** [incrementFailureCount] with its two [await]s. *)
Definition incrementFailureCountA (serviceKey : string) : Async Z :=
  let*a currentStats := await (getState serviceKey) in
  match currentStats with
  | Some currentStats =>
      let*s now := Date_now in
      let updatedStats :=
        with_lastFailureTime (Some now)
          (with_totalRequests (totalRequests currentStats + 1)
            (with_failedRequests (failedRequests currentStats + 1)
              (with_failureCount (failureCount currentStats + 1) currentStats))) in
      let*a _ := await (setState serviceKey updatedStats) in
      Finished (Ok (failureCount updatedStats))
  | None =>
      let*s now := Date_now in
      let initialStats :=
        {| state := CLOSED;
           failureCount := 1;
           failedRequests := 1;
           totalRequests := 1;
           successfulRequests := 0;
           lastFailureTime := Some now;
           lastSuccessTime := None;
           lastError := None;
           currentLoad := None;
           averageResponseTime := None;
           lastMinuteRequests := None;
           lastUpdateTime := None |} in
      let*a _ := await (setState serviceKey initialStats) in
      Finished (Ok 1)
  end.

Definition resetStats (serviceKey : string) : M unit :=
  let* currentStats := getState serviceKey in
  match currentStats with
  | Some currentStats =>
      let resetStats :=
        with_lastError None
          (with_lastFailureTime None
            (with_failureCount 0 currentStats)) in
      setState serviceKey resetStats
  | None => ret tt
  end.

Definition watchState (serviceKey subscriber : string) : M unit :=
  let key := getKey serviceKey in
  fun w =>
    (Ok tt,
     set_watchers (<[key := default [] (watchers w !! key) ++ [subscriber]]> (watchers w)) w).

Definition close : M unit := ret tt.

Definition store : StateStore :=
  mkStore getState setState incrementFailureCount resetStats close watchState.

End EtcdStateStore.

(** The [StateStore] implementations found in the source tree. *)
Inductive StoreImpl := InMemory | Etcd.

Definition store_of (i : StoreImpl) : StateStore :=
  match i with
  | InMemory => InMemoryStateStore.store
  | Etcd => EtcdStateStore.store
  end.

Definition source_store (s : StateStore) : Prop := exists i, s = store_of i.

Definition incrementFailureCountA (i : StoreImpl) (key : string) : Async Z :=
  match i with
  | InMemory => InMemoryStateStore.incrementFailureCountA key
  | Etcd => EtcdStateStore.incrementFailureCountA key
  end.

(** Where each implementation keeps the record of a service key, and the
    world a [setState] leaves behind; used to state what the store
    operations do uniformly for both implementations. *)
Definition physKey (i : StoreImpl) (serviceKey : string) : string :=
  match i with
  | InMemory => serviceKey
  | Etcd => EtcdStateStore.getKey serviceKey
  end.

Definition lookupW (i : StoreImpl) (serviceKey : string) (w : World)
    : option CircuitBreakerStats :=
  kv w !! physKey i serviceKey.

Definition putW (i : StoreImpl) (serviceKey : string) (stats : CircuitBreakerStats)
    (w : World) : World :=
  match i with
  | InMemory =>
      InMemoryStateStore.notifyAll (default [] (watchers w !! serviceKey)) stats
        (set_kv (<[serviceKey := stats]> (kv w)) w)
  | Etcd => set_kv (<[EtcdStateStore.getKey serviceKey := stats]> (kv w)) w
  end.

(** ** The breaker ([src/HighPerformanceCircuitBreaker.ts]) *)

Record HighPerformanceCircuitBreaker := mkBreaker {
  serviceKey : string;
  stateStore : StateStore;
  options : CircuitBreakerOptions;
}.

(** The defaults the constructor fills in with [??]. *)
Definition constructorOptions (o : PartialOptions) : CircuitBreakerOptions :=
  {| failureThreshold := default 5 (p_failureThreshold o);
     resetTimeout := default 60000 (p_resetTimeout o);
     halfOpenRetryLimit := default 1 (p_halfOpenRetryLimit o);
     monitorInterval := default 30000 (p_monitorInterval o);
     serviceTimeout := default 5000 (p_serviceTimeout o);
     maxConcurrent := Some (default 10000 (p_maxConcurrent o)) |}.

(** What a caller-supplied thunk does once invoked, as far as the race
    against the deadline timer can tell: its promise fulfils in time,
    rejects in time, or is still unsettled when the timer would fire. The
    thunk is an external call; it does not touch the breaker or the store. *)
Inductive ServiceCall (T : Type) :=
| Resolves (value : T)
| Rejects (error : Thrown)
| Outlasts.
Arguments Resolves {T} value.
Arguments Rejects {T} error.
Arguments Outlasts {T}.

(** [xs.slice(-n)] *)
Definition slice_last {A} (n : nat) (xs : list A) : list A :=
  drop (length xs - n)%nat xs.

Definition calculateAverageResponseTime (l : Local) : Q :=
  if decide (length (responseTimes l) = 0%nat) then 0%Q
  else
    let recentTimes := slice_last 100 (responseTimes l) in
    let total := foldl (fun sum time => sum + time) 0 recentTimes in
    (inject_Z total / inject_Z (Z.of_nat (length recentTimes)))%Q.

Definition calculateRequestRate (l : Local) : Q :=
  if decide (length (requestTimes l) = 0%nat) then 0%Q
  else
    let recentTimes := slice_last 100 (requestTimes l) in
    (inject_Z (Z.of_nat (length recentTimes)) / 5)%Q.

Definition calculateErrorRate (l : Local) : Q :=
  if decide (length (errorTimes l) = 0%nat) then 0%Q
  else
    let recentErrors := slice_last 100 (errorTimes l) in
    (inject_Z (Z.of_nat (length recentErrors)) / 5)%Q.

(** [this.activeRequests.size] *)
Definition activeSize (l : Local) : Z := Z.of_nat (size (activeRequests l)).

Section Breaker.
Variable b : HighPerformanceCircuitBreaker.

Let key := serviceKey b.
Let store := stateStore b.
Let opts := options b.

Definition initializeState : M unit :=
  let* stats := getState store key in
  match stats with
  | Some _ => ret tt
  | None =>
      let* lastSuccess := Date_now in
      let* lastUpdate := Date_now in
      setState store key
        {| state := CLOSED;
           failureCount := 0;
           lastFailureTime := None;
           lastSuccessTime := Some lastSuccess;
           lastError := None;
           totalRequests := 0;
           failedRequests := 0;
           successfulRequests := 0;
           currentLoad := Some 0;
           averageResponseTime := Some 0%Q;
           lastMinuteRequests := None;
           lastUpdateTime := Some lastUpdate |}
  end.

(** One run of [updateMetrics], the body of the 100 ms metrics timer. *)
Definition updateMetrics : M unit :=
  let* now := Date_now in
  let oneMinuteAgo := now - 60000 in
  let fiveSecondsAgo := now - 5000 in
  let* l := getLocal key in
  let recentRequests := filter (fun time => fiveSecondsAgo < time) (requestTimes l) in
  let recentErrors := filter (fun time => fiveSecondsAgo < time) (errorTimes l) in
  let windowSize := 5%Q in
  let minuteRequests := filter (fun time => oneMinuteAgo < time) (requestTimes l) in
  let minuteErrors := filter (fun time => oneMinuteAgo < time) (errorTimes l) in
  let m :=
    {| Metrics.requestRate := (inject_Z (Z.of_nat (length recentRequests)) / windowSize)%Q;
       Metrics.errorRate := (inject_Z (Z.of_nat (length recentErrors)) / windowSize)%Q;
       Metrics.currentLoad := activeSize l;
       Metrics.averageResponseTime := calculateAverageResponseTime l;
       Metrics.lastMinuteStats :=
         {| Metrics.totalRequests := Z.of_nat (length minuteRequests);
            Metrics.successfulRequests :=
              Z.of_nat (length minuteRequests) - Z.of_nat (length minuteErrors);
            Metrics.failedRequests := Z.of_nat (length minuteErrors) |} |} in
  modifyLocal key (set_metrics m) ;;;
  (if decide (10000 <= now - lastMetricsUpdate l)
   then modifyLocal key (fun l =>
          set_errorTimes (filter (fun time => oneMinuteAgo < time) (errorTimes l))
            (set_requestTimes (filter (fun time => oneMinuteAgo < time) (requestTimes l)) l))
   else ret tt) ;;;
  emit key (metricsTick m) ;;;
  modifyLocal key (set_lastMetricsUpdate now).

Definition watchStateChanges : M unit :=
  watchState store key key.

Definition updateStats (stats : CircuitBreakerStats)
    (updates : CircuitBreakerStats -> CircuitBreakerStats) : M unit :=
  let* now := Date_now in
  let updatedStats := with_lastUpdateTime (Some now) (updates stats) in
  setState store key updatedStats.

Definition transitionToHalfOpen : M unit :=
  let* stats := getState store key in
  match stats with
  | None => ret tt
  | Some stats =>
      if decide (state stats <> OPEN) then ret tt
      else
        updateStats stats (fun s =>
          with_failedRequests (failedRequests stats)
            (with_failureCount 0
              (with_state HALF_OPEN s))) ;;;
        emit key (stateChange OPEN HALF_OPEN)
  end.

Definition transitionToOpen (error : Thrown) : M unit :=
  let* stats := getState store key in
  match stats with
  | None => ret tt
  | Some stats =>
      if decide (state stats = OPEN) then ret tt
      else
        let* now := Date_now in
        let* lastError := readMessage error in
        updateStats stats (fun s =>
          with_failureCount (failureThreshold opts)
            (with_lastError lastError
              (with_lastFailureTime (Some now)
                (with_state OPEN s)))) ;;;
        emit key (stateChange (state stats) OPEN) ;;;
        emit key (circuitOpen error)
  end.

Definition transitionToClosed : M unit :=
  let* stats := getState store key in
  match stats with
  | None => ret tt
  | Some stats =>
      if decide (state stats = CLOSED) then ret tt
      else
        let* now := Date_now in
        updateStats stats (fun s =>
          with_lastSuccessTime (Some now)
            (with_failedRequests 0
              (with_failureCount 0
                (with_state CLOSED s)))) ;;;
        emit key (stateChange (state stats) CLOSED)
  end.

(** One run of [performHealthCheck], the body of the health-check timer. *)
Definition performHealthCheck : M unit :=
  try_catch
    (let* stats := getState store key in
     match stats with
     | None => ret tt
     | Some stats =>
         let* now := Date_now in
         let lastFailure := default 0 (lastFailureTime stats) in
         let* transitioned :=
           (if decide (state stats = OPEN /\ resetTimeout opts <= now - lastFailure)
            then
              let* currentStats := getState store key in
              if decide (state <$> currentStats = Some OPEN)
              then transitionToHalfOpen ;;; ret true
              else ret false
            else ret false) in
         if (transitioned : bool) then ret tt
         else
           let* l := getLocal key in
           let updatedStats :=
             with_lastUpdateTime (Some now)
               (with_lastMinuteRequests (Some (Z.of_nat (length (requestTimes l))))
                 (with_averageResponseTime (Some (calculateAverageResponseTime l))
                   (with_currentLoad (Some (activeSize l)) stats))) in
           setState store key updatedStats ;;;
           emit key (healthCheck updatedStats)
     end)
    (fun _ => ret tt).

Definition recordResponseTime (responseTime : Z) : M unit :=
  modifyLocal key (fun l => set_responseTimes (responseTimes l ++ [responseTime]) l).

Definition recordSuccess : M unit :=
  let* stats := getState store key in
  match stats with
  | None => ret tt
  | Some stats =>
      let* now := Date_now in
      let* l := getLocal key in
      updateStats stats (fun s =>
        with_currentLoad (Some (activeSize l))
          (with_averageResponseTime (Some (calculateAverageResponseTime l))
            (with_lastSuccessTime (Some now)
              (with_totalRequests (totalRequests stats + 1)
                (with_successfulRequests (successfulRequests stats + 1) s)))))
  end.

Definition recordFailure (error : Thrown) : M unit :=
  let* stats := getState store key in
  match stats with
  | None => ret tt
  | Some stats =>
      let* count := incrementFailureCount store key in
      let* lastError := readMessage error in
      let* now := Date_now in
      let* l := getLocal key in
      updateStats stats (fun s =>
        with_currentLoad (Some (activeSize l))
          (with_averageResponseTime (Some (calculateAverageResponseTime l))
            (with_lastFailureTime (Some now)
              (with_failureCount count
                (with_lastError lastError
                  (with_totalRequests (totalRequests stats + 1)
                    (with_failedRequests (failedRequests stats + 1) s))))))) ;;;
      emit key (failure error) ;;;
      if decide (state stats = HALF_OPEN \/ failureThreshold opts <= count)
      then transitionToOpen error
      else ret tt
  end.

(** The non-null assertion [(await getState(...))!] followed by a
    property read: a [TypeError] if the record is still missing. *)
Definition nonNull (stats : option CircuitBreakerStats) : M CircuitBreakerStats :=
  match stats with
  | Some stats => ret stats
  | None => throw (ErrorObject "Cannot read properties of null (reading 'state')")
  end.

(** *** [execute], in the three stretches it runs in *)

(** Up to the circuit check: load the record and, when it says OPEN,
    either start the probe or reject. *)
Definition execute_load : M CircuitBreakerStats :=
  let* loaded := getState store key in
  let* stats :=
    match loaded with
    | Some stats => ret stats
    | None =>
        initializeState ;;;
        let* reloaded := getState store key in
        nonNull reloaded
    end in
  if decide (state stats = OPEN) then
    let* now := Date_now in
    let lastFailure := default 0 (lastFailureTime stats) in
    if decide (resetTimeout opts <= now - lastFailure) then
      transitionToHalfOpen ;;;
      let* reloaded := getState store key in
      nonNull reloaded
    else throw (ErrorObject "Circuit breaker is OPEN")
  else ret stats.

(** [maxConcurrent !== undefined && activeRequests.size >= maxConcurrent] *)
Definition atCapacity (l : Local) : bool :=
  match maxConcurrent opts with
  | Some m => bool_decide (m <= activeSize l)
  | None => false
  end.

(** The concurrency check and the registration of the request; no
    [await] separates the two, they run as one uninterrupted stretch. *)
Definition execute_enter : M (nat * Z) :=
  let* l := getLocal key in
  if atCapacity l then
    throw (ErrorObject "Maximum concurrent requests exceeded")
  else
    let* requestId := Symbol in
    modifyLocal key (fun l => set_activeRequests ({[requestId]} ∪ activeRequests l) l) ;;;
    let* startTime := Date_now in
    modifyLocal key (fun l => set_requestTimes (requestTimes l ++ [startTime]) l) ;;;
    ret (requestId, startTime).

(** [Promise.race([serviceCall(), timeoutPromise])]; the timer is armed
    only when [serviceTimeout > 0]. *)
Definition race {T} (serviceCall : ServiceCall T) : M T :=
  (fun w => (Ok tt, set_invocations (S (invocations w)) w)) ;;;
  match serviceCall with
  | Resolves value => ret value
  | Rejects error => throw error
  | Outlasts =>
      if decide (0 < serviceTimeout opts)
      then throw (ErrorObject "Service timeout")
      else pending
  end.

(** The [request] promise: run the call, account for its outcome,
    release the slot. *)
Definition execute_request {T} (stats : CircuitBreakerStats) (requestId : nat)
    (startTime : Z) (serviceCall : ServiceCall T) : M T :=
  try_catch_finally
    (let* result := race serviceCall in
     let* finished := Date_now in
     let responseTime := finished - startTime in
     recordResponseTime responseTime ;;;
     recordSuccess ;;;
     (if decide (state stats = HALF_OPEN) then transitionToClosed else ret tt) ;;;
     ret result)
    (fun error =>
       recordFailure error ;;;
       throw error)
    (modifyLocal key (fun l => set_activeRequests (activeRequests l ∖ {[requestId]}) l) ;;;
     let* l := getLocal key in
     emit key (metricsCall (calculateRequestRate l) (calculateErrorRate l)
                           (calculateAverageResponseTime l) (activeSize l))).

Definition execute {T} (serviceCall : ServiceCall T) : M T :=
  let* stats := execute_load in
  let* entered := execute_enter in
  execute_request stats (fst entered) (snd entered) serviceCall.

Definition getStats : M (option CircuitBreakerStats) :=
  getState store key.

Definition getMetrics : M CircuitBreakerMetrics :=
  let* l := getLocal key in
  ret (metrics l).

(** [init]: the record is materialised, then the synchronous rest of
    [init] runs (first metrics update, watch registration) before the
    first health check, started with [void], gets past its first
    [await]. *)
Definition init : M unit :=
  try_catch
    (initializeState ;;;
     updateMetrics ;;;
     watchStateChanges ;;;
     performHealthCheck)
    (fun error => throw error).

End Breaker.

(** [new HighPerformanceCircuitBreaker(serviceKey, stateStore, options)]:
    the field initialisers, then [void this.init().catch(...)], whose
    asynchronous work is run to its end here. *)
Definition newBreaker (serviceKey : string) (stateStore : StateStore)
    (o : PartialOptions) : M HighPerformanceCircuitBreaker :=
  let b := mkBreaker serviceKey stateStore (constructorOptions o) in
  let* created := Date_now in
  (fun w => (Ok tt, set_locals (<[serviceKey := newLocal created]> (locals w)) w)) ;;;
  try_catch (init b) (fun _ => ret tt) ;;;
  ret b.

(** *** The breaker's operations, cut at their [await]s

    The same code as above with every [await] of the source kept as the
    end of a stretch. Run with nothing in between ([runAlone]), each of
    them is the operation of the same name above. *)

Section AsyncBreaker.
Variables (i : StoreImpl) (key : string) (opts : CircuitBreakerOptions).

Let b := mkBreaker key (store_of i) opts.
Let store := store_of i.

Definition initializeStateA : Async unit :=
  let*a stats := await (getState store key) in
  match stats with
  | Some _ => Finished (Ok tt)
  | None =>
      let*s lastSuccess := Date_now in
      let*s lastUpdate := Date_now in
      await (setState store key
        {| state := CLOSED;
           failureCount := 0;
           lastFailureTime := None;
           lastSuccessTime := Some lastSuccess;
           lastError := None;
           totalRequests := 0;
           failedRequests := 0;
           successfulRequests := 0;
           currentLoad := Some 0;
           averageResponseTime := Some 0%Q;
           lastMinuteRequests := None;
           lastUpdateTime := Some lastUpdate |})
  end.

(** [await this.updateStats(stats, updates)]: the record is built and
    handed to [setState] before [updateStats] reaches its only [await]. *)
Definition updateStatsA (stats : CircuitBreakerStats)
    (updates : CircuitBreakerStats -> CircuitBreakerStats) : Async unit :=
  await (updateStats b stats updates).

Definition transitionToHalfOpenA : Async unit :=
  let*a stats := await (getState store key) in
  match stats with
  | None => Finished (Ok tt)
  | Some stats =>
      if decide (state stats <> OPEN) then Finished (Ok tt)
      else
        let*a _ := updateStatsA stats (fun s =>
          with_failedRequests (failedRequests stats)
            (with_failureCount 0
              (with_state HALF_OPEN s))) in
        let*s _ := emit key (stateChange OPEN HALF_OPEN) in
        Finished (Ok tt)
  end.

Definition transitionToOpenA (error : Thrown) : Async unit :=
  let*a stats := await (getState store key) in
  match stats with
  | None => Finished (Ok tt)
  | Some stats =>
      if decide (state stats = OPEN) then Finished (Ok tt)
      else
        let*s now := Date_now in
        let*s lastError := readMessage error in
        let*a _ := updateStatsA stats (fun s =>
          with_failureCount (failureThreshold opts)
            (with_lastError lastError
              (with_lastFailureTime (Some now)
                (with_state OPEN s)))) in
        let*s _ := emit key (stateChange (state stats) OPEN) in
        let*s _ := emit key (circuitOpen error) in
        Finished (Ok tt)
  end.

Definition transitionToClosedA : Async unit :=
  let*a stats := await (getState store key) in
  match stats with
  | None => Finished (Ok tt)
  | Some stats =>
      if decide (state stats = CLOSED) then Finished (Ok tt)
      else
        let*s now := Date_now in
        let*a _ := updateStatsA stats (fun s =>
          with_lastSuccessTime (Some now)
            (with_failedRequests 0
              (with_failureCount 0
                (with_state CLOSED s)))) in
        let*s _ := emit key (stateChange (state stats) CLOSED) in
        Finished (Ok tt)
  end.

Definition performHealthCheckA : Async unit :=
  try_catchA
    (let*a stats := await (getState store key) in
     match stats with
     | None => Finished (Ok tt)
     | Some stats =>
         let*s now := Date_now in
         let lastFailure := default 0 (lastFailureTime stats) in
         let refresh : Async unit :=
           let*s l := getLocal key in
           let updatedStats :=
             with_lastUpdateTime (Some now)
               (with_lastMinuteRequests (Some (Z.of_nat (length (requestTimes l))))
                 (with_averageResponseTime (Some (calculateAverageResponseTime l))
                   (with_currentLoad (Some (activeSize l)) stats))) in
           let*a _ := await (setState store key updatedStats) in
           let*s _ := emit key (healthCheck updatedStats) in
           Finished (Ok tt) in
         if decide (state stats = OPEN /\ resetTimeout opts <= now - lastFailure)
         then
           let*a currentStats := await (getState store key) in
           if decide (state <$> currentStats = Some OPEN)
           then transitionToHalfOpenA
           else refresh
         else refresh
     end)
    (fun _ => Finished (Ok tt)).

Definition recordSuccessA : Async unit :=
  let*a stats := await (getState store key) in
  match stats with
  | None => Finished (Ok tt)
  | Some stats =>
      let*s now := Date_now in
      let*s l := getLocal key in
      updateStatsA stats (fun s =>
        with_currentLoad (Some (activeSize l))
          (with_averageResponseTime (Some (calculateAverageResponseTime l))
            (with_lastSuccessTime (Some now)
              (with_totalRequests (totalRequests stats + 1)
                (with_successfulRequests (successfulRequests stats + 1) s)))))
  end.

Definition recordFailureA (error : Thrown) : Async unit :=
  let*a stats := await (getState store key) in
  match stats with
  | None => Finished (Ok tt)
  | Some stats =>
      let*a count := incrementFailureCountA i key in
      let*s lastError := readMessage error in
      let*s now := Date_now in
      let*s l := getLocal key in
      let*a _ := updateStatsA stats (fun s =>
        with_currentLoad (Some (activeSize l))
          (with_averageResponseTime (Some (calculateAverageResponseTime l))
            (with_lastFailureTime (Some now)
              (with_failureCount count
                (with_lastError lastError
                  (with_totalRequests (totalRequests stats + 1)
                    (with_failedRequests (failedRequests stats + 1) s))))))) in
      let*s _ := emit key (failure error) in
      if decide (state stats = HALF_OPEN \/ failureThreshold opts <= count)
      then transitionToOpenA error
      else Finished (Ok tt)
  end.

(** The non-null assertion of [execute]; it reads no state. *)
Definition nonNullA (stats : option CircuitBreakerStats) : Async CircuitBreakerStats :=
  match stats with
  | Some stats => Finished (Ok stats)
  | None =>
      Finished (Throw (ErrorObject "Cannot read properties of null (reading 'state')"))
  end.

Definition execute_loadA : Async CircuitBreakerStats :=
  let*a loaded := await (getState store key) in
  let*a stats :=
    match loaded with
    | Some stats => Finished (Ok stats)
    | None =>
        let*a _ := initializeStateA in
        let*a reloaded := await (getState store key) in
        nonNullA reloaded
    end in
  if decide (state stats = OPEN) then
    let*s now := Date_now in
    let lastFailure := default 0 (lastFailureTime stats) in
    if decide (resetTimeout opts <= now - lastFailure) then
      let*a _ := transitionToHalfOpenA in
      let*a reloaded := await (getState store key) in
      nonNullA reloaded
    else Finished (Throw (ErrorObject "Circuit breaker is OPEN"))
  else Finished (Ok stats).

(** The [request] promise. The thunk is invoked in the stretch that
    admitted the call; the [finally] block has no [await]. *)
Definition execute_requestA {T} (stats : CircuitBreakerStats) (requestId : nat)
    (startTime : Z) (serviceCall : ServiceCall T) : Async T :=
  finallyA
    (try_catchA
       (let*a result := await (race b serviceCall) in
        let*s finished := Date_now in
        let responseTime := finished - startTime in
        let*s _ := recordResponseTime b responseTime in
        let*a _ := recordSuccessA in
        let*a _ := (if decide (state stats = HALF_OPEN)
                    then transitionToClosedA else Finished (Ok tt)) in
        Finished (Ok result))
       (fun error =>
          let*a _ := recordFailureA error in
          Finished (Throw error)))
    (modifyLocal key (fun l => set_activeRequests (activeRequests l ∖ {[requestId]}) l) ;;;
     let* l := getLocal key in
     emit key (metricsCall (calculateRequestRate l) (calculateErrorRate l)
                           (calculateAverageResponseTime l) (activeSize l))).

Definition executeA {T} (serviceCall : ServiceCall T) : Async T :=
  let*a stats := execute_loadA in
  let*s entered := execute_enter b in
  execute_requestA stats (fst entered) (snd entered) serviceCall.

End AsyncBreaker.

(** *** Records and worlds the breaker's operations leave behind

    Named here so that the statements below can refer to them. *)

(** The record [incrementFailureCount] writes back for a key that is
    present; the in-memory store does not touch [totalRequests]. *)
Definition incremented (i : StoreImpl) (now : Z) (st : CircuitBreakerStats)
    : CircuitBreakerStats :=
  match i with
  | InMemory =>
      with_lastUpdateTime (Some now)
        (with_lastFailureTime (Some now)
          (with_failedRequests (failedRequests st + 1)
            (with_failureCount (failureCount st + 1) st)))
  | Etcd =>
      with_lastFailureTime (Some now)
        (with_totalRequests (totalRequests st + 1)
          (with_failedRequests (failedRequests st + 1)
            (with_failureCount (failureCount st + 1) st)))
  end.

(** Written by [transitionToHalfOpen]. *)
Definition halfOpened (updated : Z) (st : CircuitBreakerStats) : CircuitBreakerStats :=
  with_lastUpdateTime (Some updated)
    (with_failedRequests (failedRequests st)
      (with_failureCount 0 (with_state HALF_OPEN st))).

(** Written by [transitionToOpen]. *)
Definition opened (threshold now updated : Z) (e : Thrown) (st : CircuitBreakerStats)
    : CircuitBreakerStats :=
  with_lastUpdateTime (Some updated)
    (with_failureCount threshold
      (with_lastError (message e)
        (with_lastFailureTime (Some now)
          (with_state OPEN st)))).

(** Written by [transitionToClosed]. *)
Definition closed (now updated : Z) (st : CircuitBreakerStats) : CircuitBreakerStats :=
  with_lastUpdateTime (Some updated)
    (with_lastSuccessTime (Some now)
      (with_failedRequests 0
        (with_failureCount 0
          (with_state CLOSED st)))).

(** Written by [recordSuccess]. *)
Definition succeeded (now updated : Z) (l : Local) (st : CircuitBreakerStats)
    : CircuitBreakerStats :=
  with_lastUpdateTime (Some updated)
    (with_currentLoad (Some (activeSize l))
      (with_averageResponseTime (Some (calculateAverageResponseTime l))
        (with_lastSuccessTime (Some now)
          (with_totalRequests (totalRequests st + 1)
            (with_successfulRequests (successfulRequests st + 1) st))))).

(** Written by the accounting part of [recordFailure]. *)
Definition failed (count now updated : Z) (l : Local) (e : Thrown)
    (st : CircuitBreakerStats) : CircuitBreakerStats :=
  with_lastUpdateTime (Some updated)
    (with_currentLoad (Some (activeSize l))
      (with_averageResponseTime (Some (calculateAverageResponseTime l))
        (with_lastFailureTime (Some now)
          (with_failureCount count
            (with_lastError (message e)
              (with_totalRequests (totalRequests st + 1)
                (with_failedRequests (failedRequests st + 1) st))))))).

(** The world after the accounting part of [recordFailure] (store
    increment, record update, [failure] event), before the threshold
    check. *)
Definition afterFailure (i : StoreImpl) (key : string) (e : Thrown)
    (st : CircuitBreakerStats) (w : World) : World :=
  let w1 := putW i key (incremented i (clock w (tick w)) st) (set_tick (S (tick w)) w) in
  let w2 := set_tick (S (tick w1)) w1 in
  deliver key (failure e)
    (putW i key
       (failed (failureCount st + 1) (clock w1 (tick w1)) (clock w2 (tick w2))
               (local_of key w2) e st)
       (set_tick (S (tick w2)) w2)).

(** The world after a successful OPEN → HALF_OPEN transition started in [w]. *)
Definition afterHalfOpen (i : StoreImpl) (key : string)
    (st : CircuitBreakerStats) (w : World) : World :=
  deliver key (stateChange OPEN HALF_OPEN)
    (putW i key (halfOpened (clock w (tick w)) st) (set_tick (S (tick w)) w)).

(** The [finally] block of a request. *)
Definition released (key : string) (requestId : nat) (w : World) : World :=
  let w1 := updateLocal key
              (fun l => set_activeRequests (activeRequests l ∖ {[requestId]}) l) w in
  let l := local_of key w1 in
  deliver key (metricsCall (calculateRequestRate l) (calculateErrorRate l)
                           (calculateAverageResponseTime l) (activeSize l)) w1.

(** The successful run of [execute_enter]. *)
Definition entered (key : string) (w : World) : World :=
  let w1 := set_nextSymbol (S (nextSymbol w)) w in
  let w2 := updateLocal key
              (fun l => set_activeRequests ({[nextSymbol w]} ∪ activeRequests l) l) w1 in
  let w3 := set_tick (S (tick w2)) w2 in
  updateLocal key (fun l => set_requestTimes (requestTimes l ++ [clock w2 (tick w2)]) l) w3.

(** ** The factory ([src/ShardedCircuitBreakerFactory.ts]) *)

Record ServiceCircuitBreakerConfig := mkConfig {
  name : string;
  shardCount : option nat;
  cfg_options : option PartialOptions;
}.

Record ServiceCallResult (T : Type) := mkResult {
  r_success : bool;
  r_data : option T;
  r_error : option Thrown;
  r_service : string;
  r_shardId : JsNumber;
  r_responseTime : option Z;
  r_circuitOpen : option bool;
}.
Arguments mkResult {T}.
Arguments r_success {T}.
Arguments r_data {T}.
Arguments r_error {T}.
Arguments r_service {T}.
Arguments r_shardId {T}.
Arguments r_responseTime {T}.
Arguments r_circuitOpen {T}.

Record ShardedCircuitBreakerFactory := mkFactory {
  factoryStore : StateStore;
  baseOptions : CircuitBreakerOptions;
  serviceBreakers : gmap string (list HighPerformanceCircuitBreaker);
  serviceConfigs : gmap string ServiceCircuitBreakerConfig;
}.

Definition dquote : string := String (Ascii.ascii_of_nat 34) EmptyString.

(** [haystack.includes(needle)] *)
Fixpoint includes (needle haystack : string) : bool :=
  if String.prefix needle haystack then true
  else
    match haystack with
    | EmptyString => false
    | String _ rest => includes needle rest
    end.

(** [{...this.baseOptions, ...options}] *)
Definition mergeOptions (base : CircuitBreakerOptions) (o : PartialOptions) : PartialOptions :=
  {| p_failureThreshold := Some (default (failureThreshold base) (p_failureThreshold o));
     p_resetTimeout := Some (default (resetTimeout base) (p_resetTimeout o));
     p_halfOpenRetryLimit := Some (default (halfOpenRetryLimit base) (p_halfOpenRetryLimit o));
     p_monitorInterval := Some (default (monitorInterval base) (p_monitorInterval o));
     p_serviceTimeout := Some (default (serviceTimeout base) (p_serviceTimeout o));
     p_maxConcurrent :=
       match p_maxConcurrent o with
       | Some m => Some m
       | None => maxConcurrent base
       end |}.

Fixpoint forEach {A B} (f : A -> M B) (xs : list A) : M (list B) :=
  match xs with
  | [] => ret []
  | x :: rest =>
      let* y := f x in
      let* ys := forEach f rest in
      ret (y :: ys)
  end.

Section Factory.
Variable f : ShardedCircuitBreakerFactory.

Definition serviceNotFound (serviceName : string) : Thrown :=
  ErrorObject ("Service " +:+ dquote +:+ serviceName +:+ dquote
               +:+ " not found. Create it first with createServiceBreakers().").

Definition createServiceBreakers (config : ServiceCircuitBreakerConfig)
    : M (ShardedCircuitBreakerFactory * list HighPerformanceCircuitBreaker) :=
  let count := default 4%nat (shardCount config) in
  let opts := default noOptions (cfg_options config) in
  match serviceBreakers f !! name config with
  | Some _ =>
      throw (ErrorObject ("Service " +:+ dquote +:+ name config +:+ dquote
               +:+ " already exists. Use getServiceBreakers() to access it."))
  | None =>
      let configs :=
        <[name config := mkConfig (name config) (Some count) (Some opts)]> (serviceConfigs f) in
      let serviceOptions := mergeOptions (baseOptions f) opts in
      let* breakers :=
        forEach (fun i => newBreaker (name config +:+ "-" +:+ pretty i)
                            (factoryStore f) serviceOptions)
                (seq 0 count) in
      ret (mkFactory (factoryStore f) (baseOptions f)
             (<[name config := breakers]> (serviceBreakers f)) configs,
           breakers)
  end.

Definition getServiceBreakers (serviceName : string)
    : M (list HighPerformanceCircuitBreaker) :=
  match serviceBreakers f !! serviceName with
  | Some breakers => ret breakers
  | None => throw (serviceNotFound serviceName)
  end.

(** The bounds check compares numbers, so it lets [NaN] through, and
    [breakers[NaN]] is [undefined]. *)
Definition getServiceBreaker (serviceName : string) (shardId : JsNumber)
    : M (option HighPerformanceCircuitBreaker) :=
  let* breakers := getServiceBreakers serviceName in
  match shardId with
  | Finite id =>
      if decide (id < 0 \/ Z.of_nat (length breakers) <= id) then
        throw (ErrorObject ("Invalid shard ID " +:+ dquote +:+ pretty id +:+ dquote
                 +:+ " for service " +:+ dquote +:+ serviceName +:+ dquote
                 +:+ ". Valid range: 0-" +:+ pretty (Z.of_nat (length breakers) - 1) +:+ "."))
      else ret (breakers !! Z.to_nat id)
  | NaN => ret None
  end.

Definition getServiceState (serviceName : string) (shardId : JsNumber)
    : M CircuitBreakerState :=
  let* breaker := getServiceBreaker serviceName shardId in
  match breaker with
  | Some breaker =>
      let* stats := getStats breaker in
      ret (default CLOSED (state <$> stats))
  | None => throw (ErrorObject "Cannot read properties of undefined (reading 'getStats')")
  end.

Definition executeServiceCall {T} (serviceName : string) (shardId : JsNumber)
    (serviceCall : ServiceCall T) : M (ServiceCallResult T) :=
  let* breaker := getServiceBreaker serviceName shardId in
  let* startTime := Date_now in
  try_catch
    (let* result :=
       match breaker with
       | Some breaker => execute breaker serviceCall
       | None => throw (ErrorObject "Cannot read properties of undefined (reading 'execute')")
       end in
     let* finished := Date_now in
     let responseTime := finished - startTime in
     ret {| r_success := true;
            r_data := Some result;
            r_error := None;
            r_service := serviceName;
            r_shardId := shardId;
            r_responseTime := Some responseTime;
            r_circuitOpen := None |})
    (fun error =>
       let* finished := Date_now in
       let responseTime := finished - startTime in
       let circuitOpen :=
         instanceofError error
         && includes "Circuit breaker is OPEN" (default "" (message error)) in
       ret {| r_success := false;
              r_data := None;
              r_error := Some (if instanceofError error then error
                               else ErrorObject (toText error));
              r_service := serviceName;
              r_shardId := shardId;
              r_responseTime := Some responseTime;
              r_circuitOpen := Some circuitOpen |}).

Definition executeWithKey {T} (serviceName : string) (key : CodeUnits)
    (serviceCall : ServiceCall T) : M (ServiceCallResult T) :=
  let* breakers := getServiceBreakers serviceName in
  let shardId := getShardIdForKey key (Z.of_nat (length breakers)) in
  executeServiceCall serviceName shardId serviceCall.

End Factory.

(** [new ShardedCircuitBreakerFactory(stateStore, baseOptions)] *)
Definition newFactory (stateStore : StateStore) (baseOptions : CircuitBreakerOptions)
    : ShardedCircuitBreakerFactory :=
  mkFactory stateStore baseOptions ∅ ∅.

(** ** Notions used in the statements *)

(** The value a settled promise was fulfilled with. *)
Definition fulfilled {A} (r : Result A) : option A :=
  match r with
  | Ok a => Some a
  | _ => None
  end.

(** *** Stores, as the specification states them *)

(** "If the key is absent, a fresh record with counters = 1 and
    [state = CLOSED] is materialized", and the new count is returned. *)
Definition materializes_absent_key (s : StateStore) : Prop :=
  forall key w,
    fst (getState s key w) = Ok None ->
    exists w' st,
      incrementFailureCount s key w = (Ok 1, w') /\
      fst (getState s key w') = Ok (Some st) /\
      failureCount st = 1 /\ failedRequests st = 1 /\ totalRequests st = 1 /\
      state st = CLOSED.

(** *** The operations of a breaker, alone and in flight together *)

Inductive BreakerOp (T : Type) :=
| OpExecute (serviceCall : ServiceCall T)
| OpHealthCheck
| OpMetricsTick
| OpTransitionToHalfOpen
| OpTransitionToOpen (error : Thrown)
| OpTransitionToClosed
| OpRecordSuccess
| OpRecordFailure (error : Thrown).
Arguments OpExecute {T} serviceCall.
Arguments OpHealthCheck {T}.
Arguments OpMetricsTick {T}.
Arguments OpTransitionToHalfOpen {T}.
Arguments OpTransitionToOpen {T} error.
Arguments OpTransitionToClosed {T}.
Arguments OpRecordSuccess {T}.
Arguments OpRecordFailure {T} error.

(** The breaker keyed [key] on the store [i] of the source. *)
Definition breakerOn (i : StoreImpl) (key : string) (opts : CircuitBreakerOptions)
    : HighPerformanceCircuitBreaker :=
  mkBreaker key (store_of i) opts.

(** An operation of that breaker, cut at its [await]s. The metrics tick
    is synchronous: one stretch. *)
Definition opTask {T} (i : StoreImpl) (key : string) (opts : CircuitBreakerOptions)
    (op : BreakerOp T) : Async unit :=
  match op with
  | OpExecute serviceCall => discard (executeA i key opts serviceCall)
  | OpHealthCheck => performHealthCheckA i key opts
  | OpMetricsTick => let*s _ := updateMetrics (breakerOn i key opts) in Finished (Ok tt)
  | OpTransitionToHalfOpen => transitionToHalfOpenA i key opts
  | OpTransitionToOpen error => transitionToOpenA i key opts error
  | OpTransitionToClosed => transitionToClosedA i key opts
  | OpRecordSuccess => recordSuccessA i key opts
  | OpRecordFailure error => recordFailureA i key opts error
  end.

(** "All counters are monotonic non-decreasing over the lifetime of a
    key", for the three lifetime totals. *)
Definition counters_grow (st st' : CircuitBreakerStats) : Prop :=
  totalRequests st <= totalRequests st' /\
  successfulRequests st <= successfulRequests st' /\
  failedRequests st <= failedRequests st'.

(** ... "across every breaker operation": whatever operations of the
    breaker are in flight and in whatever order their stretches run, the
    totals in the record at a later moment are at least those at an
    earlier one. *)
Definition counters_monotone : Prop :=
  forall (i : StoreImpl) (key : string) (opts : CircuitBreakerOptions)
         (ops : list (BreakerOp unit)) (w0 : World) (earlier later : World * list (Async unit))
         st st',
    rtc resume (w0, opTask i key opts <$> ops) earlier ->
    rtc resume earlier later ->
    fst (getStats (breakerOn i key opts) (fst earlier)) = Ok (Some st) ->
    fst (getStats (breakerOn i key opts) (fst later)) = Ok (Some st') ->
    counters_grow st st'.

(** One stretch of the operation at position [n], when it is suspended. *)
Definition resumeAt (n : nat) (s : World * list (Async unit)) : World * list (Async unit) :=
  match snd s !! n with
  | Some (Suspended next) =>
      let (rest, w') := next (fst s) in (w', <[n := rest]> (snd s))
  | _ => s
  end.

(** The operations in flight run in the given order of turns. *)
Definition schedule (turns : list nat) (s : World * list (Async unit))
    : World * list (Async unit) :=
  foldl (fun s n => resumeAt n s) s turns.

(** What an operation may do to the totals: keep or raise each of them,
    or, when it closes the circuit, clear [failedRequests]. *)
Definition totals_kept (st st' : CircuitBreakerStats) : Prop :=
  totalRequests st <= totalRequests st' /\
  successfulRequests st <= successfulRequests st' /\
  (failedRequests st <= failedRequests st'
   \/ (state st <> CLOSED /\ state st' = CLOSED /\ failedRequests st' = 0)).

(** A call that fails with [e]: the thunk rejects with it, or the deadline
    timer fires first. *)
Definition fails_with {T} (opts : CircuitBreakerOptions) (call : ServiceCall T)
    (e : Thrown) : Prop :=
  call = Rejects e
  \/ (call = Outlasts /\ 0 < serviceTimeout opts /\ e = ErrorObject "Service timeout").

(** Calls made one after the other, each awaited before the next. *)
Fixpoint executeAll {T} (b : HighPerformanceCircuitBreaker)
    (calls : list (ServiceCall T)) (w : World) : World :=
  match calls with
  | [] => w
  | call :: rest => executeAll b rest (snd (execute b call w))
  end.

(** *** Properties of the world that an operation keeps *)

Definition preserves {A} (P : World -> Prop) (m : M A) : Prop :=
  forall w r w', m w = (r, w') -> P w -> P w'.

(** Properties that do not depend on the store, the clock or the symbol
    supply, that survive every event other than [rejected], and every
    change of a breaker's fields that leaves its active set and its event
    log alone. *)
Record Stable (P : World -> Prop) : Prop := {
  stable_kv : forall m w, P w -> P (set_kv m w);
  stable_watchers : forall m w, P w -> P (set_watchers m w);
  stable_tick : forall n w, P w -> P (set_tick n w);
  stable_nextSymbol : forall n w, P w -> P (set_nextSymbol n w);
  stable_deliver : forall k ev w, is_rejected ev = false -> P w -> P (deliver k ev w);
  stable_update : forall k f w,
    (forall l, activeRequests (f l) = activeRequests l /\ emitted (f l) = emitted l) ->
    P w -> P (updateLocal k f w);
}.

(** The in-flight set of a breaker. *)
Definition active (b : HighPerformanceCircuitBreaker) (w : World) : gset nat :=
  activeRequests (local_of (serviceKey b) w).

(** Two properties an operation may keep: the in-flight set of the breaker
    keyed [key] is [ids]; the thunks were invoked [n] times so far. *)
Definition active_is (key : string) (ids : gset nat) (w : World) : Prop :=
  activeRequests (local_of key w) = ids.

Definition invoked_is (n : nat) (w : World) : Prop := invocations w = n.

(** No breaker has emitted a [rejected] event. *)
Definition no_rejected (w : World) : Prop :=
  forall k, Forall (fun ev => is_rejected ev = false) (emitted (local_of k w)).

(** *** A breaker under concurrent load

    Calls to [execute] overlap: each one advances in the three stretches
    [execute_load], [execute_enter] and [execute_request], and stretches of
    different calls, health-check ticks, metrics ticks and writes of other
    processes to the shared store interleave in any order. [waiting] holds
    the calls that passed the circuit check, [running] the admitted ones.

    [execute_enter] contains no [await]: on the event loop it runs
    uninterrupted, which is why it is one step. The other two stretches do
    await the store, but they touch the in-flight set only in the
    [finally] block of the request, itself free of [await]; whatever slips
    in between their store accesses changes the store at most, which
    [step_peer] accounts for by rewriting the store at will. *)
Record System (T : Type) := mkSystem {
  world : World;
  waiting : list (CircuitBreakerStats * ServiceCall T);
  running : list (CircuitBreakerStats * nat * Z * ServiceCall T);
}.
Arguments mkSystem {T}.
Arguments world {T}.
Arguments waiting {T}.
Arguments running {T}.

Inductive step {T} (b : HighPerformanceCircuitBreaker) : System T -> System T -> Prop :=
| step_load s call r w' :
    execute_load b (world s) = (r, w') ->
    step b s (mkSystem w'
                (match r with
                 | Ok stats => waiting s ++ [(stats, call)]
                 | _ => waiting s
                 end)
                (running s))
| step_enter s before stats call after r w' :
    waiting s = before ++ (stats, call) :: after ->
    execute_enter b (world s) = (r, w') ->
    step b s (mkSystem w' (before ++ after)
                (match r with
                 | Ok (requestId, startTime) =>
                     running s ++ [(stats, requestId, startTime, call)]
                 | _ => running s
                 end))
| step_request s before stats requestId startTime call after r w' :
    running s = before ++ (stats, requestId, startTime, call) :: after ->
    execute_request b stats requestId startTime call (world s) = (r, w') ->
    step b s (mkSystem w' (waiting s) (before ++ after))
| step_health s r w' :
    performHealthCheck b (world s) = (r, w') ->
    step b s (mkSystem w' (waiting s) (running s))
| step_metrics s r w' :
    updateMetrics b (world s) = (r, w') ->
    step b s (mkSystem w' (waiting s) (running s))
| step_peer s records :
    step b s (mkSystem (set_kv records (world s)) (waiting s) (running s)).

(** ** Concrete breakers and worlds *)

(** Nothing stored, nothing running; the clock starts at 1000 and advances
    by one millisecond per reading. *)
Definition empty_world : World :=
  {| kv := ∅;
     watchers := ∅;
     clock := fun n => 1000 + Z.of_nat n;
     tick := 0;
     nextSymbol := 0;
     invocations := 0;
     locals := ∅ |}.

(** A CLOSED breaker with threshold 3 and two failures on record. *)
Definition trip_breaker : HighPerformanceCircuitBreaker :=
  mkBreaker "payment-0" InMemoryStateStore.store
    (constructorOptions (mkPartial (Some 3) None None None None None)).

Definition trip_world : World :=
  {| kv := {[ "payment-0" := mkStats CLOSED 2 None None 2 0 2 None None None None None ]};
     watchers := ∅;
     clock := fun n => 1000 + Z.of_nat n;
     tick := 0;
     nextSymbol := 0;
     invocations := 0;
     locals := ∅ |}.

(** An OPEN breaker on etcd with a cool-down of one second. *)
Definition open_breaker : HighPerformanceCircuitBreaker :=
  mkBreaker "orders-1" EtcdStateStore.store
    (constructorOptions (mkPartial (Some 3) (Some 1000) None None None None)).

Definition open_record : CircuitBreakerStats :=
  mkStats OPEN 3 (Some 5000) None 3 0 3 (Some "boom") None None None (Some 5000).

(** More than [resetTimeout] after the last failure. *)
Definition open_world : World :=
  {| kv := {[ "circuit-breaker/orders-1" := open_record ]};
     watchers := ∅;
     clock := fun n => 6100 + Z.of_nat n;
     tick := 0;
     nextSymbol := 0;
     invocations := 0;
     locals := ∅ |}.

(** Still inside the cool-down. *)
Definition early_world : World :=
  {| kv := {[ "circuit-breaker/orders-1" := open_record ]};
     watchers := ∅;
     clock := fun n => 5200 + Z.of_nat n;
     tick := 0;
     nextSymbol := 0;
     invocations := 0;
     locals := ∅ |}.

(** A breaker in HALF_OPEN with three failures on record. *)
Definition probe_breaker : HighPerformanceCircuitBreaker :=
  mkBreaker "payment-0" InMemoryStateStore.store
    (constructorOptions (mkPartial (Some 3) (Some 1000) None None None None)).

Definition probe_record : CircuitBreakerStats :=
  mkStats HALF_OPEN 0 (Some 5000) None 3 0 3 (Some "boom") None None None (Some 6100).

Definition probe_world : World :=
  {| kv := {[ "payment-0" := probe_record ]};
     watchers := ∅;
     clock := fun n => 6200 + Z.of_nat n;
     tick := 0;
     nextSymbol := 0;
     invocations := 0;
     locals := ∅ |}.

(** A breaker that admits one call at a time, and a run of the system in
    which one call passes the circuit check and is admitted. *)
Definition cap_breaker : HighPerformanceCircuitBreaker :=
  mkBreaker "payment-0" InMemoryStateStore.store
    (constructorOptions (mkPartial None None None None None (Some 1))).

Definition cap_start : System unit := mkSystem empty_world [] [].

Definition cap_loaded : System unit :=
  let r := execute_load cap_breaker (world cap_start) in
  mkSystem (snd r)
    (match fst r with
     | Ok stats => waiting cap_start ++ [(stats, Resolves tt)]
     | _ => waiting cap_start
     end)
    (running cap_start).

Definition cap_record : CircuitBreakerStats :=
  {| state := CLOSED;
     failureCount := 0;
     lastFailureTime := None;
     lastSuccessTime := Some 1000;
     lastError := None;
     totalRequests := 0;
     failedRequests := 0;
     successfulRequests := 0;
     currentLoad := Some 0;
     averageResponseTime := Some 0%Q;
     lastMinuteRequests := None;
     lastUpdateTime := Some 1001 |}.

Definition cap_admitted : System unit :=
  let r := execute_enter cap_breaker (world cap_loaded) in
  mkSystem (snd r) ([] ++ [])
    (match fst r with
     | Ok (requestId, startTime) =>
         running cap_loaded ++ [(cap_record, requestId, startTime, Resolves tt)]
     | _ => running cap_loaded
     end).

(** A factory with one service of two shards, set up through
    [createServiceBreakers] on an empty in-memory store. *)
Definition base_options : CircuitBreakerOptions :=
  mkOptions 5 60000 1 30000 5000 (Some 10000).

Definition payment_setup
    : Result (ShardedCircuitBreakerFactory * list HighPerformanceCircuitBreaker) * World :=
  createServiceBreakers (newFactory InMemoryStateStore.store base_options)
    (mkConfig "payment" (Some 2%nat) None) empty_world.

Definition payment_factory : ShardedCircuitBreakerFactory :=
  match fst payment_setup with
  | Ok (f, _) => f
  | _ => newFactory InMemoryStateStore.store base_options
  end.

Definition payment_world : World := snd payment_setup.

(** A thunk whose own error happens to quote the breaker's message. *)
Definition upstream_error : Thrown :=
  ErrorObject "HTTP 503 from upstream: Circuit breaker is OPEN".

(** [cap_breaker] with its single slot taken. *)
Definition full_world : World :=
  {| kv := {[ "payment-0" := cap_record ]};
     watchers := ∅;
     clock := fun n => 2000 + Z.of_nat n;
     tick := 0;
     nextSymbol := 8;
     invocations := 1;
     locals := {[ "payment-0" := mkLocal {[7%nat]} [1990] [] [] emptyMetrics 1001 [] ]} |}.

(** A breaker with nothing on record yet and nothing running, and two
    calls through it that are in flight together: one whose thunk
    rejects, one whose thunk resolves. *)
Definition quiet_world : World :=
  {| kv := {[ "payment-0" := cap_record ]};
     watchers := ∅;
     clock := fun n => 2000 + Z.of_nat n;
     tick := 0;
     nextSymbol := 0;
     invocations := 0;
     locals := ∅ |}.

Definition overlapping_calls : list (Async unit) :=
  opTask InMemory "payment-0" (options trip_breaker)
    <$> [OpExecute (Rejects (ErrorObject "boom")); OpExecute (Resolves tt)].

(** The two calls take turns, stretch by stretch, until the successful
    one has accounted for itself; then the failing one goes on. *)
Definition overlap_earlier : World * list (Async unit) :=
  schedule [0; 1; 0; 1; 0; 1; 0; 1; 0; 1; 0; 1; 0; 1]%nat (quiet_world, overlapping_calls).

Definition overlap_later : World * list (Async unit) :=
  schedule [0]%nat overlap_earlier.

(** ** Further queries of the factory *)

Section FactoryQueries.
Variable f : ShardedCircuitBreakerFactory.


(** [!!this.serviceBreakers[serviceName]]; an array is truthy, also when
    it is empty. *)
Definition hasService (serviceName : string) : bool :=
  match serviceBreakers f !! serviceName with
  | Some _ => true
  | None => false
  end.

(** [stats?.state || CircuitBreakerState.CLOSED]; the three state names
    are non-empty strings, so only a missing record falls back. *)
Definition stateOrClosed (stats : option CircuitBreakerStats) : CircuitBreakerState :=
  match stats with
  | Some stats => state stats
  | None => CLOSED
  end.

(** The result object has the shard ids [0 .. n-1] as its keys; it is the
    list of the states in that order. The callbacks handed to
    [Promise.all] only read the store, one shard after the other. *)
Definition getServiceStates (serviceName : string) : M (list CircuitBreakerState) :=
  let* breakers := getServiceBreakers f serviceName in
  forEach (fun breaker =>
             let* stats := getStats breaker in
             ret (stateOrClosed stats))
          breakers.

End FactoryQueries.

(** ** Further notions used in the statements *)

(** The factory keeps its registries in plain objects. A finite map
    describes such an object at every key that is not a property name
    inherited from [Object.prototype]; at those, [this.serviceBreakers[name]]
    finds the inherited property. *)
Definition inheritedKeys : list string :=
  [ "constructor"; "__proto__"; "hasOwnProperty"; "isPrototypeOf";
    "propertyIsEnumerable"; "toLocaleString"; "toString"; "valueOf";
    "__defineGetter__"; "__defineSetter__"; "__lookupGetter__"; "__lookupSetter__" ].

Definition plainName (name : string) : Prop := name ∉ inheritedKeys.

(** How many of the registered watchers of a key belong to [subscriber]. *)
Definition registrations (subscriber : string) (subscribers : list string) : nat :=
  length (filter (fun s => s = subscriber) subscribers).

(** A breaker in use: at any moment one of its operations may be called,
    joining those in flight, or one of those in flight may run its next
    stretch. *)
Inductive in_use (T : Type) (i : StoreImpl) (key : string) (opts : CircuitBreakerOptions)
    : World * list (Async unit) -> World * list (Async unit) -> Prop :=
| in_use_call w tasks (op : BreakerOp T) :
    in_use T i key opts (w, tasks) (w, tasks ++ [opTask i key opts op])
| in_use_resume s s' :
    resume s s' -> in_use T i key opts s s'.

(** Every stretch of an operation keeps the property [P] of the world. *)
Fixpoint stretches_keep {A} (P : World -> Prop) (t : Async A) : Prop :=
  match t with
  | Finished _ => True
  | Suspended next =>
      forall w, P w -> P (snd (next w)) /\ stretches_keep P (fst (next w))
  end.

(** The kinds of event that some [emit] of the breaker carries. The other
    three are declared in [CircuitBreakerEventType] only. *)
Definition emittable (ev : Event) : bool :=
  match ev with
  | success _ _ | timeout _ _ | rejected _ _ => false
  | _ => true
  end.

(** Every event in every breaker's log is of an emitted kind. *)
Definition only_emittable (w : World) : Prop :=
  forall k, Forall (fun ev => emittable ev = true) (emitted (local_of k w)).

(** Properties of the world kept by everything the breaker keyed [key] on
    store [i] does: the clock readings and symbols it draws, the thunks
    it invokes, the writes to its own record, the watches it registers, the
    events of the emitted kinds, and every update of its fields that adds
    nothing to [errorTimes] and leaves the event log alone. *)
Record Kept (i : StoreImpl) (key : string) (P : World -> Prop) : Prop := {
  kept_tick : forall n w, P w -> P (set_tick n w);
  kept_nextSymbol : forall n w, P w -> P (set_nextSymbol n w);
  kept_invocations : forall n w, P w -> P (set_invocations n w);
  kept_put : forall v w, P w -> P (putW i key v w);
  kept_watchers : forall m w, P w -> P (set_watchers m w);
  kept_deliver : forall ev w, emittable ev = true -> P w -> P (deliver key ev w);
  kept_update : forall f w,
    (forall l, errorTimes (f l) `sublist_of` errorTimes l /\ emitted (f l) = emitted l) ->
    P w -> P (updateLocal key f w);
}.

(** The [errorTimes] of the breaker keyed [k] hold nothing but entries of
    [times]. *)
Definition errorTimes_within (k : string) (times : list Z) (w : World) : Prop :=
  errorTimes (local_of k w) `sublist_of` times.

(** The record of service key [k] on store [i] is [v]. *)
Definition record_is (i : StoreImpl) (k : string) (v : option CircuitBreakerStats)
    (w : World) : Prop :=
  lookupW i k w = v.

(** A computation that always fulfils. *)
Definition settles {A} (m : M A) : Prop :=
  forall w, exists a w', m w = (Ok a, w').

(** The metrics a tick of the metrics timer computes at time [now] from
    the fields [l] of the breaker. *)
Definition metricsAt (now : Z) (l : Local) : CircuitBreakerMetrics :=
  let recentRequests := filter (fun time => now - 5000 < time) (requestTimes l) in
  let recentErrors := filter (fun time => now - 5000 < time) (errorTimes l) in
  let minuteRequests := filter (fun time => now - 60000 < time) (requestTimes l) in
  let minuteErrors := filter (fun time => now - 60000 < time) (errorTimes l) in
  {| Metrics.requestRate := (inject_Z (Z.of_nat (length recentRequests)) / 5)%Q;
     Metrics.errorRate := (inject_Z (Z.of_nat (length recentErrors)) / 5)%Q;
     Metrics.currentLoad := activeSize l;
     Metrics.averageResponseTime := calculateAverageResponseTime l;
     Metrics.lastMinuteStats :=
       {| Metrics.totalRequests := Z.of_nat (length minuteRequests);
          Metrics.successfulRequests :=
            Z.of_nat (length minuteRequests) - Z.of_nat (length minuteErrors);
          Metrics.failedRequests := Z.of_nat (length minuteErrors) |} |}.

(** [probe_breaker] in use: a failing call and a health check are called
    together and take turns, stretch by stretch, until both have ended. *)
Definition probe_calls : list (BreakerOp unit) :=
  [OpExecute (Rejects (ErrorObject "boom")); OpHealthCheck].

Definition probe_use : World * list (Async unit) :=
  schedule [0; 1; 0; 1; 0; 1; 0; 1; 0; 1; 0; 1; 0; 1; 0; 1; 0; 0; 0; 0; 0; 0; 0; 0]%nat
    (probe_world, opTask InMemory "payment-0" (options probe_breaker) <$> probe_calls).

(** The same with a call whose thunk outlasts the deadline. *)
Definition timeout_calls : list (BreakerOp unit) :=
  [OpExecute Outlasts; OpHealthCheck].

Definition timeout_use : World * list (Async unit) :=
  schedule [0; 1; 0; 1; 0; 1; 0; 1; 0; 1; 0; 1; 0; 1; 0; 1; 0; 0; 0; 0; 0; 0; 0; 0]%nat
    (probe_world, opTask InMemory "payment-0" (options probe_breaker) <$> timeout_calls).


(** ** Facts about the 32-bit operators *)

Section Int32Facts.
Import Int32.

Lemma ToInt32_range x : - 2^31 <= ToInt32 x < 2^31.
Proof. unfold ToInt32. pose proof (Z.mod_pos_bound (x + 2^31) (2^32)). lia. Qed.

Lemma ToInt32_small x : - 2^31 <= x < 2^31 -> ToInt32 x = x.
Proof. intros H. unfold ToInt32. rewrite Z.mod_small; lia. Qed.

Lemma ToInt32_idem x : ToInt32 (ToInt32 x) = ToInt32 x.
Proof. apply ToInt32_small, ToInt32_range. Qed.

Lemma ToInt32_congr x : ToInt32 x mod 2^32 = x mod 2^32.
Proof.
  unfold ToInt32.
  rewrite <- (Z.add_opp_r _ (2^31)), Zplus_mod_idemp_l.
  f_equal. lia.
Qed.

Lemma ToInt32_mod_eq x y : x mod 2^32 = y mod 2^32 -> ToInt32 x = ToInt32 y.
Proof.
  intros H. unfold ToInt32.
  rewrite <- (Zplus_mod_idemp_l x), <- (Zplus_mod_idemp_l y), H. reflexivity.
Qed.

Lemma ToInt32_wrap32 x : ToInt32 x = RoutingSpec.wrap32 x.
Proof.
  unfold ToInt32, RoutingSpec.wrap32.
  pose proof (Z.mod_pos_bound x (2^32) ltac:(lia)) as Hr.
  destruct (Z.ltb_spec (x mod 2^32) (2^31)) as [Hlt | Hge].
  - rewrite <- (Zplus_mod_idemp_l x).
    rewrite Z.mod_small; lia.
  - rewrite <- (Zplus_mod_idemp_l x).
    replace (x mod 2^32 + 2^31) with ((x mod 2^32 - 2^31) + 1 * 2^32) by lia.
    rewrite Z.mod_add by lia. rewrite Z.mod_small; lia.
Qed.

Lemma bitor_zero x : bitor x 0 = ToInt32 x.
Proof.
  unfold bitor. rewrite (ToInt32_small 0) by lia.
  rewrite Z.lor_0_r. apply ToInt32_idem.
Qed.

Lemma shl_5 x : shl x 5 = ToInt32 (x * 2^5).
Proof.
  unfold shl. change (Z.land 5 31) with 5.
  rewrite Z.shiftl_mul_pow2 by lia.
  apply ToInt32_mod_eq.
  rewrite <- Zmult_mod_idemp_l, ToInt32_congr, Zmult_mod_idemp_l. reflexivity.
Qed.

End Int32Facts.

Lemma hashStep_djb2 h c : hashStep h c = RoutingSpec.djb2_step h c.
Proof.
  unfold hashStep, RoutingSpec.djb2_step.
  rewrite bitor_zero, shl_5, <- ToInt32_wrap32.
  apply ToInt32_mod_eq.
  rewrite (Zplus_mod (_ - h)), (Zminus_mod (Int32.ToInt32 _)), ToInt32_congr.
  rewrite <- Zminus_mod, <- Zplus_mod. reflexivity.
Qed.

Lemma hashLoop_fold key : forall h, hashLoop h key = fold_left RoutingSpec.djb2_step key h.
Proof.
  induction key as [| c rest IH]; intros h; simpl; [reflexivity |].
  rewrite IH, hashStep_djb2. reflexivity.
Qed.

Lemma hashStep_range h c : - 2^31 <= hashStep h c < 2^31.
Proof. unfold hashStep. rewrite bitor_zero. apply ToInt32_range. Qed.

Lemma hashLoop_range key : forall h,
  - 2^31 <= h < 2^31 -> - 2^31 <= hashLoop h key < 2^31.
Proof.
  induction key as [| c rest IH]; intros h Hh; simpl; [exact Hh |].
  apply IH, hashStep_range.
Qed.

(** Every intermediate value of the loop body stays far inside the range
    in which double-precision arithmetic on integers is exact, so reading
    [-] and [+] as operations on [Z] loses nothing. *)
Lemma hashStep_exact h c :
  0 <= c < 2^16 -> - 2^31 <= h < 2^31 ->
  Z.abs ((Int32.shl h 5 - h) + c) < 2^53.
Proof.
  intros Hc Hh. pose proof (ToInt32_range (h * 2^5)) as Hs.
  rewrite shl_5. lia.
Qed.

(** [C5] The routing function of the source is the one the specification
    prescribes: for every key and every shard count [n >= 1] it returns
    [abs(h) mod n], where [h] is the djb2-style hash
    [h = ((h << 5) - h) + c_i] folded over the key's code units under
    32-bit wrap-around; and it is a function of [(key, n)] alone, so the
    same key with the same shard count always lands on the same shard. *)
Theorem getShardIdForKey_refines_routeKey (key : CodeUnits) (n : Z) :
  1 <= n ->
  getShardIdForKey key n = Finite (RoutingSpec.routeKey key n) /\
  (forall key' n', key' = key -> n' = n ->
     getShardIdForKey key' n' = getShardIdForKey key n).
Proof.
  intros Hn. split.
  - unfold getShardIdForKey, RoutingSpec.routeKey, RoutingSpec.djb2,
      Int32.rem, Int32.Math_abs.
    rewrite hashLoop_fold, decide_False by lia.
    f_equal. apply Z.rem_mod_nonneg; lia.
  - intros key' n' -> ->. reflexivity.
Qed.

Lemma getShardIdForKey_refines_routeKey_witness :
  1 <= 4 /\
  getShardIdForKey (charCodes "user-123") 4
    = Finite (RoutingSpec.routeKey (charCodes "user-123") 4).
Proof.
  split; [lia |].
  exact (proj1 (getShardIdForKey_refines_routeKey (charCodes "user-123") 4 ltac:(lia))).
Defined.

(** [C10] Routing is total and in range: for every key (the empty key,
    keys with a negative hash, and a key hashing to [-2^31] included) and
    every shard count [n >= 1] the result is a valid index [0 <= id < n]. *)
Theorem getShardIdForKey_in_range (key : CodeUnits) (n : Z) :
  1 <= n ->
  exists shardId, getShardIdForKey key n = Finite shardId /\ 0 <= shardId < n.
Proof.
  intros Hn. unfold getShardIdForKey, Int32.rem, Int32.Math_abs.
  rewrite decide_False by lia.
  eexists. split; [reflexivity |].
  rewrite Z.rem_mod_nonneg by lia.
  apply Z.mod_pos_bound. lia.
Qed.

Lemma getShardIdForKey_in_range_witness :
  1 <= 3 /\ exists shardId, getShardIdForKey [] 3 = Finite shardId /\ 0 <= shardId < 3.
Proof. split; [lia |]. apply (getShardIdForKey_in_range [] 3). lia. Defined.

(** ** Running monadic code *)

Lemma bind_Ok {A B} (m : M A) (k : A -> M B) w a w' :
  m w = (Ok a, w') -> bind m k w = k a w'.
Proof. intros H. unfold bind. rewrite H. reflexivity. Qed.

Lemma bind_Throw {A B} (m : M A) (k : A -> M B) w e w' :
  m w = (Throw e, w') -> bind m k w = (Throw e, w').
Proof. intros H. unfold bind. rewrite H. reflexivity. Qed.

Lemma bind_Pending {A B} (m : M A) (k : A -> M B) w w' :
  m w = (Pending, w') -> bind m k w = (Pending, w').
Proof. intros H. unfold bind. rewrite H. reflexivity. Qed.

Lemma try_catch_finally_Ok {A} (body : M A) handler fin w a w1 w2 :
  body w = (Ok a, w1) -> fin w1 = (Ok tt, w2) ->
  try_catch_finally body handler fin w = (Ok a, w2).
Proof. intros Hb Hf. unfold try_catch_finally. rewrite Hb, Hf. reflexivity. Qed.

Lemma try_catch_finally_Throw {A} (body : M A) handler fin w e e' w1 w2 w3 :
  body w = (Throw e, w1) -> handler e w1 = (Throw e', w2) -> fin w2 = (Ok tt, w3) ->
  try_catch_finally body handler fin w = (Throw e', w3).
Proof. intros Hb Hh Hf. unfold try_catch_finally. rewrite Hb, Hh, Hf. reflexivity. Qed.

Lemma try_catch_finally_Pending {A} (body : M A) handler fin w w1 :
  body w = (Pending, w1) ->
  try_catch_finally body handler fin w = (Pending, w1).
Proof. intros Hb. unfold try_catch_finally. rewrite Hb. reflexivity. Qed.

(** Rewrite the head of a [bind] with the run [H] of its first action. *)
Ltac run H := rewrite (bind_Ok _ _ _ _ _ H); cbn beta iota.

Lemma Date_now_run w :
  Date_now w = (Ok (clock w (tick w)), set_tick (S (tick w)) w).
Proof. reflexivity. Qed.

Lemma getLocal_run key w : getLocal key w = (Ok (local_of key w), w).
Proof. reflexivity. Qed.

Lemma emit_run key ev w : emit key ev w = (Ok tt, deliver key ev w).
Proof. reflexivity. Qed.

Lemma readMessage_run e w :
  nullish e = false -> readMessage e w = (Ok (message e), w).
Proof. destruct e; intros H; try discriminate H; reflexivity. Qed.

Lemma readMessage_nullish e w :
  nullish e = true ->
  exists text, readMessage e w = (Throw (ErrorObject text), w).
Proof. destruct e; intros H; try discriminate H; eexists; reflexivity. Qed.

Lemma modifyLocal_run key f w : modifyLocal key f w = (Ok tt, updateLocal key f w).
Proof. reflexivity. Qed.

Lemma local_of_updateLocal k k' f w :
  local_of k' (updateLocal k f w)
  = if decide (k = k') then f (local_of k w) else local_of k' w.
Proof.
  unfold local_of, updateLocal. cbn. rewrite lookup_insert.
  destruct (decide (k = k')); reflexivity.
Qed.

Lemma emitted_deliver key ev w :
  emitted (local_of key (deliver key ev w)) = emitted (local_of key w) ++ [ev].
Proof.
  unfold deliver. rewrite local_of_updateLocal, decide_True by done. reflexivity.
Qed.

(** ** What the two stores do *)

Section NotifyAll.
Import InMemoryStateStore.

Lemma notifyAll_cons sub subs v w :
  notifyAll (sub :: subs) v w = notifyAll subs v (deliver sub (stateUpdate v) w).
Proof. reflexivity. Qed.

Lemma notifyAll_shared subs v : forall w,
  kv (notifyAll subs v w) = kv w /\
  watchers (notifyAll subs v w) = watchers w /\
  clock (notifyAll subs v w) = clock w /\
  tick (notifyAll subs v w) = tick w /\
  nextSymbol (notifyAll subs v w) = nextSymbol w /\
  invocations (notifyAll subs v w) = invocations w.
Proof.
  induction subs as [| sub subs IH]; intros w; [done |].
  rewrite notifyAll_cons.
  destruct (IH (deliver sub (stateUpdate v) w)) as (-> & -> & -> & -> & -> & ->).
  done.
Qed.

End NotifyAll.

Section StoreRuns.
Variable i : StoreImpl.

Lemma getState_run k w : getState (store_of i) k w = (Ok (lookupW i k w), w).
Proof. destruct i; reflexivity. Qed.

Lemma setState_run k v w : setState (store_of i) k v w = (Ok tt, putW i k v w).
Proof. destruct i; reflexivity. Qed.

Lemma putW_shared k v w :
  kv (putW i k v w) = <[physKey i k := v]> (kv w) /\
  watchers (putW i k v w) = watchers w /\
  clock (putW i k v w) = clock w /\
  tick (putW i k v w) = tick w /\
  nextSymbol (putW i k v w) = nextSymbol w /\
  invocations (putW i k v w) = invocations w.
Proof.
  destruct i; cbn; [| done].
  destruct (notifyAll_shared (default [] (watchers w !! k)) v
              (set_kv (<[k := v]> (kv w)) w)) as (-> & -> & -> & -> & -> & ->).
  done.
Qed.

Lemma lookupW_putW k v w : lookupW i k (putW i k v w) = Some v.
Proof.
  unfold lookupW. destruct (putW_shared k v w) as (-> & _).
  apply lookup_insert_eq.
Qed.

Lemma tick_putW k v w : tick (putW i k v w) = tick w.
Proof. apply putW_shared. Qed.

Lemma clock_putW k v w : clock (putW i k v w) = clock w.
Proof. apply putW_shared. Qed.

Lemma invocations_putW k v w : invocations (putW i k v w) = invocations w.
Proof. apply putW_shared. Qed.

Lemma nextSymbol_putW k v w : nextSymbol (putW i k v w) = nextSymbol w.
Proof. apply putW_shared. Qed.

Lemma lookupW_deliver key k ev w : lookupW i key (deliver k ev w) = lookupW i key w.
Proof. reflexivity. Qed.

Lemma lookupW_updateLocal key k f w : lookupW i key (updateLocal k f w) = lookupW i key w.
Proof. reflexivity. Qed.

Lemma lookupW_set_tick key n w : lookupW i key (set_tick n w) = lookupW i key w.
Proof. reflexivity. Qed.

Lemma lookupW_set_invocations key n w :
  lookupW i key (set_invocations n w) = lookupW i key w.
Proof. reflexivity. Qed.

Lemma lookupW_set_nextSymbol key n w :
  lookupW i key (set_nextSymbol n w) = lookupW i key w.
Proof. reflexivity. Qed.

Lemma incrementFailureCount_present k w st :
  lookupW i k w = Some st ->
  incrementFailureCount (store_of i) k w
  = (Ok (failureCount st + 1),
     putW i k (incremented i (clock w (tick w)) st) (set_tick (S (tick w)) w)).
Proof.
  intros H. unfold lookupW in H. destruct i; cbn in *.
  - unfold InMemoryStateStore.incrementFailureCount, InMemoryStateStore.getState,
      bind, readKv.
    rewrite H. reflexivity.
  - unfold EtcdStateStore.incrementFailureCount, EtcdStateStore.getState,
      bind, readKv.
    rewrite H. reflexivity.
Qed.

End StoreRuns.

(** Push the projections of a world through store writes and events. *)
Ltac wsimpl :=
  repeat (progress (rewrite ?lookupW_putW, ?tick_putW, ?clock_putW, ?invocations_putW,
                      ?nextSymbol_putW, ?lookupW_deliver, ?lookupW_updateLocal,
                      ?lookupW_set_tick, ?lookupW_set_invocations,
                      ?lookupW_set_nextSymbol)).

(** ** What the breaker's operations do *)

Section BreakerRuns.
Variables (i : StoreImpl) (key : string) (opts : CircuitBreakerOptions).
Let b := mkBreaker key (store_of i) opts.

Lemma getStats_run w : getStats b w = (Ok (lookupW i key w), w).
Proof. apply getState_run. Qed.

Lemma updateStats_run stats upd w :
  updateStats b stats upd w
  = (Ok tt, putW i key (with_lastUpdateTime (Some (clock w (tick w))) (upd stats))
              (set_tick (S (tick w)) w)).
Proof. unfold updateStats, bind. cbn. apply setState_run. Qed.

(** *** Transitions *)

Lemma transitionToHalfOpen_run st w :
  lookupW i key w = Some st -> state st = OPEN ->
  transitionToHalfOpen b w = (Ok tt, afterHalfOpen i key st w).
Proof.
  intros Hst Hopen. unfold transitionToHalfOpen.
  run (getState_run i key w). cbn. rewrite Hst.
  rewrite decide_False by (intros H; apply H, Hopen).
  run (updateStats_run st (fun s => with_failedRequests (failedRequests st)
             (with_failureCount 0 (with_state HALF_OPEN s))) w).
  reflexivity.
Qed.

Lemma transitionToHalfOpen_skip w :
  (forall st, lookupW i key w = Some st -> state st <> OPEN) ->
  transitionToHalfOpen b w = (Ok tt, w).
Proof.
  intros Hst. unfold transitionToHalfOpen.
  run (getState_run i key w). cbn.
  destruct (lookupW i key w) as [st |]; [| reflexivity].
  rewrite decide_True by (apply Hst; reflexivity). reflexivity.
Qed.

Lemma transitionToOpen_run e st w :
  lookupW i key w = Some st -> state st <> OPEN -> nullish e = false ->
  transitionToOpen b e w
  = (Ok tt,
     deliver key (circuitOpen e)
       (deliver key (stateChange (state st) OPEN)
         (putW i key
            (opened (failureThreshold opts) (clock w (tick w)) (clock w (S (tick w))) e st)
            (set_tick (S (S (tick w))) w)))).
Proof.
  intros Hst Hne He. unfold transitionToOpen.
  run (getState_run i key w). cbn. rewrite Hst.
  rewrite decide_False by done.
  run (Date_now_run w).
  run (readMessage_run e (set_tick (S (tick w)) w) He).
  run (updateStats_run st (fun s => with_failureCount (failureThreshold opts)
        (with_lastError (message e)
           (with_lastFailureTime (Some (clock w (tick w)))
              (with_state OPEN s)))) (set_tick (S (tick w)) w)).
  reflexivity.
Qed.

Lemma transitionToOpen_skip e w :
  (forall st, lookupW i key w = Some st -> state st = OPEN) ->
  transitionToOpen b e w = (Ok tt, w).
Proof.
  intros Hst. unfold transitionToOpen.
  run (getState_run i key w). cbn.
  destruct (lookupW i key w) as [st |]; [| reflexivity].
  rewrite decide_True by (apply Hst; reflexivity). reflexivity.
Qed.

Lemma transitionToOpen_nullish e st w :
  lookupW i key w = Some st -> state st <> OPEN -> nullish e = true ->
  lookupW i key (snd (transitionToOpen b e w)) = lookupW i key w.
Proof.
  intros Hst Hne He. unfold transitionToOpen.
  run (getState_run i key w). cbn. rewrite Hst.
  rewrite decide_False by done.
  run (Date_now_run w).
  destruct (readMessage_nullish e (set_tick (S (tick w)) w) He) as [text Hread].
  rewrite (bind_Throw _ _ _ _ _ Hread). cbn [snd]. wsimpl. exact Hst.
Qed.

Lemma transitionToClosed_run st w :
  lookupW i key w = Some st -> state st <> CLOSED ->
  transitionToClosed b w
  = (Ok tt,
     deliver key (stateChange (state st) CLOSED)
       (putW i key (closed (clock w (tick w)) (clock w (S (tick w))) st)
          (set_tick (S (S (tick w))) w))).
Proof.
  intros Hst Hne. unfold transitionToClosed.
  run (getState_run i key w). cbn. rewrite Hst.
  rewrite decide_False by done.
  run (Date_now_run w).
  run (updateStats_run st (fun s => with_lastSuccessTime (Some (clock w (tick w)))
        (with_failedRequests 0 (with_failureCount 0 (with_state CLOSED s))))
        (set_tick (S (tick w)) w)).
  reflexivity.
Qed.

Lemma transitionToClosed_skip w :
  (forall st, lookupW i key w = Some st -> state st = CLOSED) ->
  transitionToClosed b w = (Ok tt, w).
Proof.
  intros Hst. unfold transitionToClosed.
  run (getState_run i key w). cbn.
  destruct (lookupW i key w) as [st |]; [| reflexivity].
  rewrite decide_True by (apply Hst; reflexivity). reflexivity.
Qed.

(** *** Accounting *)

Lemma recordSuccess_run st w :
  lookupW i key w = Some st ->
  recordSuccess b w
  = (Ok tt,
     putW i key (succeeded (clock w (tick w)) (clock w (S (tick w))) (local_of key w) st)
       (set_tick (S (S (tick w))) w)).
Proof.
  intros Hst. unfold recordSuccess.
  run (getState_run i key w). cbn. rewrite Hst.
  run (Date_now_run w).
  run (getLocal_run key (set_tick (S (tick w)) w)).
  rewrite updateStats_run. reflexivity.
Qed.

Lemma recordSuccess_skip w :
  lookupW i key w = None -> recordSuccess b w = (Ok tt, w).
Proof.
  intros Hst. unfold recordSuccess.
  run (getState_run i key w). cbn. rewrite Hst. reflexivity.
Qed.

Lemma recordFailure_skip e w :
  lookupW i key w = None -> recordFailure b e w = (Ok tt, w).
Proof.
  intros Hst. unfold recordFailure.
  run (getState_run i key w). cbn. rewrite Hst. reflexivity.
Qed.

Lemma recordFailure_run e st w :
  lookupW i key w = Some st -> nullish e = false ->
  recordFailure b e w
  = if decide (state st = HALF_OPEN \/ failureThreshold opts <= failureCount st + 1)
    then transitionToOpen b e (afterFailure i key e st w)
    else (Ok tt, afterFailure i key e st w).
Proof.
  intros Hst He. unfold recordFailure.
  run (getState_run i key w). cbn. rewrite Hst.
  run (incrementFailureCount_present i key w st Hst).
  set (w1 := putW i key _ _).
  run (readMessage_run e w1 He).
  run (Date_now_run w1).
  run (getLocal_run key (set_tick (S (tick w1)) w1)).
  rewrite (bind_Ok _ _ _ _ _ (updateStats_run _ _ _)).
  rewrite (bind_Ok _ _ _ _ _ (emit_run _ _ _)).
  destruct (decide _); reflexivity.
Qed.

Lemma recordFailure_nullish e st w :
  lookupW i key w = Some st -> nullish e = true ->
  exists text,
    recordFailure b e w
    = (Throw (ErrorObject text),
       putW i key (incremented i (clock w (tick w)) st) (set_tick (S (tick w)) w)).
Proof.
  intros Hst He. unfold recordFailure.
  run (getState_run i key w). cbn. rewrite Hst.
  run (incrementFailureCount_present i key w st Hst).
  set (w1 := putW i key _ _).
  destruct (readMessage_nullish e w1 He) as [text Hread].
  exists text. rewrite (bind_Throw _ _ _ _ _ Hread). reflexivity.
Qed.

Lemma lookupW_afterFailure e st w :
  lookupW i key (afterFailure i key e st w)
  = Some (failed (failureCount st + 1)
            (clock w (S (tick w))) (clock w (S (S (tick w))))
            (local_of key (putW i key (incremented i (clock w (tick w)) st)
                             (set_tick (S (tick w)) w))) e st).
Proof.
  unfold afterFailure. wsimpl. cbn. wsimpl. cbn.
  reflexivity.
Qed.

Lemma tick_afterFailure e st w :
  tick (afterFailure i key e st w) = S (S (S (tick w))) /\
  clock (afterFailure i key e st w) = clock w.
Proof.
  unfold afterFailure. cbn. wsimpl. cbn. wsimpl. done.
Qed.

End BreakerRuns.

(** ** Tripping the breaker *)

(** [X29] In CLOSED state, a call that fails with anything but
    [undefined] or [null], and whose [incrementFailureCount] returns a
    count at or above [failureThreshold], trips the breaker:
    [recordFailure], run with nothing in between, ends in
    [transitionToOpen], started in a world [w2], and the record persisted
    after it has [state = OPEN], [failureCount = failureThreshold],
    [lastFailureTime] equal to the clock reading the transition takes (the
    first one after [w2], which is the fourth since [recordFailure]
    began), and [lastError] equal to the failing error's message. The
    transition is announced by [stateChange CLOSED OPEN] and
    [circuitOpen]. *)
Theorem recordFailure_trips_breaker b e w st count w1 :
  source_store (stateStore b) ->
  fst (getStats b w) = Ok (Some st) ->
  state st = CLOSED ->
  incrementFailureCount (stateStore b) (serviceKey b) w = (Ok count, w1) ->
  failureThreshold (options b) <= count ->
  nullish e = false ->
  exists w2 w' st',
    recordFailure b e w = transitionToOpen b e w2 /\
    transitionToOpen b e w2 = (Ok tt, w') /\
    fst (getStats b w') = Ok (Some st') /\
    state st' = OPEN /\
    failureCount st' = failureThreshold (options b) /\
    lastFailureTime st' = Some (clock w2 (tick w2)) /\
    lastError st' = message e /\
    (exists evs, emitted (local_of (serviceKey b) w')
                 = evs ++ [stateChange CLOSED OPEN; circuitOpen e]) /\
    clock w2 = clock w /\ tick w2 = (3 + tick w)%nat.
Proof.
  intros [i Hs] Hget Hclosed Hinc Hthr He.
  destruct b as [key store opts]; cbn in *; subst store.
  rewrite getStats_run in Hget. cbn in Hget. injection Hget as Hst.
  rewrite (incrementFailureCount_present i key w st Hst) in Hinc.
  injection Hinc as <- <-.
  pose proof (recordFailure_run i key opts e st w Hst He) as Hrun.
  rewrite decide_True in Hrun by (right; exact Hthr).
  set (w2 := afterFailure i key e st w) in *.
  pose proof (lookupW_afterFailure i key e st w) as Hst2. fold w2 in Hst2.
  pose proof (transitionToOpen_run i key opts e _ w2 Hst2) as Hopen.
  cbn [state failed with_lastUpdateTime with_currentLoad with_averageResponseTime
       with_lastFailureTime with_failureCount with_lastError with_totalRequests
       with_failedRequests] in Hopen.
  rewrite Hclosed in Hopen. specialize (Hopen ltac:(done) He).
  eexists w2, _, _. split; [exact Hrun |]. split; [exact Hopen |].
  rewrite getStats_run. cbn [fst].
  wsimpl.
  split; [reflexivity |].
  repeat split.
  - rewrite !emitted_deliver, <- app_assoc. eexists. reflexivity.
  - apply tick_afterFailure.
  - apply tick_afterFailure.
Qed.

Lemma recordFailure_trips_breaker_witness :
  source_store (stateStore trip_breaker) /\
  fst (getStats trip_breaker trip_world)
    = Ok (Some (mkStats CLOSED 2 None None 2 0 2 None None None None None)) /\
  fst (incrementFailureCount (stateStore trip_breaker) (serviceKey trip_breaker) trip_world)
    = Ok 3 /\
  failureThreshold (options trip_breaker) <= 3 /\
  exists st',
    fst (getStats trip_breaker
           (snd (recordFailure trip_breaker (ErrorObject "boom") trip_world)))
      = Ok (Some st') /\
    state st' = OPEN /\ failureCount st' = 3 /\ lastError st' = Some "boom".
Proof.
  assert (Hs : source_store (stateStore trip_breaker)) by (exists InMemory; reflexivity).
  assert (Hthr : failureThreshold (options trip_breaker) <= 3) by (vm_compute; discriminate).
  split; [exact Hs |]. split; [vm_compute; reflexivity |].
  split; [vm_compute; reflexivity |]. split; [exact Hthr |].
  destruct (recordFailure_trips_breaker trip_breaker (ErrorObject "boom") trip_world
              (mkStats CLOSED 2 None None 2 0 2 None None None None None) 3
              (snd (incrementFailureCount (stateStore trip_breaker)
                      (serviceKey trip_breaker) trip_world))
              Hs ltac:(vm_compute; reflexivity) eq_refl
              ltac:(vm_compute; reflexivity) Hthr eq_refl)
    as (w2 & w' & st' & H1 & H2 & H3 & H4 & H5 & _ & H7 & _).
  exists st'. rewrite H1, H2. cbn [snd]. auto.
Defined.

(** [C1] A call that fails with [undefined] or [null] does not trip the
    breaker. In CLOSED state, with [incrementFailureCount] returning a
    count at or above [failureThreshold], [recordFailure] throws a
    [TypeError] at [error.message] (the [text] below) right after the
    store's increment: the world it leaves is the one the increment left,
    [w1], so that no [failure], [stateChange] or [circuitOpen] event is
    emitted and [transitionToOpen] is not reached. The persisted record
    has the failure count the store returned, at or above the threshold,
    and is still CLOSED. *)
Theorem nullish_rejection_leaves_breaker_closed b e w st count w1 :
  source_store (stateStore b) ->
  fst (getStats b w) = Ok (Some st) ->
  state st = CLOSED ->
  incrementFailureCount (stateStore b) (serviceKey b) w = (Ok count, w1) ->
  failureThreshold (options b) <= count ->
  nullish e = true ->
  exists text st',
    recordFailure b e w = (Throw (ErrorObject text), w1) /\
    fst (getStats b w1) = Ok (Some st') /\
    state st' = CLOSED /\
    failureCount st' = count /\
    failureThreshold (options b) <= failureCount st'.
Proof.
  intros [i Hs] Hget Hclosed Hinc Hthr He.
  destruct b as [key store opts]; cbn in *; subst store.
  rewrite getStats_run in Hget. cbn in Hget. injection Hget as Hst.
  rewrite (incrementFailureCount_present i key w st Hst) in Hinc.
  injection Hinc as <- <-.
  destruct (recordFailure_nullish i key opts e st w Hst He) as [text Hrun].
  exists text, (incremented i (clock w (tick w)) st).
  split; [exact Hrun |].
  rewrite getStats_run. cbn [fst]. wsimpl.
  split; [reflexivity |].
  destruct i; cbn; auto.
Qed.

(** The third failure in a row of a breaker with threshold 3, a thunk
    that rejects with [undefined]: the call fails with the [TypeError]
    instead of the thunk's rejection, the breaker stays CLOSED with three
    failures counted, and all it emits is the [metrics] event of the
    [finally] block. *)
Lemma nullish_rejection_leaves_breaker_closed_witness :
  source_store (stateStore trip_breaker) /\
  fst (getStats trip_breaker trip_world)
    = Ok (Some (mkStats CLOSED 2 None None 2 0 2 None None None None None)) /\
  fst (incrementFailureCount (stateStore trip_breaker) (serviceKey trip_breaker) trip_world)
    = Ok 3 /\
  failureThreshold (options trip_breaker) <= 3 /\
  (exists text st',
     fst (recordFailure trip_breaker Undefined trip_world) = Throw (ErrorObject text) /\
     fst (getStats trip_breaker (snd (recordFailure trip_breaker Undefined trip_world)))
       = Ok (Some st') /\
     state st' = CLOSED /\ failureCount st' = 3) /\
  (let after := execute trip_breaker (@Rejects unit Undefined) trip_world in
   fst after
     = Throw (ErrorObject "Cannot read properties of undefined (reading 'message')") /\
   state <$> kv (snd after) !! "payment-0" = Some CLOSED /\
   failureCount <$> kv (snd after) !! "payment-0" = Some 3 /\
   exists requestRate,
     emitted (local_of "payment-0" (snd after)) = [metricsCall requestRate 0 0 0]).
Proof.
  assert (Hs : source_store (stateStore trip_breaker)) by (exists InMemory; reflexivity).
  assert (Hthr : failureThreshold (options trip_breaker) <= 3) by (vm_compute; discriminate).
  split; [exact Hs |]. split; [vm_compute; reflexivity |].
  split; [vm_compute; reflexivity |]. split; [exact Hthr |].
  split.
  - destruct (nullish_rejection_leaves_breaker_closed trip_breaker Undefined trip_world
                (mkStats CLOSED 2 None None 2 0 2 None None None None None) 3
                (snd (incrementFailureCount (stateStore trip_breaker)
                        (serviceKey trip_breaker) trip_world))
                Hs ltac:(vm_compute; reflexivity) eq_refl
                ltac:(vm_compute; reflexivity) Hthr eq_refl)
      as (text & st' & H1 & H2 & H3 & H4 & _).
    exists text, st'. rewrite H1. cbn [fst snd]. auto.
  - vm_compute. repeat split. eexists. reflexivity.
Defined.

(** ** Admission *)

Section Admission.
Variables (i : StoreImpl) (key : string) (opts : CircuitBreakerOptions).
Let b := mkBreaker key (store_of i) opts.

Lemma execute_load_pass st w :
  lookupW i key w = Some st -> state st <> OPEN ->
  execute_load b w = (Ok st, w).
Proof.
  intros Hst Hne. unfold execute_load.
  run (getState_run i key w). cbn. rewrite Hst.
  unfold bind at 1. cbn.
  rewrite decide_False by done. reflexivity.
Qed.

Lemma execute_load_probe st w :
  lookupW i key w = Some st -> state st = OPEN ->
  resetTimeout opts <= clock w (tick w) - default 0 (lastFailureTime st) ->
  execute_load b w
  = (Ok (halfOpened (clock w (S (tick w))) st),
     afterHalfOpen i key st (set_tick (S (tick w)) w)).
Proof.
  intros Hst Hopen Hdue. unfold execute_load.
  run (getState_run i key w). cbn. rewrite Hst.
  unfold bind at 1. cbn.
  rewrite decide_True by done.
  run (Date_now_run w).
  rewrite decide_True by done.
  run (transitionToHalfOpen_run i key opts st (set_tick (S (tick w)) w) Hst Hopen).
  run (getState_run i key (afterHalfOpen i key st (set_tick (S (tick w)) w))).
  unfold afterHalfOpen. wsimpl. reflexivity.
Qed.

Lemma execute_load_reject st w :
  lookupW i key w = Some st -> state st = OPEN ->
  clock w (tick w) - default 0 (lastFailureTime st) < resetTimeout opts ->
  execute_load b w
  = (Throw (ErrorObject "Circuit breaker is OPEN"), set_tick (S (tick w)) w).
Proof.
  intros Hst Hopen Hearly. unfold execute_load.
  run (getState_run i key w). cbn. rewrite Hst.
  unfold bind at 1. cbn.
  rewrite decide_True by done.
  run (Date_now_run w).
  rewrite decide_False by lia. reflexivity.
Qed.

Lemma execute_enter_reject w :
  atCapacity b (local_of key w) = true ->
  execute_enter b w
  = (Throw (ErrorObject "Maximum concurrent requests exceeded"), w).
Proof.
  intros Hfull. unfold execute_enter.
  run (getLocal_run key w). cbn. rewrite Hfull. reflexivity.
Qed.

Lemma execute_enter_admit w :
  atCapacity b (local_of key w) = false ->
  execute_enter b w = (Ok (nextSymbol w, clock w (tick w)), entered key w).
Proof.
  intros Hfree. unfold execute_enter.
  run (getLocal_run key w). cbn. rewrite Hfree. reflexivity.
Qed.

Lemma performHealthCheck_probe st w :
  lookupW i key w = Some st -> state st = OPEN ->
  resetTimeout opts <= clock w (tick w) - default 0 (lastFailureTime st) ->
  performHealthCheck b w
  = (Ok tt, afterHalfOpen i key st (set_tick (S (tick w)) w)).
Proof.
  intros Hst Hopen Hdue. unfold performHealthCheck, try_catch.
  run (getState_run i key w). cbn. rewrite Hst.
  run (Date_now_run w).
  rewrite decide_True by done.
  unfold bind at 1.
  run (getState_run i key (set_tick (S (tick w)) w)). wsimpl. rewrite Hst. cbn.
  rewrite Hopen, decide_True by done.
  run (transitionToHalfOpen_run i key opts st (set_tick (S (tick w)) w) Hst Hopen).
  reflexivity.
Qed.

End Admission.

(** [C2] A breaker whose persisted state is OPEN and whose cool-down has
    elapsed ([now - lastFailureTime >= resetTimeout], [now] being the clock
    reading [execute] or the health check takes) moves to HALF_OPEN, both
    when [execute] is called and when a health-check tick runs. The record
    persisted by the transition has [state = HALF_OPEN] and
    [failureCount = 0]; [totalRequests], [successfulRequests] and
    [failedRequests] are those of the OPEN record. *)
Theorem open_becomes_half_open b w st :
  source_store (stateStore b) ->
  fst (getStats b w) = Ok (Some st) ->
  state st = OPEN ->
  resetTimeout (options b) <= clock w (tick w) - default 0 (lastFailureTime st) ->
  exists w' st',
    execute_load b w = (Ok st', w') /\
    (forall T (call : ServiceCall T),
       execute b call w
       = (let* admitted := execute_enter b in
          execute_request b st' (fst admitted) (snd admitted) call) w') /\
    performHealthCheck b w = (Ok tt, w') /\
    fst (getStats b w') = Ok (Some st') /\
    state st' = HALF_OPEN /\
    failureCount st' = 0 /\
    totalRequests st' = totalRequests st /\
    successfulRequests st' = successfulRequests st /\
    failedRequests st' = failedRequests st /\
    (exists evs, emitted (local_of (serviceKey b) w')
                 = evs ++ [stateChange OPEN HALF_OPEN]).
Proof.
  intros [i Hs] Hget Hopen Hdue.
  destruct b as [key store opts]; cbn in *; subst store.
  rewrite getStats_run in Hget. cbn in Hget. injection Hget as Hst.
  pose proof (execute_load_probe i key opts st w Hst Hopen Hdue) as Hload.
  eexists _, _. split; [exact Hload |].
  split.
  { intros T call. unfold execute. run Hload. reflexivity. }
  split; [apply performHealthCheck_probe; assumption |].
  rewrite getStats_run. cbn [fst]. unfold afterHalfOpen at 1. wsimpl.
  split; [reflexivity |].
  repeat split.
  unfold afterHalfOpen. rewrite emitted_deliver. eexists. reflexivity.
Qed.

Lemma open_becomes_half_open_witness :
  source_store (stateStore open_breaker) /\
  fst (getStats open_breaker open_world) = Ok (Some open_record) /\
  state open_record = OPEN /\
  resetTimeout (options open_breaker)
    <= clock open_world (tick open_world) - default 0 (lastFailureTime open_record) /\
  exists st',
    fst (getStats open_breaker (snd (performHealthCheck open_breaker open_world)))
      = Ok (Some st') /\
    state st' = HALF_OPEN /\ failureCount st' = 0.
Proof.
  assert (Hs : source_store (stateStore open_breaker)) by (exists Etcd; reflexivity).
  assert (Hdue : resetTimeout (options open_breaker)
                 <= clock open_world (tick open_world)
                    - default 0 (lastFailureTime open_record))
    by (vm_compute; discriminate).
  split; [exact Hs |]. split; [vm_compute; reflexivity |].
  split; [reflexivity |]. split; [exact Hdue |].
  destruct (open_becomes_half_open open_breaker open_world open_record
              Hs ltac:(vm_compute; reflexivity) eq_refl Hdue)
    as (w' & st' & _ & _ & H3 & H4 & H5 & H6 & _).
  exists st'. rewrite H3. cbn [snd]. auto.
Defined.

(** [C3] While the persisted state is OPEN and the cool-down has not
    elapsed, [execute] fails with the CircuitOpen error and does nothing
    else: the only trace it leaves is the clock reading it took. The thunk
    is not invoked, the store (hence every persisted counter and the state)
    is untouched, and no event is emitted. *)
Theorem execute_rejects_while_open {T} b (call : ServiceCall T) w st :
  source_store (stateStore b) ->
  fst (getStats b w) = Ok (Some st) ->
  state st = OPEN ->
  clock w (tick w) - default 0 (lastFailureTime st) < resetTimeout (options b) ->
  let w' := snd (execute b call w) in
  execute b call w = (Throw (ErrorObject "Circuit breaker is OPEN"), set_tick (S (tick w)) w) /\
  invocations w' = invocations w /\
  kv w' = kv w /\
  fst (getStats b w') = Ok (Some st) /\
  locals w' = locals w.
Proof.
  intros [i Hs] Hget Hopen Hearly.
  destruct b as [key store opts]; cbn in *; subst store.
  rewrite getStats_run in Hget. cbn in Hget. injection Hget as Hst.
  assert (Hexec : execute (mkBreaker key (store_of i) opts) call w
                  = (Throw (ErrorObject "Circuit breaker is OPEN"), set_tick (S (tick w)) w)).
  { unfold execute.
    apply bind_Throw. eapply execute_load_reject; eassumption. }
  rewrite Hexec. cbn [snd].
  split; [reflexivity |]. split; [reflexivity |]. split; [reflexivity |].
  split; [| reflexivity].
  rewrite getStats_run. cbn [fst]. wsimpl. rewrite Hst. reflexivity.
Qed.

Lemma execute_rejects_while_open_witness :
  source_store (stateStore open_breaker) /\
  fst (getStats open_breaker early_world) = Ok (Some open_record) /\
  state open_record = OPEN /\
  clock early_world (tick early_world) - default 0 (lastFailureTime open_record)
    < resetTimeout (options open_breaker) /\
  fst (execute open_breaker (Resolves tt) early_world)
    = Throw (ErrorObject "Circuit breaker is OPEN") /\
  invocations (snd (execute open_breaker (Resolves tt) early_world)) = 0%nat.
Proof.
  assert (Hs : source_store (stateStore open_breaker)) by (exists Etcd; reflexivity).
  assert (Hearly : clock early_world (tick early_world)
                     - default 0 (lastFailureTime open_record)
                   < resetTimeout (options open_breaker))
    by (vm_compute; reflexivity).
  split; [exact Hs |]. split; [vm_compute; reflexivity |].
  split; [reflexivity |]. split; [exact Hearly |].
  destruct (execute_rejects_while_open open_breaker (Resolves tt) early_world open_record
              Hs ltac:(vm_compute; reflexivity) eq_refl Hearly)
    as (H1 & H2 & _).
  split; [rewrite H1; reflexivity | exact H2].
Defined.

(** ** [incrementFailureCount] on a key the store does not hold *)

(** The in-memory store of the test suite gives up on an absent key: it
    returns 0 and writes nothing. *)
Lemma InMemory_does_not_materialize :
  ~ (forall s, source_store s -> materializes_absent_key s).
Proof.
  intros H.
  destruct (H InMemoryStateStore.store (ex_intro _ InMemory eq_refl)
              "payment-0" empty_world eq_refl)
    as (w' & st & Hrun & _).
  vm_compute in Hrun. discriminate Hrun.
Qed.

(** [C7, amended] On a key that is absent from the store,
    [EtcdStateStore.incrementFailureCount] materialises a fresh record with
    [failureCount = failedRequests = totalRequests = 1] and
    [state = CLOSED] (its [lastFailureTime] is the current time) and
    returns 1; [InMemoryStateStore.incrementFailureCount] returns 0 and
    leaves the world as it was. *)
Theorem incrementFailureCount_absent_key (i : StoreImpl) (key : string) (w : World) :
  fst (getState (store_of i) key w) = Ok None ->
  match i with
  | Etcd =>
      exists w' st,
        incrementFailureCount (store_of Etcd) key w = (Ok 1, w') /\
        fst (getState (store_of Etcd) key w') = Ok (Some st) /\
        failureCount st = 1 /\ failedRequests st = 1 /\ totalRequests st = 1 /\
        successfulRequests st = 0 /\
        state st = CLOSED /\
        lastFailureTime st = Some (clock w (tick w))
  | InMemory =>
      incrementFailureCount (store_of InMemory) key w = (Ok 0, w)
  end.
Proof.
  intros Habsent. rewrite getState_run in Habsent. cbn in Habsent.
  injection Habsent as Habsent. unfold lookupW in Habsent.
  destruct i; cbn in *.
  - unfold InMemoryStateStore.incrementFailureCount, InMemoryStateStore.getState,
      bind, readKv.
    rewrite Habsent. reflexivity.
  - unfold EtcdStateStore.incrementFailureCount, EtcdStateStore.getState,
      EtcdStateStore.setState, bind, readKv, writeKv.
    rewrite Habsent. cbn.
    eexists _, _. split; [reflexivity |].
    cbn. rewrite lookup_insert_eq. split; [reflexivity |]. cbn. repeat split.
Qed.

Lemma incrementFailureCount_absent_key_witness :
  fst (getState (store_of Etcd) "payment-0" empty_world) = Ok None /\
  fst (incrementFailureCount (store_of Etcd) "payment-0" empty_world) = Ok 1 /\
  fst (getState (store_of InMemory) "payment-0" empty_world) = Ok None /\
  fst (incrementFailureCount (store_of InMemory) "payment-0" empty_world) = Ok 0.
Proof.
  split; [reflexivity |]. split.
  - destruct (incrementFailureCount_absent_key Etcd "payment-0" empty_world eq_refl)
      as (w' & st & Hrun & _).
    rewrite Hrun. reflexivity.
  - split; [reflexivity |].
    rewrite (incrementFailureCount_absent_key InMemory "payment-0" empty_world eq_refl).
    reflexivity.
Defined.

(** ** Properties of the world that an operation keeps *)

Section Preservation.
Context {P : World -> Prop} (HP : Stable P).

Lemma preserves_ret {A} (a : A) : preserves P (ret a).
Proof. intros w r w' [= <- <-] H. exact H. Qed.

Lemma preserves_throw {A} e : preserves P (@throw A e).
Proof. intros w r w' [= <- <-] H. exact H. Qed.

Lemma preserves_pending {A} : preserves P (@pending A).
Proof. intros w r w' [= <- <-] H. exact H. Qed.

Lemma preserves_bind {A B} (m : M A) (k : A -> M B) :
  preserves P m -> (forall a, preserves P (k a)) -> preserves P (bind m k).
Proof.
  intros Hm Hk w r w' Hrun Hw. unfold bind in Hrun.
  destruct (m w) as [[a | e |] w1] eqn:Hmw.
  - eapply Hk; [exact Hrun |]. eapply Hm; eassumption.
  - injection Hrun as <- <-. eapply Hm; eassumption.
  - injection Hrun as <- <-. eapply Hm; eassumption.
Qed.

Lemma preserves_try_catch {A} (body : M A) handler :
  preserves P body -> (forall e, preserves P (handler e)) ->
  preserves P (try_catch body handler).
Proof.
  intros Hb Hh w r w' Hrun Hw. unfold try_catch in Hrun.
  destruct (body w) as [[a | e |] w1] eqn:Hbw.
  - injection Hrun as <- <-. eapply Hb; eassumption.
  - eapply Hh; [exact Hrun |]. eapply Hb; eassumption.
  - injection Hrun as <- <-. eapply Hb; eassumption.
Qed.

Lemma preserves_readMessage e : preserves P (readMessage e).
Proof. intros w r w' Hrun H. destruct e; inversion Hrun; subst; exact H. Qed.

Lemma preserves_Date_now : preserves P Date_now.
Proof.
  intros w r w' Hrun H. unfold Date_now in Hrun. inversion Hrun; subst.
  apply (stable_tick _ HP); assumption.
Qed.

Lemma preserves_Symbol : preserves P Symbol.
Proof.
  intros w r w' Hrun H. unfold Symbol in Hrun. inversion Hrun; subst.
  apply (stable_nextSymbol _ HP); assumption.
Qed.

Lemma preserves_getLocal k : preserves P (getLocal k).
Proof. intros w r w' [= <- <-] H. exact H. Qed.

Lemma preserves_emit k ev : is_rejected ev = false -> preserves P (emit k ev).
Proof.
  intros Hev w r w' Hrun H. unfold emit in Hrun. inversion Hrun; subst.
  apply (stable_deliver _ HP); assumption.
Qed.

Lemma preserves_modifyLocal k f :
  (forall l, activeRequests (f l) = activeRequests l /\ emitted (f l) = emitted l) ->
  preserves P (modifyLocal k f).
Proof.
  intros Hf w r w' Hrun H. unfold modifyLocal in Hrun. inversion Hrun; subst.
  apply (stable_update _ HP); assumption.
Qed.

Lemma stable_notifyAll subs v : forall w,
  P w -> P (InMemoryStateStore.notifyAll subs v w).
Proof.
  induction subs as [| sub subs IH]; intros w Hw; [exact Hw |].
  rewrite notifyAll_cons. apply IH, (stable_deliver _ HP); [reflexivity | exact Hw].
Qed.

Lemma stable_putW i k v w : P w -> P (putW i k v w).
Proof.
  intros Hw. destruct i; cbn.
  - apply stable_notifyAll, (stable_kv _ HP), Hw.
  - apply (stable_kv _ HP), Hw.
Qed.

Lemma preserves_getState i k : preserves P (getState (store_of i) k).
Proof.
  intros w r w' Hrun H. rewrite getState_run in Hrun. inversion Hrun; subst. exact H.
Qed.

Lemma preserves_setState i k v : preserves P (setState (store_of i) k v).
Proof.
  intros w r w' Hrun H. rewrite setState_run in Hrun. inversion Hrun; subst.
  apply stable_putW, H.
Qed.

Lemma preserves_incrementFailureCount i k :
  preserves P (incrementFailureCount (store_of i) k).
Proof.
  intros w r w' Hrun H.
  destruct (lookupW i k w) as [st |] eqn:Hst.
  - rewrite (incrementFailureCount_present i k w st Hst) in Hrun.
    inversion Hrun; subst. apply stable_putW, (stable_tick _ HP), H.
  - unfold lookupW in Hst.
    destruct i; cbn in *.
    + unfold InMemoryStateStore.incrementFailureCount, InMemoryStateStore.getState,
        bind, readKv in Hrun.
      rewrite Hst in Hrun. inversion Hrun; subst. exact H.
    + unfold EtcdStateStore.incrementFailureCount, EtcdStateStore.getState,
        EtcdStateStore.setState, bind, readKv, writeKv in Hrun.
      rewrite Hst in Hrun. cbn in Hrun. inversion Hrun; subst.
      apply (stable_kv _ HP), (stable_tick _ HP), H.
Qed.

Lemma preserves_watchState i k sub : preserves P (watchState (store_of i) k sub).
Proof.
  intros w r w' Hrun H. destruct i; cbn in Hrun; inversion Hrun; subst;
    apply (stable_watchers _ HP), H.
Qed.

End Preservation.

Ltac pres_step HP :=
  first
    [ apply preserves_ret
    | apply preserves_throw
    | apply preserves_pending
    | apply preserves_readMessage
    | apply (preserves_Date_now HP)
    | apply (preserves_Symbol HP)
    | apply preserves_getLocal
    | apply (preserves_getState)
    | apply (preserves_setState HP)
    | apply (preserves_incrementFailureCount HP)
    | apply (preserves_watchState HP)
    | apply (preserves_emit HP); reflexivity
    | apply (preserves_modifyLocal HP); intros ?; split; reflexivity
    | apply preserves_bind; [| intros ?]
    | apply preserves_try_catch; [| intros ?]
    | match goal with
      | |- preserves _ (match ?x with _ => _ end) => destruct x
      | |- preserves _ (if ?c then _ else _) => destruct c
      end
    | assumption ].

Ltac pres HP := cbv zeta; repeat pres_step HP.

Section BreakerPreservation.
Context {P : World -> Prop} (HP : Stable P).
Variables (i : StoreImpl) (key : string) (opts : CircuitBreakerOptions).
Let b := mkBreaker key (store_of i) opts.

Lemma preserves_initializeState : preserves P (initializeState b).
Proof. unfold initializeState. pres HP. Qed.

Lemma preserves_updateStats st upd : preserves P (updateStats b st upd).
Proof. unfold updateStats. pres HP. Qed.

Lemma preserves_transitionToHalfOpen : preserves P (transitionToHalfOpen b).
Proof. unfold transitionToHalfOpen. pres HP. all: apply preserves_updateStats. Qed.

Lemma preserves_transitionToOpen e : preserves P (transitionToOpen b e).
Proof. unfold transitionToOpen. pres HP. all: apply preserves_updateStats. Qed.

Lemma preserves_transitionToClosed : preserves P (transitionToClosed b).
Proof. unfold transitionToClosed. pres HP. all: apply preserves_updateStats. Qed.

Lemma preserves_recordResponseTime t : preserves P (recordResponseTime b t).
Proof. unfold recordResponseTime. pres HP. Qed.

Lemma preserves_recordSuccess : preserves P (recordSuccess b).
Proof. unfold recordSuccess. pres HP. all: apply preserves_updateStats. Qed.

Lemma preserves_recordFailure e : preserves P (recordFailure b e).
Proof.
  unfold recordFailure. pres HP.
  all: first [apply preserves_updateStats | apply preserves_transitionToOpen].
Qed.

Lemma preserves_updateMetrics : preserves P (updateMetrics b).
Proof. unfold updateMetrics. pres HP. Qed.

Lemma preserves_watchStateChanges : preserves P (watchStateChanges b).
Proof. unfold watchStateChanges. pres HP. Qed.

Lemma preserves_performHealthCheck : preserves P (performHealthCheck b).
Proof.
  unfold performHealthCheck. pres HP.
  all: apply preserves_transitionToHalfOpen.
Qed.

Lemma preserves_nonNull st : preserves P (nonNull st).
Proof. unfold nonNull. pres HP. Qed.

Lemma preserves_execute_load : preserves P (execute_load b).
Proof.
  unfold execute_load. pres HP.
  all: first [apply preserves_initializeState | apply preserves_nonNull
             | apply preserves_transitionToHalfOpen].
Qed.

Lemma preserves_init : preserves P (init b).
Proof.
  unfold init. pres HP.
  all: first [apply preserves_initializeState | apply preserves_updateMetrics
             | apply preserves_watchStateChanges | apply preserves_performHealthCheck].
Qed.

(** Everything a request does between its admission and its [finally]
    block, for properties that do not depend on the invocation count. *)
Lemma preserves_request_body {T} st start (call : ServiceCall T) :
  (forall n w, P w -> P (set_invocations n w)) ->
  preserves P
    (try_catch
       (let* result := race b call in
        let* finished := Date_now in
        recordResponseTime b (finished - start) ;;;
        recordSuccess b ;;;
        (if decide (state st = HALF_OPEN) then transitionToClosed b else ret tt) ;;;
        ret result)
       (fun error => recordFailure b error ;;; throw error)).
Proof.
  intros Hinv. pres HP.
  all: first [ apply preserves_recordResponseTime | apply preserves_recordSuccess
             | apply preserves_transitionToClosed | apply preserves_recordFailure
             | idtac ].
  unfold race. pres HP.
  intros w r w' Hrun Hw. inversion Hrun; subst. apply Hinv, Hw.
Qed.

End BreakerPreservation.

Lemma try_catch_finally_split {A} (body : M A) handler fin w :
  try_catch_finally body handler fin w
  = match try_catch body handler w with
    | (Pending, w') => (Pending, w')
    | (r, w') =>
        match fin w' with
        | (Ok _, w'') => (r, w'')
        | (Throw e, w'') => (Throw e, w'')
        | (Pending, w'') => (Pending, w'')
        end
    end.
Proof. reflexivity. Qed.

(** ** The in-flight set *)

Lemma active_is_stable key ids : Stable (active_is key ids).
Proof.
  split; try (intros; assumption).
  - intros k ev w _ Hw. unfold active_is, deliver in *.
    rewrite local_of_updateLocal. destruct (decide (k = key)) as [-> |]; exact Hw.
  - intros k f w Hf Hw. unfold active_is in *.
    rewrite local_of_updateLocal. destruct (decide (k = key)) as [-> |]; [| exact Hw].
    destruct (Hf (local_of key w)) as [-> _]. exact Hw.
Qed.

Lemma invoked_is_stable n : Stable (invoked_is n).
Proof. split; intros; assumption. Qed.

Lemma active_entered key w :
  activeRequests (local_of key (entered key w))
  = {[nextSymbol w]} ∪ activeRequests (local_of key w).
Proof.
  unfold entered. cbv zeta.
  rewrite local_of_updateLocal, decide_True by done. cbn [activeRequests set_requestTimes].
  change (local_of key (set_tick ?n ?w0)) with (local_of key w0).
  rewrite local_of_updateLocal, decide_True by done. reflexivity.
Qed.

Lemma active_released key requestId w :
  activeRequests (local_of key (released key requestId w))
  = activeRequests (local_of key w) ∖ {[requestId]}.
Proof.
  unfold released, deliver. cbv zeta.
  rewrite local_of_updateLocal, decide_True by done. cbn [activeRequests set_emitted].
  rewrite local_of_updateLocal, decide_True by done. reflexivity.
Qed.

Lemma invocations_entered key w : invocations (entered key w) = invocations w.
Proof. reflexivity. Qed.

Section ActiveSet.
Variables (i : StoreImpl) (key : string) (opts : CircuitBreakerOptions).
Let b := mkBreaker key (store_of i) opts.

Lemma execute_enter_cases w :
  (atCapacity b (local_of key w) = true /\
   execute_enter b w = (Throw (ErrorObject "Maximum concurrent requests exceeded"), w))
  \/
  (atCapacity b (local_of key w) = false /\
   execute_enter b w = (Ok (nextSymbol w, clock w (tick w)), entered key w)).
Proof.
  destruct (atCapacity b (local_of key w)) eqn:Hcap.
  - left. split; [reflexivity |]. apply execute_enter_reject, Hcap.
  - right. split; [reflexivity |]. apply execute_enter_admit, Hcap.
Qed.

Lemma finally_run requestId w :
  (modifyLocal key (fun l => set_activeRequests (activeRequests l ∖ {[requestId]}) l) ;;;
   let* l := getLocal key in
   emit key (metricsCall (calculateRequestRate l) (calculateErrorRate l)
                         (calculateAverageResponseTime l) (activeSize l))) w
  = (Ok tt, released key requestId w).
Proof. reflexivity. Qed.

(** A request that settles gives its slot back; one that never settles
    keeps it. Nothing else happens to the in-flight set. *)
Lemma execute_request_active {T} st requestId start (call : ServiceCall T) w r w' :
  execute_request b st requestId start call w = (r, w') ->
  (r <> Pending /\
   activeRequests (local_of key w') = activeRequests (local_of key w) ∖ {[requestId]})
  \/ (r = Pending /\ activeRequests (local_of key w') = activeRequests (local_of key w)).
Proof.
  intros Hrun. unfold execute_request in Hrun.
  rewrite try_catch_finally_split in Hrun. cbv zeta in Hrun.
  match type of Hrun with
  | context [try_catch ?body ?handler w] =>
      destruct (try_catch body handler w) as [r1 w1] eqn:Hbody
  end.
  assert (Hkeep : activeRequests (local_of key w1) = activeRequests (local_of key w)).
  { exact (preserves_request_body
             (active_is_stable key (activeRequests (local_of key w)))
             i key opts st start call (fun _ _ H => H) w r1 w1 Hbody eq_refl). }
  destruct r1 as [a | e |].
  - rewrite finally_run in Hrun. inversion Hrun; subst. left.
    split; [discriminate |]. rewrite active_released, Hkeep. reflexivity.
  - rewrite finally_run in Hrun. inversion Hrun; subst. left.
    split; [discriminate |]. rewrite active_released, Hkeep. reflexivity.
  - inversion Hrun; subst. right. split; [reflexivity | exact Hkeep].
Qed.

End ActiveSet.

Section Capacity.
Variables (i : StoreImpl) (key : string) (opts : CircuitBreakerOptions).
Let b := mkBreaker key (store_of i) opts.

Lemma initializeState_run w :
  lookupW i key w = None ->
  exists st, state st = CLOSED /\
    initializeState b w = (Ok tt, putW i key st (set_tick (S (S (tick w))) w)).
Proof.
  intros Hnone. unfold initializeState.
  run (getState_run i key w). cbn. rewrite Hnone.
  run (Date_now_run w).
  run (Date_now_run (set_tick (S (tick w)) w)).
  rewrite setState_run. eexists. split; [| reflexivity]. reflexivity.
Qed.

(** The circuit check either lets the call through or rejects it with
    the CircuitOpen error; it never hangs. *)
Lemma execute_load_cases w :
  exists w1,
    execute_load b w = (Throw (ErrorObject "Circuit breaker is OPEN"), w1)
    \/ exists st, execute_load b w = (Ok st, w1).
Proof.
  destruct (lookupW i key w) as [st |] eqn:Hst.
  - destruct (decide (state st = OPEN)) as [Hopen | Hne].
    + destruct (decide (resetTimeout opts
                        <= clock w (tick w) - default 0 (lastFailureTime st))) as [Hdue | Hearly].
      * eexists. right. eexists. eapply execute_load_probe; eassumption.
      * eexists. left. eapply execute_load_reject; [eassumption | assumption | lia].
    + eexists. right. eexists. eapply execute_load_pass; eassumption.
  - destruct (initializeState_run w Hst) as (st & Hclosed & Hinit).
    eexists. right. exists st.
    unfold execute_load.
    run (getState_run i key w). cbn. rewrite Hst.
    unfold bind at 1.
    run Hinit.
    run (getState_run i key (putW i key st (set_tick (S (S (tick w))) w))).
    wsimpl. cbn.
    rewrite decide_False by (rewrite Hclosed; discriminate). reflexivity.
Qed.

Lemma atCapacity_true m l :
  maxConcurrent opts = Some m -> m <= activeSize l -> atCapacity b l = true.
Proof.
  intros Hm Hfull. unfold atCapacity. cbn. rewrite Hm.
  apply bool_decide_eq_true_2, Hfull.
Qed.

Lemma atCapacity_false m l :
  maxConcurrent opts = Some m -> atCapacity b l = false -> activeSize l < m.
Proof.
  intros Hm Hfree. unfold atCapacity in Hfree. cbn in Hfree. rewrite Hm in Hfree.
  apply bool_decide_eq_false_1 in Hfree. lia.
Qed.

(** A call that arrives while the breaker is at capacity is turned away
    before the thunk is invoked and without entering the in-flight set:
    with the Overloaded error once it is past the circuit check, with the
    CircuitOpen error when the circuit check already rejected it. *)
Lemma execute_at_capacity {T} m (call : ServiceCall T) w :
  maxConcurrent opts = Some m ->
  m <= activeSize (local_of key w) ->
  exists w',
    invocations w' = invocations w /\
    activeRequests (local_of key w') = activeRequests (local_of key w) /\
    ((exists st, execute_load b w = (Ok st, w') /\
        execute b call w
        = (Throw (ErrorObject "Maximum concurrent requests exceeded"), w'))
     \/ (execute_load b w = (Throw (ErrorObject "Circuit breaker is OPEN"), w') /\
         execute b call w = (Throw (ErrorObject "Circuit breaker is OPEN"), w'))).
Proof.
  intros Hm Hfull.
  destruct (execute_load_cases w) as (w1 & [Hload | (st & Hload)]).
  all: pose proof (preserves_execute_load (invoked_is_stable (invocations w))
                     i key opts w _ _ Hload eq_refl) as Hinv.
  all: pose proof (preserves_execute_load
                     (active_is_stable key (activeRequests (local_of key w)))
                     i key opts w _ _ Hload eq_refl) as Hact.
  all: exists w1; split; [exact Hinv |]; split; [exact Hact |].
  - right. split; [exact Hload |]. unfold execute. apply bind_Throw, Hload.
  - left. exists st. split; [exact Hload |]. unfold execute. run Hload.
    apply bind_Throw, execute_enter_reject.
    apply (atCapacity_true m); [exact Hm |].
    unfold activeSize in *. unfold active_is in Hact. rewrite Hact. exact Hfull.
Qed.

(** What one step of the system does to the in-flight set: nothing is
    ever added except the id of the call [execute_enter] admits, which
    happens only below capacity. *)
Lemma step_active {T} (s1 s2 : System T) :
  step b s1 s2 ->
  activeRequests (local_of key (world s2)) ⊆ activeRequests (local_of key (world s1))
  \/ exists requestId startTime,
       execute_enter b (world s1) = (Ok (requestId, startTime), world s2) /\
       atCapacity b (local_of key (world s1)) = false /\
       activeRequests (local_of key (world s2))
       = {[requestId]} ∪ activeRequests (local_of key (world s1)).
Proof.
  intros Hstep.
  destruct Hstep as [s call r w' Hrun | s before st call after r w' Hwait Hrun
                    | s before st requestId start call after r w' Hrunning Hrun
                    | s r w' Hrun | s r w' Hrun | s records]; cbn [world].
  - left.
    rewrite (preserves_execute_load
               (active_is_stable key (activeRequests (local_of key (world s))))
               i key opts _ _ _ Hrun eq_refl).
    reflexivity.
  - destruct (execute_enter_cases i key opts (world s)) as [[Hcap Hrej] | [Hcap Hadm]].
    + left. fold b in Hrej. rewrite Hrun in Hrej. inversion Hrej; subst. reflexivity.
    + right. fold b in Hadm. rewrite Hrun in Hadm. inversion Hadm; subst.
      eexists _, _. split; [exact Hrun |]. split; [exact Hcap |].
      apply active_entered.
  - left.
    destruct (execute_request_active i key opts st requestId start call _ _ _ Hrun)
      as [[_ ->] | [_ ->]]; [apply subseteq_difference_l |]; reflexivity.
  - left.
    rewrite (preserves_performHealthCheck
               (active_is_stable key (activeRequests (local_of key (world s))))
               i key opts _ _ _ Hrun eq_refl).
    reflexivity.
  - left.
    rewrite (preserves_updateMetrics
               (active_is_stable key (activeRequests (local_of key (world s))))
               i key opts _ _ _ Hrun eq_refl).
    reflexivity.
  - left. reflexivity.
Qed.

End Capacity.

(** [C4] The in-flight set of a breaker never holds more than
    [maxConcurrent] requests, whatever the interleaving of calls, ticks and
    writes of other processes. A call that finds
    [activeRequests.size >= maxConcurrent] at the concurrency check fails
    with the Overloaded error, the thunk is not invoked and the in-flight
    set is left alone (a breaker that is OPEN inside its cool-down has
    already rejected the call with the CircuitOpen error one check earlier,
    with the same two guarantees). Only a call admitted by that check is
    ever added to the in-flight set. *)
Theorem active_requests_bounded {T} b m (s0 s : System T) :
  source_store (stateStore b) ->
  maxConcurrent (options b) = Some m ->
  activeSize (local_of (serviceKey b) (world s0)) <= m ->
  rtc (step b) s0 s ->
  activeSize (local_of (serviceKey b) (world s)) <= m /\
  (forall w, m <= activeSize (local_of (serviceKey b) w) ->
     execute_enter b w = (Throw (ErrorObject "Maximum concurrent requests exceeded"), w) /\
     forall call : ServiceCall T,
     exists w',
       invocations w' = invocations w /\
       active b w' = active b w /\
       ((exists st, execute_load b w = (Ok st, w') /\
           execute b call w
           = (Throw (ErrorObject "Maximum concurrent requests exceeded"), w'))
        \/ (execute_load b w = (Throw (ErrorObject "Circuit breaker is OPEN"), w') /\
            execute b call w = (Throw (ErrorObject "Circuit breaker is OPEN"), w')))) /\
  (forall s1 s2 : System T, step b s1 s2 ->
     active b (world s2) ⊆ active b (world s1)
     \/ exists requestId startTime,
          execute_enter b (world s1) = (Ok (requestId, startTime), world s2) /\
          activeSize (local_of (serviceKey b) (world s1)) < m /\
          active b (world s2) = {[requestId]} ∪ active b (world s1)).
Proof.
  intros [i Hs] Hm Hinit Hreach.
  destruct b as [key store opts]; cbn in *; subst store.
  assert (Hstep : forall s1 s2 : System T,
            step (mkBreaker key (store_of i) opts) s1 s2 ->
            activeRequests (local_of key (world s2)) ⊆ activeRequests (local_of key (world s1))
            \/ exists requestId startTime,
                 execute_enter (mkBreaker key (store_of i) opts) (world s1)
                 = (Ok (requestId, startTime), world s2) /\
                 activeSize (local_of key (world s1)) < m /\
                 activeRequests (local_of key (world s2))
                 = {[requestId]} ∪ activeRequests (local_of key (world s1))).
  { intros s1 s2 Hstep.
    destruct (step_active i key opts s1 s2 Hstep) as [Hsub | (id & start & Hrun & Hcap & Hadd)].
    - left. exact Hsub.
    - right. exists id, start. split; [exact Hrun |]. split; [| exact Hadd].
      apply (atCapacity_false i key opts m); assumption. }
  split; [| split].
  - induction Hreach as [s | s1 s2 s3 Hstep12 Hrest IH]; [exact Hinit |].
    apply IH.
    destruct (Hstep s1 s2 Hstep12) as [Hsub | (id & start & _ & Hlt & Hadd)].
    + apply subseteq_size in Hsub. unfold activeSize in *. lia.
    + unfold activeSize in *. rewrite Hadd.
      pose proof (size_union_alt (C:=gset nat) {[id]} (activeRequests (local_of key (world s1)))) as Hsz.
      rewrite size_singleton in Hsz.
      assert (Hle : (size (activeRequests (local_of key (world s1)) ∖ {[id]})
                     <= size (activeRequests (local_of key (world s1))))%nat)
        by (apply subseteq_size, subseteq_difference_l; reflexivity).
      lia.
  - intros w Hfull. split.
    + apply execute_enter_reject, (atCapacity_true i key opts m); assumption.
    + intros call. apply (execute_at_capacity i key opts m); assumption.
  - exact Hstep.
Qed.

Lemma cap_run : rtc (step cap_breaker) cap_start cap_admitted.
Proof.
  apply (rtc_l _ _ cap_loaded).
  - apply (step_load cap_breaker cap_start (Resolves tt)
             (fst (execute_load cap_breaker (world cap_start)))
             (snd (execute_load cap_breaker (world cap_start)))).
    apply surjective_pairing.
  - apply rtc_once.
    apply (step_enter cap_breaker cap_loaded [] cap_record (Resolves tt) []
             (fst (execute_enter cap_breaker (world cap_loaded)))
             (snd (execute_enter cap_breaker (world cap_loaded)))).
    + vm_compute. reflexivity.
    + apply surjective_pairing.
Defined.

Lemma active_requests_bounded_witness :
  source_store (stateStore cap_breaker) /\
  maxConcurrent (options cap_breaker) = Some 1 /\
  activeSize (local_of (serviceKey cap_breaker) (world cap_start)) <= 1 /\
  rtc (step cap_breaker) cap_start cap_admitted /\
  active cap_breaker (world cap_admitted) = {[0%nat]} /\
  activeSize (local_of (serviceKey cap_breaker) (world cap_admitted)) <= 1.
Proof.
  assert (Hs : source_store (stateStore cap_breaker)) by (exists InMemory; reflexivity).
  assert (H0 : activeSize (local_of (serviceKey cap_breaker) (world cap_start)) <= 1)
    by (vm_compute; discriminate).
  split; [exact Hs |]. split; [reflexivity |]. split; [exact H0 |].
  split; [exact cap_run |]. split; [vm_compute; reflexivity |].
  exact (proj1 (active_requests_bounded cap_breaker 1 cap_start cap_admitted
                  Hs eq_refl H0 cap_run)).
Defined.

(** ** Operations cut at their [await]s *)

Section AsyncFacts.

Lemma Async_induction {A} (P : Async A -> Prop) :
  (forall r, P (Finished r)) ->
  (forall next, (forall w, P (fst (next w))) -> P (Suspended next)) ->
  forall t, P t.
Proof.
  intros HF HS. fix IH 1. intros [r | next]; [apply HF |].
  apply HS. intros w. apply IH.
Qed.

Lemma runAlone_first_stretch {A} (t : Async A) w :
  runAlone t w = runAlone (fst (first_stretch t w)) (snd (first_stretch t w)).
Proof. destruct t as [r | next]; cbn; [reflexivity |]. destruct (next w); reflexivity. Qed.

Lemma runAlone_await {A} (m : M A) w : runAlone (await m) w = m w.
Proof. cbn. destruct (m w) as [r w']. reflexivity. Qed.

Lemma runAlone_sync {A B} (m : M A) (k : A -> Async B) w :
  runAlone (sync m k) w = bind m (fun a => runAlone (k a)) w.
Proof.
  unfold bind. cbn. destruct (m w) as [[a | e |] w']; try reflexivity.
  rewrite (runAlone_first_stretch (k a) w').
  destruct (first_stretch (k a) w'); reflexivity.
Qed.

Lemma runAlone_abind {A B} (t : Async A) (k : A -> Async B) : forall w,
  runAlone (abind t k) w = bind (runAlone t) (fun a => runAlone (k a)) w.
Proof.
  induction t as [[a | e |] | next IH] using Async_induction; intros w; try reflexivity.
  cbn. unfold bind. cbn. specialize (IH w).
  destruct (next w) as [rest w']. cbn in IH. rewrite IH. reflexivity.
Qed.

Lemma runAlone_discard {A} (t : Async A) w :
  snd (runAlone (discard t) w) = snd (runAlone t w).
Proof.
  unfold discard. rewrite runAlone_abind. unfold bind.
  destruct (runAlone t w) as [[a | e |] w']; reflexivity.
Qed.

Lemma runAlone_try_catchA {A} (body : Async A) handler : forall w,
  runAlone (try_catchA body handler) w
  = try_catch (runAlone body) (fun e => runAlone (handler e)) w.
Proof.
  induction body as [[a | e |] | next IH] using Async_induction; intros w; try reflexivity.
  cbn. unfold try_catch. cbn. specialize (IH w).
  destruct (next w) as [rest w']. cbn in IH.
  destruct rest as [[a | e |] | next']; try reflexivity.
  - cbn. rewrite (runAlone_first_stretch (handler e) w').
    destruct (first_stretch (handler e) w'); reflexivity.
  - apply IH.
Qed.

Lemma runAlone_settle_finally {A} (r : Result A) fin w :
  runAlone (fst (settle_finally r fin w)) (snd (settle_finally r fin w))
  = match r with
    | Pending => (Pending, w)
    | _ => match fin w with
           | (Ok _, w') => (r, w')
           | (Throw e, w') => (Throw e, w')
           | (Pending, w') => (Pending, w')
           end
    end.
Proof.
  destruct r as [a | e |]; cbn; try reflexivity.
  all: destruct (fin w) as [[[] | e' |] w']; reflexivity.
Qed.

Lemma runAlone_finallyA {A} (t : Async A) fin : forall w,
  runAlone (finallyA t fin) w
  = match runAlone t w with
    | (Pending, w') => (Pending, w')
    | (r, w') =>
        match fin w' with
        | (Ok _, w'') => (r, w'')
        | (Throw e, w'') => (Throw e, w'')
        | (Pending, w'') => (Pending, w'')
        end
    end.
Proof.
  induction t as [r | next IH] using Async_induction; intros w.
  - cbn [finallyA runAlone].
    destruct (settle_finally r fin w) as [rest w'] eqn:Hs.
    pose proof (runAlone_settle_finally r fin w) as H. rewrite Hs in H. cbn in H.
    rewrite H. destruct r; reflexivity.
  - cbn. specialize (IH w). destruct (next w) as [rest w']. cbn in IH.
    destruct rest as [r | next'].
    + destruct (settle_finally r fin w') as [rest' w''] eqn:Hs.
      pose proof (runAlone_settle_finally r fin w') as H. rewrite Hs in H. cbn in H.
      rewrite H. cbn. destruct r; reflexivity.
    + apply IH.
Qed.

(** [try { body } catch { handler } finally { fin }] run alone. *)
Lemma runAlone_try_catch_finallyA {A} (body : Async A) handler fin w :
  runAlone (finallyA (try_catchA body handler) fin) w
  = try_catch_finally (runAlone body) (fun e => runAlone (handler e)) fin w.
Proof.
  rewrite runAlone_finallyA, runAlone_try_catchA.
  unfold try_catch_finally, try_catch.
  destruct (runAlone body w) as [[a | e |] w1]; try reflexivity.
Qed.

Lemma resume_inv s s' :
  resume s s' ->
  exists w before next after rest w',
    s = (w, before ++ Suspended next :: after) /\
    s' = (w', before ++ rest :: after) /\
    next w = (rest, w').
Proof. intros [w before next after rest w' Hnext]. eauto 10. Qed.

(** An operation that is alone in flight runs as [runAlone] says. *)
Lemma alone_run (t : Async unit) w w' r :
  rtc resume (w, [t]) (w', [Finished r]) -> runAlone t w = (r, w').
Proof.
  intros Hrun.
  remember (w, [t]) as s eqn:Hs. remember (w', [Finished r]) as s' eqn:Hs'.
  revert t w Hs. induction Hrun as [s | s1 s2 s3 Hstep Hrest IH]; intros t w Hs.
  - assert (w' = w /\ t = Finished r) as [-> ->] by (split; congruence).
    reflexivity.
  - apply resume_inv in Hstep
      as (w0 & before & next & after & rest & w1 & Hs1 & Hs2 & Hnext).
    rewrite Hs in Hs1. injection Hs1 as <- Hpool.
    destruct before as [| x before]; cbn in Hpool.
    + injection Hpool as -> <-. cbn. rewrite Hnext.
      apply IH; [exact Hs' | exact Hs2].
    + injection Hpool as _ Hb. destruct before; discriminate Hb.
Qed.

End AsyncFacts.

(** *** Run alone, the cut operations are the operations *)

Lemma bind_ext {A B} (m m' : M A) (k k' : A -> M B) w :
  m w = m' w -> (forall a w1, k a w1 = k' a w1) -> bind m k w = bind m' k' w.
Proof.
  intros Hm Hk. unfold bind. rewrite Hm.
  destruct (m' w) as [[a | e |] w1]; [apply Hk | reflexivity | reflexivity].
Qed.

Lemma bind_assoc {A B C} (m : M A) (k : A -> M B) (k' : B -> M C) w :
  bind (bind m k) k' w = bind m (fun a => bind (k a) k') w.
Proof. unfold bind. destruct (m w) as [[a | e |] w1]; reflexivity. Qed.

Lemma bind_ret_tt (m : M unit) w : bind m (fun _ w1 => (Ok tt, w1)) w = m w.
Proof. unfold bind. destruct (m w) as [[[] | e |] w1]; reflexivity. Qed.

Lemma try_catch_ext {A} (body body' : M A) handler handler' w :
  body w = body' w -> (forall e w1, handler e w1 = handler' e w1) ->
  try_catch body handler w = try_catch body' handler' w.
Proof.
  intros Hb Hh. unfold try_catch. rewrite Hb.
  destruct (body' w) as [[a | e |] w1]; [reflexivity | apply Hh | reflexivity].
Qed.

Lemma try_catch_finally_ext {A} (body body' : M A) handler handler' fin w :
  body w = body' w -> (forall e w1, handler e w1 = handler' e w1) ->
  try_catch_finally body handler fin w = try_catch_finally body' handler' fin w.
Proof.
  intros Hb Hh. unfold try_catch_finally. rewrite Hb.
  destruct (body' w) as [[a | e |] w1]; [reflexivity | rewrite Hh | reflexivity].
  reflexivity.
Qed.

Ltac alone_step :=
  first
    [ reflexivity
    | apply runAlone_await
    | rewrite runAlone_abind; apply bind_ext; [| intros ? ?]
    | rewrite runAlone_sync; apply bind_ret_tt
    | rewrite runAlone_sync; apply bind_ext; [reflexivity | intros ? ?]
    | match goal with
      | |- context [match ?x with _ => _ end] => destruct x
      end ].

Ltac alone := cbv zeta; repeat alone_step.

Lemma runAlone_incrementFailureCountA i key w :
  runAlone (incrementFailureCountA i key) w = incrementFailureCount (store_of i) key w.
Proof.
  destruct i; cbn [incrementFailureCountA store_of incrementFailureCount].
  - unfold InMemoryStateStore.incrementFailureCountA,
      InMemoryStateStore.incrementFailureCount. alone.
  - unfold EtcdStateStore.incrementFailureCountA,
      EtcdStateStore.incrementFailureCount. alone.
Qed.

Section AloneBreaker.
Variables (i : StoreImpl) (key : string) (opts : CircuitBreakerOptions).
Let b := breakerOn i key opts.

Lemma runAlone_initializeStateA w :
  runAlone (initializeStateA i key) w = initializeState b w.
Proof. unfold initializeStateA, initializeState. alone. Qed.

Lemma runAlone_updateStatsA st upd w :
  runAlone (updateStatsA i key opts st upd) w = updateStats b st upd w.
Proof. apply runAlone_await. Qed.

Lemma runAlone_transitionToHalfOpenA w :
  runAlone (transitionToHalfOpenA i key opts) w = transitionToHalfOpen b w.
Proof. unfold transitionToHalfOpenA, transitionToHalfOpen. alone. Qed.

Lemma runAlone_transitionToOpenA e w :
  runAlone (transitionToOpenA i key opts e) w = transitionToOpen b e w.
Proof. unfold transitionToOpenA, transitionToOpen. alone. Qed.

Lemma runAlone_transitionToClosedA w :
  runAlone (transitionToClosedA i key opts) w = transitionToClosed b w.
Proof. unfold transitionToClosedA, transitionToClosed. alone. Qed.

Lemma runAlone_recordSuccessA w :
  runAlone (recordSuccessA i key opts) w = recordSuccess b w.
Proof. unfold recordSuccessA, recordSuccess. alone. Qed.

Lemma runAlone_recordFailureA e w :
  runAlone (recordFailureA i key opts e) w = recordFailure b e w.
Proof.
  unfold recordFailureA, recordFailure, b, breakerOn.
  cbn [options serviceKey stateStore]. alone.
  - apply runAlone_incrementFailureCountA.
  - apply runAlone_transitionToOpenA.
Qed.

Lemma runAlone_performHealthCheckA w :
  runAlone (performHealthCheckA i key opts) w = performHealthCheck b w.
Proof.
  unfold performHealthCheckA, performHealthCheck, b, breakerOn.
  cbn [options serviceKey stateStore].
  rewrite runAlone_try_catchA. apply try_catch_ext; [| reflexivity].
  rewrite runAlone_abind. apply bind_ext; [apply runAlone_await |].
  intros [stats |] w1; [| reflexivity].
  rewrite runAlone_sync. apply bind_ext; [reflexivity |]. intros now w2. cbv zeta.
  destruct (decide (state stats = OPEN /\
                    resetTimeout opts <= now - default 0 (lastFailureTime stats))).
  - rewrite runAlone_abind, bind_assoc.
    apply bind_ext; [apply runAlone_await |].
    intros currentStats w3.
    destruct (decide (state <$> currentStats = Some OPEN)).
    + rewrite runAlone_transitionToHalfOpenA.
      unfold bind, b, breakerOn.
      destruct (transitionToHalfOpen _ w3) as [[[] | err |] w4]; reflexivity.
    + unfold bind at 1. cbn [ret]. alone.
  - unfold bind at 1. cbn [ret]. alone.
Qed.

Lemma runAlone_execute_loadA w :
  runAlone (execute_loadA i key opts) w = execute_load b w.
Proof.
  unfold execute_loadA, execute_load, b, breakerOn.
  cbn [options serviceKey stateStore]. alone.
  all: try apply runAlone_initializeStateA.
  all: try apply runAlone_transitionToHalfOpenA.
  all: match goal with |- runAlone (nonNullA ?r) _ = _ => destruct r; reflexivity end.
Qed.

Lemma runAlone_execute_requestA {T} st requestId start (call : ServiceCall T) w :
  runAlone (execute_requestA i key opts st requestId start call) w
  = execute_request b st requestId start call w.
Proof.
  unfold execute_requestA, execute_request.
  rewrite runAlone_try_catch_finallyA.
  apply try_catch_finally_ext.
  - alone.
    + apply runAlone_recordSuccessA.
    + apply runAlone_transitionToClosedA.
  - intros e w1. alone. apply runAlone_recordFailureA.
Qed.

Lemma runAlone_executeA {T} (call : ServiceCall T) w :
  runAlone (executeA i key opts call) w = execute b call w.
Proof.
  unfold executeA, execute. alone.
  - apply runAlone_execute_loadA.
  - apply runAlone_execute_requestA.
Qed.

End AloneBreaker.

(** ** Lifetime totals *)

(** Whatever order the turns are taken in, it is a run of the operations
    in flight. *)
Lemma resumeAt_run n s : rtc resume s (resumeAt n s).
Proof.
  destruct s as [w tasks]. unfold resumeAt. cbn [fst snd].
  destruct (tasks !! n) as [[r | next] |] eqn:Hn; try reflexivity.
  destruct (next w) as [rest w'] eqn:Hnext.
  apply rtc_once.
  rewrite <- (take_drop_middle tasks n (Suspended next) Hn) at 1.
  rewrite insert_take_drop by (eapply lookup_lt_Some; exact Hn).
  apply resume_stretch, Hnext.
Qed.

Lemma schedule_run turns : forall s, rtc resume s (schedule turns s).
Proof.
  induction turns as [| n turns IH]; intros s; [reflexivity |].
  cbn. etrans; [apply resumeAt_run | apply IH].
Qed.

(** An operation alone in flight runs to its end. *)
Lemma run_alone (t : Async unit) : forall w,
  rtc resume (w, [t]) (snd (runAlone t w), [Finished (fst (runAlone t w))]).
Proof.
  induction t as [r | next IH] using Async_induction; intros w; [reflexivity |].
  cbn [runAlone]. specialize (IH w).
  destruct (next w) as [rest w'] eqn:Hnext. cbn [fst] in IH.
  eapply rtc_l; [| apply IH].
  apply (resume_stretch w [] next [] rest w' Hnext).
Qed.

(** The totals do go down, in two ways. A successful
    probe, alone in flight, resets [failedRequests] from 3 to 0 as it
    closes the circuit. And of two calls in flight together, the failing
    one, in the store's [incrementFailureCount], overwrites the record
    with one built from what it read before the successful one had
    accounted for itself: [totalRequests] and [successfulRequests] fall
    from 1 to 0. *)
Lemma counters_not_monotone :
  (exists st',
     fst (getStats probe_breaker
            (snd (runAlone (opTask InMemory "payment-0" (options probe_breaker)
                              (OpExecute (Resolves tt))) probe_world)))
       = Ok (Some st') /\
     failedRequests probe_record = 3 /\ failedRequests st' = 0 /\ state st' = CLOSED) /\
  (exists st st',
     rtc resume (quiet_world, overlapping_calls) overlap_earlier /\
     rtc resume overlap_earlier overlap_later /\
     fst (getStats trip_breaker (fst overlap_earlier)) = Ok (Some st) /\
     fst (getStats trip_breaker (fst overlap_later)) = Ok (Some st') /\
     totalRequests st = 1 /\ successfulRequests st = 1 /\
     totalRequests st' = 0 /\ successfulRequests st' = 0) /\
  ~ counters_monotone.
Proof.
  assert (Hclose : exists st',
     fst (getStats probe_breaker
            (snd (runAlone (opTask InMemory "payment-0" (options probe_breaker)
                              (OpExecute (Resolves tt))) probe_world)))
       = Ok (Some st') /\
     failedRequests probe_record = 3 /\ failedRequests st' = 0 /\ state st' = CLOSED).
  { eexists. split; [vm_compute; reflexivity |]. repeat split. }
  split; [exact Hclose |]. split.
  - eexists _, _.
    split; [apply schedule_run |]. split; [apply schedule_run |].
    split; [vm_compute; reflexivity |]. split; [vm_compute; reflexivity |].
    repeat split.
  - intros H. destruct Hclose as (st' & Hst' & _ & Hzero & _).
    destruct (H InMemory "payment-0" (options probe_breaker) [OpExecute (Resolves tt)]
                probe_world (probe_world, [opTask InMemory "payment-0" (options probe_breaker)
                                             (OpExecute (Resolves tt))])
                (snd (runAlone (opTask InMemory "payment-0" (options probe_breaker)
                                  (OpExecute (Resolves tt))) probe_world), _)
                probe_record st' (rtc_refl _ _) (run_alone _ _) eq_refl Hst')
      as (_ & _ & Hfailed).
    rewrite Hzero in Hfailed. vm_compute in Hfailed. apply Hfailed. reflexivity.
Qed.

Lemma totals_kept_refl st : totals_kept st st.
Proof. unfold totals_kept. lia. Qed.

Section Totals.
Variables (i : StoreImpl) (key : string) (opts : CircuitBreakerOptions).
Let b := mkBreaker key (store_of i) opts.

Lemma recordFailure_totals e st w :
  lookupW i key w = Some st ->
  exists r w' st',
    recordFailure b e w = (r, w') /\
    r <> Pending /\
    lookupW i key w' = Some st' /\
    totalRequests st <= totalRequests st' /\
    successfulRequests st' = successfulRequests st /\
    failedRequests st <= failedRequests st'.
Proof.
  intros Hst.
  destruct (nullish e) eqn:He.
  { destruct (recordFailure_nullish i key opts e st w Hst He) as [text Hrun].
    eexists _, _, _. split; [exact Hrun |]. split; [discriminate |].
    wsimpl. split; [reflexivity |]. destruct i; cbn; lia. }
  pose proof (recordFailure_run i key opts e st w Hst He) as Hrun.
  pose proof (lookupW_afterFailure i key e st w) as Hafter.
  destruct (decide (state st = HALF_OPEN \/ failureThreshold opts <= failureCount st + 1))
    as [Htrip | Hkeep].
  - destruct (decide (state st = OPEN)) as [Hopen | Hne].
    + rewrite transitionToOpen_skip in Hrun.
      * eexists _, _, _. split; [exact Hrun |]. split; [discriminate |].
        split; [exact Hafter |]. cbn. lia.
      * intros st2 Hst2. rewrite Hafter in Hst2. inversion Hst2; subst. exact Hopen.
    + rewrite (transitionToOpen_run i key opts e _ _ Hafter) in Hrun by done.
      eexists _, _, _. split; [exact Hrun |]. split; [discriminate |].
      wsimpl. split; [reflexivity |]. cbn. lia.
  - eexists _, _, _. split; [exact Hrun |]. split; [discriminate |].
    split; [exact Hafter |]. cbn. lia.
Qed.

Lemma performHealthCheck_refresh st w :
  lookupW i key w = Some st ->
  ~ (state st = OPEN /\
     resetTimeout opts <= clock w (tick w) - default 0 (lastFailureTime st)) ->
  exists st',
    performHealthCheck b w
    = (Ok tt, deliver key (healthCheck st') (putW i key st' (set_tick (S (tick w)) w))) /\
    totalRequests st' = totalRequests st /\
    successfulRequests st' = successfulRequests st /\
    failedRequests st' = failedRequests st /\
    state st' = state st.
Proof.
  intros Hst Hnot. unfold performHealthCheck, try_catch.
  run (getState_run i key w). cbn. rewrite Hst.
  run (Date_now_run w).
  rewrite decide_False by exact Hnot.
  unfold bind at 1. cbn.
  eexists. split.
  - rewrite (bind_Ok _ _ _ _ _ (setState_run i key _ _)).
    rewrite emit_run. reflexivity.
  - cbn. auto.
Qed.

Lemma updateMetrics_lookupW w :
  lookupW i key (snd (updateMetrics b w)) = lookupW i key w.
Proof.
  unfold updateMetrics, bind, Date_now, getLocal, modifyLocal, emit. cbn.
  destruct (decide _); reflexivity.
Qed.

Lemma race_resolves {T} (v : T) w :
  race b (Resolves v) w = (Ok v, set_invocations (S (invocations w)) w).
Proof. reflexivity. Qed.

Lemma race_rejects {T} e w :
  race b (@Rejects T e) w = (Throw e, set_invocations (S (invocations w)) w).
Proof. reflexivity. Qed.

Lemma race_timeout {T} w :
  0 < serviceTimeout opts ->
  race b (@Outlasts T) w
  = (Throw (ErrorObject "Service timeout"), set_invocations (S (invocations w)) w).
Proof.
  intros Htimer. unfold race, bind. cbn. rewrite decide_True by exact Htimer. reflexivity.
Qed.

Lemma race_hangs {T} w :
  ~ 0 < serviceTimeout opts ->
  race b (@Outlasts T) w = (Pending, set_invocations (S (invocations w)) w).
Proof.
  intros Htimer. unfold race, bind. cbn. rewrite decide_False by exact Htimer. reflexivity.
Qed.

Lemma request_failure_totals {T} (body : M T) e st requestId w w0 :
  body w = (Throw e, w0) ->
  lookupW i key w0 = Some st ->
  exists st',
    lookupW i key
      (snd (try_catch_finally body
              (fun error => recordFailure b error ;;; throw error)
              (modifyLocal key
                 (fun l => set_activeRequests (activeRequests l ∖ {[requestId]}) l) ;;;
               let* l := getLocal key in
               emit key (metricsCall (calculateRequestRate l) (calculateErrorRate l)
                           (calculateAverageResponseTime l) (activeSize l))) w))
    = Some st' /\
    totalRequests st <= totalRequests st' /\
    successfulRequests st <= successfulRequests st' /\
    failedRequests st <= failedRequests st'.
Proof.
  intros Hbody Hw.
  destruct (recordFailure_totals e st w0 Hw)
    as (r & w1 & st1 & Hrun & Hr & Hst1 & Ht & Hs & Hf).
  exists st1.
  assert (exists e', (recordFailure b e ;;; throw e) w0 = (@Throw T e', w1)) as [e' Hh].
  { unfold bind. rewrite Hrun. destruct r as [[] | e' |]; [eexists .. | done]; reflexivity. }
  erewrite try_catch_finally_Throw.
  2: exact Hbody.
  2: exact Hh.
  2: apply finally_run.
  cbn [snd]. unfold released. cbv zeta. wsimpl. split; [exact Hst1 |]. lia.
Qed.

Lemma execute_request_totals {T} st requestId start (call : ServiceCall T) w :
  lookupW i key w = Some st ->
  exists st',
    lookupW i key (snd (execute_request b st requestId start call w)) = Some st' /\
    totalRequests st <= totalRequests st' /\
    successfulRequests st <= successfulRequests st' /\
    (failedRequests st <= failedRequests st'
     \/ (state st = HALF_OPEN /\ state st' = CLOSED /\ failedRequests st' = 0)).
Proof.
  intros Hst.
  unfold execute_request. change (serviceKey b) with key.
  destruct call as [v | e |].
  - (* the thunk resolves *)
    set (w1 := set_invocations (S (invocations w)) w).
    set (w2 := updateLocal key
                 (fun l => set_responseTimes (responseTimes l ++ [clock w1 (tick w1) - start]) l)
                 (set_tick (S (tick w1)) w1)).
    assert (Hw2 : lookupW i key w2 = Some st) by exact Hst.
    pose proof (recordSuccess_run i key opts st w2 Hw2) as Hsucc.
    set (w3 := putW i key _ _) in Hsucc.
    assert (Hw3 : lookupW i key w3
                  = Some (succeeded (clock w2 (tick w2)) (clock w2 (S (tick w2)))
                            (local_of key w2) st))
      by (unfold w3; wsimpl; reflexivity).
    destruct (decide (state st = HALF_OPEN)) as [Hhalf | Hother].
    + pose proof (transitionToClosed_run i key opts _ w3 Hw3) as Hclose.
      cbn [state succeeded with_lastUpdateTime with_currentLoad with_averageResponseTime
           with_lastSuccessTime with_totalRequests with_successfulRequests] in Hclose.
      rewrite Hhalf in Hclose. specialize (Hclose ltac:(discriminate)).
      eexists.
      erewrite try_catch_finally_Ok.
      2: { run (race_resolves v w). run (Date_now_run w1).
           unfold recordResponseTime.
           rewrite (bind_Ok _ _ _ _ _ (modifyLocal_run _ _ _)).
           run Hsucc. run Hclose. reflexivity. }
      2: apply finally_run.
      cbn [snd]. unfold released. cbv zeta. wsimpl.
      split; [reflexivity |]. cbn. split; [lia |]. split; [lia |].
      right. auto.
    + eexists.
      erewrite try_catch_finally_Ok.
      2: { run (race_resolves v w). run (Date_now_run w1).
           unfold recordResponseTime.
           rewrite (bind_Ok _ _ _ _ _ (modifyLocal_run _ _ _)).
           run Hsucc. unfold bind at 1. cbn. reflexivity. }
      2: apply finally_run.
      cbn [snd]. unfold released. cbv zeta. wsimpl.
      split; [exact Hw3 |]. cbn. lia.
  - (* the thunk rejects *)
    destruct (request_failure_totals
                (let* result := race b (@Rejects T e) in
                 let* finished := Date_now in
                 recordResponseTime b (finished - start) ;;;
                 recordSuccess b ;;;
                 (if decide (state st = HALF_OPEN) then transitionToClosed b else ret tt) ;;;
                 ret result)
                e st requestId w (set_invocations (S (invocations w)) w))
      as (st' & Hst' & Ht & Hs & Hf).
    + apply bind_Throw, race_rejects.
    + exact Hst.
    + exists st'. split; [exact Hst' |]. lia.
  - (* the thunk outlasts the deadline *)
    destruct (decide (0 < serviceTimeout opts)) as [Htimer | Hnone].
    + destruct (request_failure_totals
                (let* result := race b (@Outlasts T) in
                 let* finished := Date_now in
                 recordResponseTime b (finished - start) ;;;
                 recordSuccess b ;;;
                 (if decide (state st = HALF_OPEN) then transitionToClosed b else ret tt) ;;;
                 ret result)
                (ErrorObject "Service timeout") st requestId w
                (set_invocations (S (invocations w)) w))
        as (st' & Hst' & Ht & Hs & Hf).
      * apply bind_Throw, race_timeout, Htimer.
      * exact Hst.
      * exists st'. split; [exact Hst' |]. lia.
    + exists st.
      erewrite try_catch_finally_Pending.
      2: { apply bind_Pending, race_hangs, Hnone. }
      cbn [snd]. split; [exact Hst |]. lia.
Qed.

Lemma admitted_totals {T} st (call : ServiceCall T) w :
  lookupW i key w = Some st ->
  exists st',
    lookupW i key
      (snd ((let* admitted := execute_enter b in
             execute_request b st (fst admitted) (snd admitted) call) w))
    = Some st' /\
    totalRequests st <= totalRequests st' /\
    successfulRequests st <= successfulRequests st' /\
    (failedRequests st <= failedRequests st'
     \/ (state st = HALF_OPEN /\ state st' = CLOSED /\ failedRequests st' = 0)).
Proof.
  intros Hst.
  destruct (execute_enter_cases i key opts w) as [[_ Hrej] | [_ Hadm]].
  - exists st. rewrite (bind_Throw _ _ _ _ _ Hrej). cbn [snd].
    split; [exact Hst |]. lia.
  - run Hadm. cbn [fst snd].
    apply execute_request_totals. exact Hst.
Qed.

Lemma execute_totals {T} st (call : ServiceCall T) w :
  lookupW i key w = Some st ->
  exists st',
    lookupW i key (snd (execute b call w)) = Some st' /\ totals_kept st st'.
Proof.
  intros Hst. unfold execute.
  destruct (decide (state st = OPEN)) as [Hopen | Hne].
  - destruct (decide (resetTimeout opts
                      <= clock w (tick w) - default 0 (lastFailureTime st))) as [Hdue | Hearly].
    + run (execute_load_probe i key opts st w Hst Hopen Hdue).
      destruct (admitted_totals (halfOpened (clock w (S (tick w))) st) call
                  (afterHalfOpen i key st (set_tick (S (tick w)) w)))
        as (st' & Hst' & Ht & Hs & Hf).
      { unfold afterHalfOpen. wsimpl. reflexivity. }
      exists st'. split; [exact Hst' |].
      cbn in Ht, Hs, Hf. unfold totals_kept. rewrite Hopen.
      split; [exact Ht |]. split; [exact Hs |].
      destruct Hf as [Hf | (_ & Hclosed & Hzero)]; [left; exact Hf |].
      right. split; [discriminate |]. auto.
    + rewrite (bind_Throw _ _ _ _ _
                 (execute_load_reject i key opts st w Hst Hopen ltac:(lia))).
      exists st. cbn [snd]. wsimpl. split; [exact Hst | apply totals_kept_refl].
  - run (execute_load_pass i key opts st w Hst Hne).
    destruct (admitted_totals st call w Hst) as (st' & Hst' & Ht & Hs & Hf).
    exists st'. split; [exact Hst' |].
    unfold totals_kept. split; [exact Ht |]. split; [exact Hs |].
    destruct Hf as [Hf | (Hhalf & Hclosed & Hzero)]; [left; exact Hf |].
    right. rewrite Hhalf. split; [discriminate |]. auto.
Qed.

End Totals.

(** [C6, amended] An operation of the breaker that is alone in flight
    from its call to its end (a call through [execute] with any outcome, a
    health-check or metrics tick, each state transition, the success and
    failure accounting), started in a world in which the key has a record,
    leaves a record whose [totalRequests] and [successfulRequests] are at
    least what they were; [failedRequests] is at least what it was too,
    except that the transition into CLOSED ([transitionToClosed], reached
    by a successful probe) resets it to 0. What operations in flight
    together do to the totals is not stated. *)
Theorem totals_survive_every_operation {T} i key opts (op : BreakerOp T) w w' r st :
  fst (getStats (breakerOn i key opts) w) = Ok (Some st) ->
  rtc resume (w, [opTask i key opts op]) (w', [Finished r]) ->
  exists st',
    fst (getStats (breakerOn i key opts) w') = Ok (Some st') /\
    totalRequests st <= totalRequests st' /\
    successfulRequests st <= successfulRequests st' /\
    (failedRequests st <= failedRequests st'
     \/ (state st <> CLOSED /\ state st' = CLOSED /\ failedRequests st' = 0)).
Proof.
  intros Hget Hrun. unfold breakerOn in *.
  rewrite getStats_run in Hget. cbn in Hget. injection Hget as Hst.
  apply alone_run in Hrun.
  assert (Hw' : w' = snd (runAlone (opTask i key opts op) w)) by (rewrite Hrun; reflexivity).
  clear Hrun. subst w'.
  enough (exists st', lookupW i key (snd (runAlone (opTask i key opts op) w)) = Some st'
                      /\ totals_kept st st') as (st' & Hst' & Hkept).
  { exists st'. rewrite getStats_run. cbn [fst]. rewrite Hst'. split; [reflexivity | exact Hkept]. }
  destruct op as [call | | | | e | | | e]; cbn [opTask].
  - rewrite runAlone_discard, runAlone_executeA. apply execute_totals, Hst.
  - rewrite runAlone_performHealthCheckA. unfold breakerOn.
    destruct (decide (state st = OPEN /\
                      resetTimeout opts <= clock w (tick w) - default 0 (lastFailureTime st)))
      as [[Hopen Hdue] | Hnot].
    + rewrite (performHealthCheck_probe i key opts st w Hst Hopen Hdue). cbn [snd].
      unfold afterHalfOpen. wsimpl. eexists. split; [reflexivity |].
      unfold totals_kept. cbn. lia.
    + destruct (performHealthCheck_refresh i key opts st w Hst Hnot)
        as (st' & -> & Ht & Hs & Hf & _).
      cbn [snd]. wsimpl. exists st'. split; [reflexivity |].
      unfold totals_kept. lia.
  - rewrite runAlone_sync, bind_ret_tt. unfold breakerOn.
    rewrite updateMetrics_lookupW. exists st. split; [exact Hst | apply totals_kept_refl].
  - rewrite runAlone_transitionToHalfOpenA. unfold breakerOn.
    destruct (decide (state st = OPEN)) as [Hopen | Hne].
    + rewrite (transitionToHalfOpen_run i key opts st w Hst Hopen). cbn [snd].
      unfold afterHalfOpen. wsimpl. eexists. split; [reflexivity |].
      unfold totals_kept. cbn. lia.
    + rewrite transitionToHalfOpen_skip.
      * exists st. split; [exact Hst | apply totals_kept_refl].
      * intros st0 Hst0. rewrite Hst in Hst0. inversion Hst0; subst. exact Hne.
  - rewrite runAlone_transitionToOpenA. unfold breakerOn.
    destruct (decide (state st = OPEN)) as [Hopen | Hne].
    + rewrite transitionToOpen_skip.
      * exists st. split; [exact Hst | apply totals_kept_refl].
      * intros st0 Hst0. rewrite Hst in Hst0. inversion Hst0; subst. exact Hopen.
    + destruct (nullish e) eqn:He.
      * rewrite (transitionToOpen_nullish i key opts e st w Hst Hne He).
        exists st. split; [exact Hst | apply totals_kept_refl].
      * rewrite (transitionToOpen_run i key opts e st w Hst Hne He). cbn [snd].
        wsimpl. eexists. split; [reflexivity |].
        unfold totals_kept. cbn. lia.
  - rewrite runAlone_transitionToClosedA. unfold breakerOn.
    destruct (decide (state st = CLOSED)) as [Hclosed | Hne].
    + rewrite transitionToClosed_skip.
      * exists st. split; [exact Hst | apply totals_kept_refl].
      * intros st0 Hst0. rewrite Hst in Hst0. inversion Hst0; subst. exact Hclosed.
    + rewrite (transitionToClosed_run i key opts st w Hst Hne). cbn [snd].
      wsimpl. eexists. split; [reflexivity |].
      unfold totals_kept. cbn. split; [lia |]. split; [lia |]. right. auto.
  - rewrite runAlone_recordSuccessA. unfold breakerOn.
    rewrite (recordSuccess_run i key opts st w Hst). cbn [snd].
    wsimpl. eexists. split; [reflexivity |].
    unfold totals_kept. cbn. lia.
  - rewrite runAlone_recordFailureA. unfold breakerOn.
    destruct (recordFailure_totals i key opts e st w Hst)
      as (r0 & w' & st' & -> & _ & Hst' & Ht & Hs & Hf).
    cbn [snd]. exists st'. split; [exact Hst' |]. unfold totals_kept. lia.
Qed.

Lemma totals_survive_every_operation_witness :
  fst (getStats (breakerOn InMemory "payment-0" (options probe_breaker)) probe_world)
    = Ok (Some probe_record) /\
  exists w' r st',
    rtc resume
      (probe_world,
       [opTask InMemory "payment-0" (options probe_breaker)
          (OpExecute (@Rejects unit (ErrorObject "boom")))])
      (w', [Finished r]) /\
    fst (getStats (breakerOn InMemory "payment-0" (options probe_breaker)) w')
      = Ok (Some st') /\
    totalRequests st' = 4 /\ failedRequests st' = 4 /\ state st' = OPEN.
Proof.
  split; [reflexivity |].
  pose proof (run_alone (opTask InMemory "payment-0" (options probe_breaker)
                           (OpExecute (@Rejects unit (ErrorObject "boom")))) probe_world)
    as Hrun.
  destruct (totals_survive_every_operation InMemory "payment-0" (options probe_breaker)
              (OpExecute (@Rejects unit (ErrorObject "boom"))) probe_world _ _ probe_record
              eq_refl Hrun) as (st' & Hst' & _).
  eexists _, _, st'. split; [exact Hrun |]. split; [exact Hst' |].
  vm_compute in Hst'. injection Hst' as <-. repeat split.
Defined.

(** ** The [circuitOpen] flag of a factory call *)

(** The flag is computed from the text of the error alone. *)
Lemma executeServiceCall_flag {T} f serviceName shardId (call : ServiceCall T)
    breaker e w w1 :
  getServiceBreaker f serviceName shardId w = (Ok (Some breaker), w) ->
  execute breaker call (set_tick (S (tick w)) w) = (Throw e, w1) ->
  exists res w2,
    executeServiceCall f serviceName shardId call w = (Ok res, w2) /\
    r_success res = false /\
    r_circuitOpen res
    = Some (instanceofError e
            && includes "Circuit breaker is OPEN" (default "" (message e))).
Proof.
  intros Hfind Hrun. unfold executeServiceCall.
  run Hfind. run (Date_now_run w).
  unfold try_catch. rewrite (bind_Throw _ _ _ _ _ Hrun).
  run (Date_now_run w1).
  eexists _, _. split; [reflexivity |]. split; reflexivity.
Qed.

(** [C8] Evaluation at a call whose thunk fails with an error of its own
    that quotes the breaker's message: the breaker is CLOSED before and
    after the call, the thunk is invoked, and yet both
    [executeServiceCall] and [executeWithKey] report
    [circuitOpen = true]. *)
Theorem circuitOpen_flag_on_thunk_error :
  let call := @Rejects unit upstream_error in
  let direct :=
    executeServiceCall payment_factory "payment" (Finite 0) call payment_world in
  let routed :=
    executeWithKey payment_factory "payment" (charCodes "user-123") call payment_world in
  (state <$> kv payment_world !! "payment-0") = Some CLOSED /\
  invocations (snd direct) = S (invocations payment_world) /\
  (state <$> kv (snd direct) !! "payment-0") = Some CLOSED /\
  (r_success <$> fulfilled (fst direct)) = Some false /\
  (r_error <$> fulfilled (fst direct)) = Some (Some upstream_error) /\
  (r_circuitOpen <$> fulfilled (fst direct)) = Some (Some true) /\
  (r_shardId <$> fulfilled (fst routed)) = Some (Finite 0) /\
  (r_circuitOpen <$> fulfilled (fst routed)) = Some (Some true).
Proof. vm_compute. repeat split. Qed.

(** ** Events on rejection *)

Lemma no_rejected_stable : Stable no_rejected.
Proof.
  split; try (intros; assumption).
  - intros k ev w Hev Hw k'. unfold deliver.
    rewrite local_of_updateLocal. destruct (decide (k = k')) as [<- |]; [| apply Hw].
    cbn. apply Forall_app. split; [apply Hw |]. constructor; [exact Hev | constructor].
  - intros k f w Hf Hw k'.
    rewrite local_of_updateLocal. destruct (decide (k = k')) as [<- |]; [| apply Hw].
    destruct (Hf (local_of k w)) as [_ ->]. apply Hw.
Qed.

Lemma no_rejected_updateLocal k f w :
  (forall l, emitted (f l) = emitted l) ->
  no_rejected w -> no_rejected (updateLocal k f w).
Proof.
  intros Hf Hw k'.
  rewrite local_of_updateLocal. destruct (decide (k = k')) as [<- |]; [| apply Hw].
  rewrite Hf. apply Hw.
Qed.

Lemma no_rejected_entered key w : no_rejected w -> no_rejected (entered key w).
Proof.
  intros Hw. unfold entered. cbv zeta.
  apply no_rejected_updateLocal; [reflexivity |].
  apply (stable_tick _ no_rejected_stable).
  apply no_rejected_updateLocal; [reflexivity |].
  apply (stable_nextSymbol _ no_rejected_stable), Hw.
Qed.

Lemma no_rejected_released key requestId w :
  no_rejected w -> no_rejected (released key requestId w).
Proof.
  intros Hw. unfold released. cbv zeta.
  apply (stable_deliver _ no_rejected_stable); [reflexivity |].
  apply no_rejected_updateLocal; [reflexivity | exact Hw].
Qed.

(** [C9] Evaluation of the claim's premise on the code: [execute] never
    emits a [rejected] event. Whatever the breaker, the call and the world,
    if no [rejected] event has been emitted before [execute] runs, none has
    been emitted when it returns; in particular none accompanies an
    admission rejection. *)
Theorem execute_never_emits_rejected {T} b (call : ServiceCall T) w :
  source_store (stateStore b) ->
  no_rejected w ->
  no_rejected (snd (execute b call w)).
Proof.
  intros [i Hs] Hw.
  destruct b as [key store opts]; cbn in *; subst store.
  unfold execute.
  destruct (execute_load_cases i key opts w) as (w1 & [Hload | (st & Hload)]).
  - rewrite (bind_Throw _ _ _ _ _ Hload). cbn [snd].
    exact (preserves_execute_load no_rejected_stable i key opts w _ _ Hload Hw).
  - run Hload.
    pose proof (preserves_execute_load no_rejected_stable i key opts w _ _ Hload Hw) as Hw1.
    destruct (execute_enter_cases i key opts w1) as [[_ Hrej] | [_ Hadm]].
    + rewrite (bind_Throw _ _ _ _ _ Hrej). exact Hw1.
    + run Hadm. cbn [fst snd].
      pose proof (no_rejected_entered key w1 Hw1) as Hw2.
      unfold execute_request. rewrite try_catch_finally_split. cbv zeta.
      match goal with
      | |- context [try_catch ?body ?handler (entered key w1)] =>
          destruct (try_catch body handler (entered key w1)) as [r3 w3] eqn:Hbody
      end.
      pose proof (preserves_request_body no_rejected_stable i key opts st
                    (clock w1 (tick w1)) call (fun _ _ H => H) _ _ _ Hbody Hw2) as Hw3.
      destruct r3 as [a | e |].
      * rewrite finally_run. cbn [snd]. apply no_rejected_released, Hw3.
      * rewrite finally_run. cbn [snd]. apply no_rejected_released, Hw3.
      * exact Hw3.
Qed.

Lemma no_rejected_early_world : no_rejected early_world.
Proof. intros k. unfold local_of. cbn. rewrite lookup_empty. constructor. Qed.

Lemma no_rejected_full_world : no_rejected full_world.
Proof.
  intros k. unfold local_of. cbn.
  destruct (decide (k = "payment-0")) as [-> |].
  - rewrite lookup_singleton_eq. constructor.
  - rewrite lookup_singleton_ne by done. constructor.
Qed.

Lemma execute_never_emits_rejected_witness :
  (source_store (stateStore open_breaker) /\
   no_rejected early_world /\
   fst (execute open_breaker (Resolves tt) early_world)
     = Throw (ErrorObject "Circuit breaker is OPEN") /\
   emitted (local_of "orders-1" (snd (execute open_breaker (Resolves tt) early_world))) = [] /\
   no_rejected (snd (execute open_breaker (Resolves tt) early_world)))
  /\
  (source_store (stateStore cap_breaker) /\
   no_rejected full_world /\
   fst (execute cap_breaker (Resolves tt) full_world)
     = Throw (ErrorObject "Maximum concurrent requests exceeded") /\
   emitted (local_of "payment-0" (snd (execute cap_breaker (Resolves tt) full_world))) = [] /\
   no_rejected (snd (execute cap_breaker (Resolves tt) full_world))).
Proof.
  assert (Hs1 : source_store (stateStore open_breaker)) by (exists Etcd; reflexivity).
  assert (Hs2 : source_store (stateStore cap_breaker)) by (exists InMemory; reflexivity).
  split.
  - split; [exact Hs1 |]. split; [exact no_rejected_early_world |].
    split; [vm_compute; reflexivity |]. split; [vm_compute; reflexivity |].
    exact (execute_never_emits_rejected open_breaker (Resolves tt) early_world
             Hs1 no_rejected_early_world).
  - split; [exact Hs2 |]. split; [exact no_rejected_full_world |].
    split; [vm_compute; reflexivity |]. split; [vm_compute; reflexivity |].
    exact (execute_never_emits_rejected cap_breaker (Resolves tt) full_world
             Hs2 no_rejected_full_world).
Defined.

(** ** Failing calls, end to end *)

Section FailingCalls.
Variables (i : StoreImpl) (key : string) (opts : CircuitBreakerOptions).
Let b := mkBreaker key (store_of i) opts.

Lemma race_fails {T} (call : ServiceCall T) e w :
  fails_with opts call e ->
  race b call w = (Throw e, set_invocations (S (invocations w)) w).
Proof.
  intros [-> | (-> & Htimer & ->)]; [apply race_rejects | apply race_timeout, Htimer].
Qed.

(** A call that fails with something other than [undefined] or [null], on
    a CLOSED breaker below capacity: the caller gets the error back, the
    failure is on record, and the breaker is OPEN exactly when the count
    reached the threshold. *)
Lemma execute_failure_closed {T} (call : ServiceCall T) e st w :
  lookupW i key w = Some st ->
  state st = CLOSED ->
  atCapacity b (local_of key w) = false ->
  fails_with opts call e ->
  nullish e = false ->
  exists w' st',
    execute b call w = (Throw e, w') /\
    lookupW i key w' = Some st' /\
    activeRequests (local_of key w') ⊆ activeRequests (local_of key w) /\
    lastError st' = message e /\
    if decide (failureThreshold opts <= failureCount st + 1)
    then state st' = OPEN /\ failureCount st' = failureThreshold opts
    else state st' = CLOSED /\ failureCount st' = failureCount st + 1.
Proof.
  intros Hst Hclosed Hfree Hfails He.
  assert (Hload : execute_load b w = (Ok st, w))
    by (apply execute_load_pass; [exact Hst | rewrite Hclosed; discriminate]).
  pose proof (execute_enter_admit i key opts w Hfree) as Henter.
  set (w1 := set_invocations (S (invocations (entered key w))) (entered key w)).
  assert (Hw1 : lookupW i key w1 = Some st) by exact Hst.
  pose proof (recordFailure_run i key opts e st w1 Hw1 He) as Hrec.
  pose proof (lookupW_afterFailure i key e st w1) as Hafter.
  assert (Hexec : forall w2, recordFailure b e w1 = (Ok tt, w2) ->
            execute b call w = (Throw e, released key (nextSymbol w) w2)).
  { intros w2 Hw2. unfold execute. run Hload. run Henter. cbn [fst snd].
    unfold execute_request.
    apply (try_catch_finally_Throw _ _ _ _ e e w1 w2).
    - apply bind_Throw, race_fails, Hfails.
    - run Hw2. reflexivity.
    - apply finally_run. }
  assert (Hact : forall w2,
            activeRequests (local_of key w2) = activeRequests (local_of key w1) ->
            activeRequests (local_of key (released key (nextSymbol w) w2))
            ⊆ activeRequests (local_of key w)).
  { intros w2 Hw2. rewrite active_released, Hw2.
    change (local_of key w1) with (local_of key (entered key w)).
    rewrite active_entered.
    intros x Hx. apply elem_of_difference in Hx as [Hx Hnew].
    apply elem_of_union in Hx as [Hx | Hx]; [contradiction | exact Hx]. }
  destruct (decide (failureThreshold opts <= failureCount st + 1)) as [Htrip | Hkeep].
  - rewrite decide_True in Hrec by (right; exact Htrip).
    rewrite (transitionToOpen_run i key opts e _ _ Hafter) in Hrec
      by first [exact He | cbn; rewrite Hclosed; discriminate].
    eexists _, _. split; [apply Hexec, Hrec |].
    unfold released. cbv zeta. wsimpl. split; [reflexivity |].
    split; [| cbn; auto].
    apply Hact.
    exact (preserves_recordFailure (active_is_stable key (activeRequests (local_of key w1)))
             i key opts e w1 _ _ Hrec eq_refl).
  - rewrite decide_False in Hrec by (intros [H | H]; [congruence | lia]).
    eexists _, _. split; [apply Hexec, Hrec |].
    unfold released. cbv zeta. wsimpl. split; [exact Hafter |].
    split; [| cbn; auto].
    apply Hact.
    exact (preserves_recordFailure (active_is_stable key (activeRequests (local_of key w1)))
             i key opts e w1 _ _ Hrec eq_refl).
Qed.

Lemma atCapacity_subseteq l l' :
  activeRequests l' ⊆ activeRequests l ->
  atCapacity b l = false -> atCapacity b l' = false.
Proof.
  intros Hsub. unfold atCapacity. cbn.
  destruct (maxConcurrent opts) as [m |]; [| reflexivity].
  intros Hfree. apply bool_decide_eq_false_1 in Hfree.
  apply bool_decide_eq_false_2.
  apply subseteq_size in Hsub. unfold activeSize in *. lia.
Qed.

(** Failing calls made one after the other on a CLOSED breaker, none of
    them failing with [undefined] or [null]: when their number brings the
    failure count to the threshold, the record they leave is OPEN. *)
Lemma consecutive_failures_open {T} (calls : list (ServiceCall T)) : forall st w,
  lookupW i key w = Some st ->
  state st = CLOSED ->
  atCapacity b (local_of key w) = false ->
  Forall (fun call => exists e, fails_with opts call e /\ nullish e = false) calls ->
  calls <> [] ->
  failureCount st + Z.of_nat (length calls) = failureThreshold opts ->
  exists st',
    lookupW i key (executeAll b calls w) = Some st' /\
    state st' = OPEN /\ failureCount st' = failureThreshold opts.
Proof.
  induction calls as [| call rest IH]; intros st w Hst Hclosed Hfree Hfail Hne Hcount;
    [contradiction |].
  apply Forall_cons in Hfail as [(e & He & Hvalue) Hrest].
  destruct (execute_failure_closed call e st w Hst Hclosed Hfree He Hvalue)
    as (w' & st' & Hrun & Hst' & Hsub & _ & Hcases).
  cbn [executeAll]. rewrite Hrun. cbn [snd].
  destruct rest as [| call' rest'].
  - cbn [executeAll]. cbn in Hcount.
    rewrite decide_True in Hcases by lia.
    exists st'. split; [exact Hst' | exact Hcases].
  - rewrite decide_False in Hcases by (cbn [length] in Hcount; lia).
    destruct Hcases as [Hclosed' Hcount'].
    apply (IH st' w' Hst' Hclosed').
    + exact (atCapacity_subseteq _ _ Hsub Hfree).
    + exact Hrest.
    + discriminate.
    + rewrite Hcount'. cbn [length] in *. lia.
Qed.

End FailingCalls.

(** ** A breaker as the constructor leaves it *)

(** The constructor always fixes a concurrency cap. *)
Lemma constructor_sets_maxConcurrent o :
  exists m, maxConcurrent (constructorOptions o) = Some m.
Proof. eexists. reflexivity. Qed.

(** A new breaker has no request in flight, also after its [init] ran. *)
Lemma newBreaker_active_empty i key o w b w' :
  newBreaker key (store_of i) o w = (Ok b, w') ->
  b = mkBreaker key (store_of i) (constructorOptions o) /\
  activeRequests (local_of key w') = ∅.
Proof.
  intros Hnew. unfold newBreaker in Hnew. cbv zeta in Hnew.
  rewrite (bind_Ok _ _ _ _ _ (Date_now_run w)) in Hnew.
  unfold bind in Hnew.
  set (w1 := set_locals _ (set_tick (S (tick w)) w)) in Hnew.
  assert (Hfresh : active_is key ∅ w1).
  { unfold active_is, w1, local_of. cbn. rewrite lookup_insert_eq. reflexivity. }
  destruct (try_catch (init (mkBreaker key (store_of i) (constructorOptions o)))
              (fun _ => ret tt) w1) as [r w2] eqn:Hinit.
  assert (Hkeep : active_is key ∅ w2).
  { refine (preserves_try_catch (P:=active_is key ∅) _ _ _ _ w1 r w2 Hinit Hfresh).
    - apply (preserves_init (active_is_stable key ∅)).
    - intros e. apply preserves_ret. }
  destruct r as [[] | e |]; inversion Hnew; subst. split; [reflexivity | exact Hkeep].
Qed.

(** * Further properties of the code

    Where a statement below speaks of an operation through its [M] form
    (a store method, [execute], a timer tick, the constructor), it
    describes the operation with nothing else running between its
    [await]s. The statements on a breaker in use ([in_use]) hold for any
    number of operations in flight together, in every order of their
    stretches. *)

(** ** The stores, operation by operation *)

Lemma physKey_inj i : Inj (=) (=) (physKey i).
Proof.
  intros k k' H. destruct i; cbn in H; [exact H |].
  unfold EtcdStateStore.getKey in H. exact (String.app_inj _ _ _ H).
Qed.

Lemma lookupW_putW_ne i k k' v w :
  k' <> k -> lookupW i k' (putW i k v w) = lookupW i k' w.
Proof.
  intros Hne. unfold lookupW. destruct (putW_shared i k v w) as (-> & _).
  apply lookup_insert_ne. intros H. apply Hne. symmetry. exact (physKey_inj i _ _ H).
Qed.

(** [X1] What is written under a service key is what is read back under it,
    and a write under one service key leaves every other one as it was; on
    etcd, distinct service keys never share a physical key. *)
Theorem setState_then_getState (i : StoreImpl) (k k' : string)
    (v : CircuitBreakerStats) (w : World) :
  exists w',
    setState (store_of i) k v w = (Ok tt, w') /\
    getState (store_of i) k w' = (Ok (Some v), w') /\
    (k' <> k -> fst (getState (store_of i) k' w') = fst (getState (store_of i) k' w)).
Proof.
  exists (putW i k v w). split; [apply setState_run |].
  rewrite !getState_run, lookupW_putW. split; [reflexivity |].
  intros Hne. cbn [fst]. rewrite lookupW_putW_ne by exact Hne. reflexivity.
Qed.

(** [X2] [incrementFailureCount] on a key the store holds: both stores answer
    the old count plus one and persist it, with [failedRequests] raised by
    one and [lastFailureTime] set to the current time; the state is not
    looked at and stays what it was. Only [EtcdStateStore] also raises
    [totalRequests]. *)
Theorem incrementFailureCount_existing_key (i : StoreImpl) (key : string)
    (w : World) (st : CircuitBreakerStats) :
  fst (getState (store_of i) key w) = Ok (Some st) ->
  exists w' st',
    incrementFailureCount (store_of i) key w = (Ok (failureCount st + 1), w') /\
    fst (getState (store_of i) key w') = Ok (Some st') /\
    failureCount st' = failureCount st + 1 /\
    failedRequests st' = failedRequests st + 1 /\
    totalRequests st'
    = match i with
      | InMemory => totalRequests st
      | Etcd => totalRequests st + 1
      end /\
    lastFailureTime st' = Some (clock w (tick w)) /\
    state st' = state st /\
    successfulRequests st' = successfulRequests st /\
    lastError st' = lastError st.
Proof.
  intros Hget. rewrite getState_run in Hget. cbn in Hget. injection Hget as Hst.
  eexists _, _. split; [apply incrementFailureCount_present, Hst |].
  rewrite getState_run. cbn [fst]. rewrite lookupW_putW.
  split; [reflexivity |]. destruct i; cbn; repeat split.
Qed.

Lemma incrementFailureCount_existing_key_witness :
  fst (getState (store_of InMemory) "payment-0" trip_world)
  = Ok (Some (mkStats CLOSED 2 None None 2 0 2 None None None None None)) /\
  fst (incrementFailureCount (store_of InMemory) "payment-0" trip_world) = Ok 3.
Proof.
  split; [reflexivity |].
  destruct (incrementFailureCount_existing_key InMemory "payment-0" trip_world
              (mkStats CLOSED 2 None None 2 0 2 None None None None None) eq_refl)
    as (w' & st' & Hrun & _).
  rewrite Hrun. reflexivity.
Defined.

(** [X3] [resetStats]: a key the store does not hold is left alone. On a key
    it holds, both stores clear [failureCount], [lastFailureTime] and
    [lastError] and keep [totalRequests] and [successfulRequests]; the
    in-memory store also closes the circuit and clears [failedRequests],
    [EtcdStateStore] keeps the state (an OPEN circuit stays OPEN) and
    [failedRequests]. *)
Theorem resetStats_clears_failures (i : StoreImpl) (key : string) (w : World) :
  match fst (getState (store_of i) key w) with
  | Ok (Some st) =>
      exists w' st',
        resetStats (store_of i) key w = (Ok tt, w') /\
        fst (getState (store_of i) key w') = Ok (Some st') /\
        failureCount st' = 0 /\
        lastFailureTime st' = None /\
        lastError st' = None /\
        totalRequests st' = totalRequests st /\
        successfulRequests st' = successfulRequests st /\
        match i with
        | InMemory => state st' = CLOSED /\ failedRequests st' = 0
        | Etcd => state st' = state st /\ failedRequests st' = failedRequests st
        end
  | _ => resetStats (store_of i) key w = (Ok tt, w)
  end.
Proof.
  rewrite getState_run. cbn [fst].
  destruct (lookupW i key w) as [st |] eqn:Hst.
  - assert (Hrun : exists st',
               resetStats (store_of i) key w = (Ok tt, putW i key st' w) /\
               failureCount st' = 0 /\ lastFailureTime st' = None /\ lastError st' = None /\
               totalRequests st' = totalRequests st /\
               successfulRequests st' = successfulRequests st /\
               match i with
               | InMemory => state st' = CLOSED /\ failedRequests st' = 0
               | Etcd => state st' = state st /\ failedRequests st' = failedRequests st
               end).
    { unfold lookupW in Hst. destruct i; cbn in *.
      - unfold InMemoryStateStore.resetStats, InMemoryStateStore.getState, bind, readKv.
        rewrite Hst. eexists. split; [reflexivity |]. cbn. repeat split.
      - unfold EtcdStateStore.resetStats, EtcdStateStore.getState, bind, readKv.
        rewrite Hst. eexists. split; [reflexivity |]. cbn. repeat split. }
    destruct Hrun as (st' & Hrun & Hrest).
    exists (putW i key st' w), st'. split; [exact Hrun |].
    rewrite getState_run. cbn [fst]. rewrite lookupW_putW. split; [reflexivity | exact Hrest].
  - unfold lookupW in Hst. destruct i; cbn in *.
    + unfold InMemoryStateStore.resetStats, InMemoryStateStore.getState, bind, readKv.
      rewrite Hst. reflexivity.
    + unfold EtcdStateStore.resetStats, EtcdStateStore.getState, bind, readKv.
      rewrite Hst. reflexivity.
Qed.

Lemma incrementFailureCount_absent_run i key w :
  lookupW i key w = None ->
  match i with
  | InMemory => incrementFailureCount (store_of InMemory) key w = (Ok 0, w)
  | Etcd =>
      exists st,
        incrementFailureCount (store_of Etcd) key w
        = (Ok 1, putW Etcd key st (set_tick (S (tick w)) w))
  end.
Proof.
  intros Hst. unfold lookupW in Hst. destruct i; cbn in *.
  - unfold InMemoryStateStore.incrementFailureCount, InMemoryStateStore.getState,
      bind, readKv.
    rewrite Hst. reflexivity.
  - unfold EtcdStateStore.incrementFailureCount, EtcdStateStore.getState,
      EtcdStateStore.setState, bind, readKv, writeKv.
    rewrite Hst. cbn. eexists. reflexivity.
Qed.

(** *** Watchers of the in-memory store *)

Lemma registrations_cons sub s subs :
  registrations sub (s :: subs)
  = ((if decide (s = sub) then 1 else 0) + registrations sub subs)%nat.
Proof.
  unfold registrations. rewrite filter_cons.
  destruct (decide (s = sub)); reflexivity.
Qed.

Lemma registrations_app sub subs subs' :
  registrations sub (subs ++ subs')
  = (registrations sub subs + registrations sub subs')%nat.
Proof. unfold registrations. rewrite filter_app, length_app. reflexivity. Qed.

Lemma emitted_deliver_other k key ev w :
  emitted (local_of key (deliver k ev w))
  = emitted (local_of key w) ++ (if decide (k = key) then [ev] else []).
Proof.
  unfold deliver. rewrite local_of_updateLocal.
  destruct (decide (k = key)) as [-> |]; [reflexivity |].
  rewrite app_nil_r. reflexivity.
Qed.

Lemma emitted_notifyAll sub subs v : forall w,
  emitted (local_of sub (InMemoryStateStore.notifyAll subs v w))
  = emitted (local_of sub w) ++ replicate (registrations sub subs) (stateUpdate v).
Proof.
  induction subs as [| s subs IH]; intros w.
  - cbn. rewrite app_nil_r. reflexivity.
  - rewrite notifyAll_cons, IH, emitted_deliver_other, registrations_cons, <- app_assoc.
    destruct (decide (s = sub)); reflexivity.
Qed.

(** [X4] Every [setState] of the in-memory store on a key reaches the breakers
    watching that key: a breaker's event log grows by one [stateUpdate]
    carrying the written record for each watch it registered on the key,
    and by nothing when it registered none. [watchState] adds one
    registration, on that key only. *)
Theorem setState_notifies_watchers (key sub : string) (v : CircuitBreakerStats)
    (w : World) :
  let subscribers := default [] (watchers w !! key) in
  let written := snd (InMemoryStateStore.setState key v w) in
  let watched := snd (InMemoryStateStore.watchState key sub w) in
  emitted (local_of sub written)
  = emitted (local_of sub w) ++ replicate (registrations sub subscribers) (stateUpdate v) /\
  registrations sub (default [] (watchers watched !! key))
  = S (registrations sub subscribers) /\
  (forall key', key' <> key -> watchers watched !! key' = watchers w !! key') /\
  emitted (local_of sub (snd (InMemoryStateStore.setState key v watched)))
  = emitted (local_of sub w)
    ++ replicate (S (registrations sub subscribers)) (stateUpdate v).
Proof.
  cbv zeta.
  assert (Hset : forall w0,
            emitted (local_of sub (snd (InMemoryStateStore.setState key v w0)))
            = emitted (local_of sub w0)
              ++ replicate (registrations sub (default [] (watchers w0 !! key)))
                   (stateUpdate v)).
  { intros w0. change (InMemoryStateStore.setState key v w0)
      with (setState (store_of InMemory) key v w0).
    rewrite setState_run. cbn [snd putW]. rewrite emitted_notifyAll. reflexivity. }
  assert (Hwatch : registrations sub
                     (default [] (watchers (snd (InMemoryStateStore.watchState key sub w))
                                   !! key))
                   = S (registrations sub (default [] (watchers w !! key)))).
  { cbn -[registrations]. rewrite lookup_insert_eq. cbn -[registrations].
    rewrite registrations_app, registrations_cons, decide_True by reflexivity.
    cbn. lia. }
  split; [apply Hset |]. split; [exact Hwatch |]. split.
  - intros key' Hne. cbn. apply lookup_insert_ne. congruence.
  - rewrite Hset, Hwatch. reflexivity.
Qed.

(** ** Properties kept by everything one breaker does *)

Lemma preserves_try_catch_finally (P : World -> Prop) {A} (body : M A) handler fin :
  preserves P body -> (forall e, preserves P (handler e)) -> preserves P fin ->
  preserves P (try_catch_finally body handler fin).
Proof.
  intros Hb Hh Hf w r w' Hrun Hw. rewrite try_catch_finally_split in Hrun.
  destruct (try_catch body handler w) as [r1 w1] eqn:Hbody.
  assert (Hw1 : P w1).
  { unfold try_catch in Hbody. destruct (body w) as [[a | e |] w0] eqn:Hbw.
    - injection Hbody as <- <-. eapply Hb; eassumption.
    - eapply Hh; [exact Hbody |]. eapply Hb; eassumption.
    - injection Hbody as <- <-. eapply Hb; eassumption. }
  destruct r1 as [a | e |].
  - destruct (fin w1) as [[[] | e' |] w2] eqn:Hfin; injection Hrun as <- <-;
      eapply Hf; eassumption.
  - destruct (fin w1) as [[[] | e' |] w2] eqn:Hfin; injection Hrun as <- <-;
      eapply Hf; eassumption.
  - injection Hrun as <- <-. exact Hw1.
Qed.

Section Keeping.
Context {i : StoreImpl} {key : string} {P : World -> Prop} (HK : Kept i key P).

Lemma keeps_Date_now : preserves P Date_now.
Proof.
  intros w r w' Hrun H. unfold Date_now in Hrun. inversion Hrun; subst.
  apply (kept_tick _ _ _ HK), H.
Qed.

Lemma keeps_Symbol : preserves P Symbol.
Proof.
  intros w r w' Hrun H. unfold Symbol in Hrun. inversion Hrun; subst.
  apply (kept_nextSymbol _ _ _ HK), H.
Qed.

Lemma keeps_emit ev : emittable ev = true -> preserves P (emit key ev).
Proof.
  intros Hev w r w' Hrun H. unfold emit in Hrun. inversion Hrun; subst.
  apply (kept_deliver _ _ _ HK); assumption.
Qed.

Lemma keeps_modifyLocal f :
  (forall l, errorTimes (f l) `sublist_of` errorTimes l /\ emitted (f l) = emitted l) ->
  preserves P (modifyLocal key f).
Proof.
  intros Hf w r w' Hrun H. unfold modifyLocal in Hrun. inversion Hrun; subst.
  apply (kept_update _ _ _ HK); assumption.
Qed.

Lemma keeps_setState v : preserves P (setState (store_of i) key v).
Proof.
  intros w r w' Hrun H. rewrite setState_run in Hrun. inversion Hrun; subst.
  apply (kept_put _ _ _ HK), H.
Qed.

Lemma keeps_incrementFailureCount : preserves P (incrementFailureCount (store_of i) key).
Proof.
  intros w r w' Hrun H.
  destruct (lookupW i key w) as [st |] eqn:Hst.
  - rewrite (incrementFailureCount_present i key w st Hst) in Hrun.
    inversion Hrun; subst. apply (kept_put _ _ _ HK), (kept_tick _ _ _ HK), H.
  - pose proof (incrementFailureCount_absent_run i key w Hst) as Habs.
    destruct i.
    + rewrite Habs in Hrun. injection Hrun as <- <-. exact H.
    + destruct Habs as (st & Habs).
      assert (w' = putW Etcd key st (set_tick (S (tick w)) w)) as -> by congruence.
      apply (kept_put _ _ _ HK), (kept_tick _ _ _ HK), H.
Qed.

Lemma keeps_watchState sub : preserves P (watchState (store_of i) key sub).
Proof.
  intros w r w' Hrun H. destruct i; cbn in Hrun; inversion Hrun; subst;
    apply (kept_watchers _ _ _ HK), H.
Qed.

End Keeping.

Ltac keeps_step HK :=
  first
    [ apply preserves_ret
    | apply preserves_throw
    | apply preserves_pending
    | apply preserves_readMessage
    | apply (keeps_Date_now HK)
    | apply (keeps_Symbol HK)
    | apply preserves_getLocal
    | apply preserves_getState
    | apply (keeps_setState HK)
    | apply (keeps_incrementFailureCount HK)
    | apply (keeps_watchState HK)
    | apply (keeps_emit HK); reflexivity
    | apply (keeps_modifyLocal HK); intros ?; split; cbn;
      first [reflexivity | apply sublist_filter]
    | apply preserves_bind; [| intros ?]
    | apply preserves_try_catch; [| intros ?]
    | apply preserves_try_catch_finally; [| intros ? |]
    | match goal with
      | |- preserves _ (match ?x with _ => _ end) => destruct x
      | |- preserves _ (if ?c then _ else _) => destruct c
      end
    | assumption ].

Ltac keeps HK := cbv zeta; repeat keeps_step HK.

Section BreakerKeeping.
Context {i : StoreImpl} {key : string} {P : World -> Prop} (HK : Kept i key P).
Variable opts : CircuitBreakerOptions.
Let b := mkBreaker key (store_of i) opts.

Lemma keeps_initializeState : preserves P (initializeState b).
Proof. unfold initializeState. keeps HK. Qed.

Lemma keeps_updateStats st upd : preserves P (updateStats b st upd).
Proof. unfold updateStats. keeps HK. Qed.

Lemma keeps_transitionToHalfOpen : preserves P (transitionToHalfOpen b).
Proof. unfold transitionToHalfOpen. keeps HK. all: apply keeps_updateStats. Qed.

Lemma keeps_transitionToOpen e : preserves P (transitionToOpen b e).
Proof. unfold transitionToOpen. keeps HK. all: apply keeps_updateStats. Qed.

Lemma keeps_transitionToClosed : preserves P (transitionToClosed b).
Proof. unfold transitionToClosed. keeps HK. all: apply keeps_updateStats. Qed.

Lemma keeps_recordResponseTime t : preserves P (recordResponseTime b t).
Proof. unfold recordResponseTime. keeps HK. Qed.

Lemma keeps_recordSuccess : preserves P (recordSuccess b).
Proof. unfold recordSuccess. keeps HK. all: apply keeps_updateStats. Qed.

Lemma keeps_recordFailure e : preserves P (recordFailure b e).
Proof.
  unfold recordFailure. keeps HK.
  all: first [apply keeps_updateStats | apply keeps_transitionToOpen].
Qed.

Lemma keeps_updateMetrics : preserves P (updateMetrics b).
Proof. unfold updateMetrics. keeps HK. Qed.

Lemma keeps_watchStateChanges : preserves P (watchStateChanges b).
Proof. unfold watchStateChanges. keeps HK. Qed.

Lemma keeps_performHealthCheck : preserves P (performHealthCheck b).
Proof.
  unfold performHealthCheck. keeps HK.
  all: apply keeps_transitionToHalfOpen.
Qed.

Lemma keeps_execute_load : preserves P (execute_load b).
Proof.
  unfold execute_load. keeps HK.
  all: first [apply keeps_initializeState | apply keeps_transitionToHalfOpen
             | unfold nonNull; keeps HK].
Qed.

Lemma keeps_execute_enter : preserves P (execute_enter b).
Proof. unfold execute_enter. keeps HK. Qed.

Lemma keeps_race {T} (call : ServiceCall T) : preserves P (race b call).
Proof.
  unfold race. keeps HK.
  intros w r w' Hrun Hw. inversion Hrun; subst. apply (kept_invocations _ _ _ HK), Hw.
Qed.

Lemma keeps_execute_request {T} st requestId start (call : ServiceCall T) :
  preserves P (execute_request b st requestId start call).
Proof.
  unfold execute_request. keeps HK.
  all: first [ apply keeps_recordResponseTime
             | apply keeps_recordSuccess | apply keeps_transitionToClosed
             | apply keeps_recordFailure | idtac ].
  intros w r w' Hrun Hw. inversion Hrun; subst. apply (kept_invocations _ _ _ HK), Hw.
Qed.

Lemma keeps_execute {T} (call : ServiceCall T) : preserves P (execute b call).
Proof.
  unfold execute.
  apply preserves_bind; [apply keeps_execute_load | intros stats].
  apply preserves_bind; [apply keeps_execute_enter | intros admitted].
  apply keeps_execute_request.
Qed.

Lemma keeps_init : preserves P (init b).
Proof.
  unfold init.
  apply preserves_try_catch; [| intros e; apply preserves_throw].
  apply preserves_bind; [apply keeps_initializeState | intros _].
  apply preserves_bind; [apply keeps_updateMetrics | intros _].
  apply preserves_bind; [apply keeps_watchStateChanges | intros _].
  apply keeps_performHealthCheck.
Qed.

End BreakerKeeping.

(** *** Kept by every stretch, hence in every order of the stretches *)

Section StretchKeeping.
Context {P : World -> Prop}.

Lemma keep_first_stretch {A} (t : Async A) w :
  stretches_keep P t -> P w ->
  P (snd (first_stretch t w)) /\ stretches_keep P (fst (first_stretch t w)).
Proof. destruct t as [r | next]; cbn; auto. Qed.

Lemma keep_await {A} (m : M A) : preserves P m -> stretches_keep P (await m).
Proof.
  intros Hm w Hw. cbn. destruct (m w) as [r w'] eqn:Hrun. cbn.
  split; [eapply Hm; eauto |]. intros w2 Hw2. cbn. auto.
Qed.

Lemma keep_sync {A B} (m : M A) (k : A -> Async B) :
  preserves P m -> (forall a, stretches_keep P (k a)) -> stretches_keep P (sync m k).
Proof.
  intros Hm Hk w Hw. cbn. destruct (m w) as [[a | e |] w'] eqn:Hrun.
  - apply keep_first_stretch; [apply Hk | eapply Hm; eauto].
  - cbn. split; [eapply Hm; eauto | exact I].
  - cbn. split; [eapply Hm; eauto | exact I].
Qed.

Lemma keep_abind {A B} (t : Async A) (k : A -> Async B) :
  stretches_keep P t -> (forall a, stretches_keep P (k a)) ->
  stretches_keep P (abind t k).
Proof.
  intros Ht Hk. induction t as [[a | e |] | next IH] using Async_induction;
    cbn; try exact I; [apply Hk |].
  intros w Hw. destruct (Ht w Hw) as [Hw' Hrest]. specialize (IH w).
  destruct (next w) as [rest w']. cbn in *. auto.
Qed.

Lemma keep_discard {A} (t : Async A) : stretches_keep P t -> stretches_keep P (discard t).
Proof. intros Ht. apply keep_abind; [exact Ht | intros _; exact I]. Qed.

Lemma keep_try_catchA {A} (body : Async A) handler :
  stretches_keep P body -> (forall e, stretches_keep P (handler e)) ->
  stretches_keep P (try_catchA body handler).
Proof.
  intros Hb Hh. induction body as [[a | e |] | next IH] using Async_induction;
    cbn; try exact I; [apply Hh |].
  intros w Hw. destruct (Hb w Hw) as [Hw' Hrest]. specialize (IH w).
  destruct (next w) as [rest w']. cbn in *.
  destruct rest as [[a | e |] | next'].
  - cbn. auto.
  - cbn. apply keep_first_stretch; [apply Hh | exact Hw'].
  - cbn. auto.
  - cbn [fst snd]. auto.
Qed.

Lemma keep_settle_finally {A} (r : Result A) fin w :
  preserves P fin -> P w ->
  P (snd (settle_finally r fin w)) /\ stretches_keep P (fst (settle_finally r fin w)).
Proof.
  intros Hf Hw. unfold settle_finally.
  destruct r as [a | e |]; cbn; auto.
  all: destruct (fin w) as [[[] | e' |] w'] eqn:Hfin; cbn; split; try exact I;
    eapply Hf; eauto.
Qed.

Lemma keep_finallyA {A} (t : Async A) fin :
  stretches_keep P t -> preserves P fin -> stretches_keep P (finallyA t fin).
Proof.
  intros Ht Hf. induction t as [r | next IH] using Async_induction; cbn.
  - intros w Hw. apply keep_settle_finally; assumption.
  - intros w Hw. destruct (Ht w Hw) as [Hw' Hrest]. specialize (IH w).
    destruct (next w) as [rest w']. cbn in *.
    destruct rest as [r | next']; [apply keep_settle_finally; assumption |].
    cbn [fst snd]. auto.
Qed.

(** While every operation in flight keeps [P] in each of its stretches,
    so does every run of them. *)
Lemma keep_resume s s' :
  resume s s' -> P (fst s) -> Forall (stretches_keep P) (snd s) ->
  P (fst s') /\ Forall (stretches_keep P) (snd s').
Proof.
  intros [w before next after rest w' Hnext] Hw Hall. cbn in *.
  apply Forall_app in Hall as [Hbefore Hall].
  apply Forall_cons in Hall as [Hnext' Hafter].
  destruct (Hnext' w Hw) as [Hw' Hrest]. rewrite Hnext in Hw', Hrest. cbn in *.
  split; [exact Hw' |].
  apply Forall_app. split; [exact Hbefore |]. apply Forall_cons. auto.
Qed.

End StretchKeeping.

Ltac stretch_step HK :=
  lazymatch goal with
  | |- stretches_keep _ (Finished _) => exact I
  | |- stretches_keep _ (abind _ _) => apply keep_abind; [| intros ?]
  | |- stretches_keep _ (try_catchA _ _) => apply keep_try_catchA; [| intros ?]
  | |- stretches_keep _ (finallyA _ _) => apply keep_finallyA
  | |- stretches_keep _ (discard _) => apply keep_discard
  | |- stretches_keep _ (await _) => apply keep_await
  | |- stretches_keep _ (sync _ _) => apply keep_sync; [| intros ?]
  | |- stretches_keep _ (match ?x with _ => _ end) => destruct x
  end.

Ltac stretches HK := cbv zeta; repeat stretch_step HK.

Lemma keep_incrementFailureCountA (i : StoreImpl) (key : string) (P : World -> Prop) :
  Kept i key P -> stretches_keep P (incrementFailureCountA i key).
Proof.
  intros HK. destruct i; cbn [incrementFailureCountA].
  - unfold InMemoryStateStore.incrementFailureCountA. stretches HK.
    all: first [ apply (preserves_getState InMemory)
               | apply (keeps_Date_now HK)
               | apply (keeps_setState HK) ].
  - unfold EtcdStateStore.incrementFailureCountA. stretches HK.
    all: first [ apply (preserves_getState Etcd)
               | apply (keeps_Date_now HK)
               | apply (keeps_setState HK) ].
Qed.

Section OperationKeeping.
Context {i : StoreImpl} {key : string} {P : World -> Prop} (HK : Kept i key P).
Variable opts : CircuitBreakerOptions.
Let b := mkBreaker key (store_of i) opts.

Lemma keep_initializeStateA : stretches_keep P (initializeStateA i key).
Proof. unfold initializeStateA. stretches HK. all: keeps HK. Qed.

Lemma keep_updateStatsA st upd : stretches_keep P (updateStatsA i key opts st upd).
Proof. apply keep_await, (keeps_updateStats HK). Qed.

Lemma keep_transitionToHalfOpenA : stretches_keep P (transitionToHalfOpenA i key opts).
Proof.
  unfold transitionToHalfOpenA, updateStatsA. stretches HK.
  all: first [apply (keeps_updateStats HK) | keeps HK].
Qed.

Lemma keep_transitionToOpenA e : stretches_keep P (transitionToOpenA i key opts e).
Proof.
  unfold transitionToOpenA, updateStatsA. stretches HK.
  all: first [apply (keeps_updateStats HK) | apply preserves_readMessage | keeps HK].
Qed.

Lemma keep_transitionToClosedA : stretches_keep P (transitionToClosedA i key opts).
Proof.
  unfold transitionToClosedA, updateStatsA. stretches HK.
  all: first [apply (keeps_updateStats HK) | keeps HK].
Qed.

Lemma keep_recordSuccessA : stretches_keep P (recordSuccessA i key opts).
Proof.
  unfold recordSuccessA, updateStatsA. stretches HK.
  all: first [apply (keeps_updateStats HK) | keeps HK].
Qed.

Lemma keep_recordFailureA e : stretches_keep P (recordFailureA i key opts e).
Proof.
  unfold recordFailureA, updateStatsA. stretches HK.
  all: first [ apply keep_incrementFailureCountA, HK | apply keep_transitionToOpenA
             | apply (keeps_updateStats HK) | apply preserves_readMessage | keeps HK ].
Qed.

Lemma keep_performHealthCheckA : stretches_keep P (performHealthCheckA i key opts).
Proof.
  unfold performHealthCheckA. stretches HK.
  all: first [apply keep_transitionToHalfOpenA | keeps HK].
Qed.

Lemma keep_execute_loadA : stretches_keep P (execute_loadA i key opts).
Proof.
  unfold execute_loadA, nonNullA. stretches HK.
  all: first [ apply keep_initializeStateA | apply keep_transitionToHalfOpenA | keeps HK ].
Qed.

Lemma keep_execute_requestA {T} st requestId start (call : ServiceCall T) :
  stretches_keep P (execute_requestA i key opts st requestId start call).
Proof.
  unfold execute_requestA. stretches HK.
  all: first [ apply keep_recordSuccessA | apply keep_transitionToClosedA
             | apply keep_recordFailureA | apply (keeps_race HK)
             | apply (keeps_recordResponseTime HK) | keeps HK ].
Qed.

Lemma keep_executeA {T} (call : ServiceCall T) : stretches_keep P (executeA i key opts call).
Proof.
  unfold executeA.
  apply keep_abind; [apply keep_execute_loadA | intros stats].
  apply keep_sync; [apply (keeps_execute_enter HK) | intros admitted].
  apply keep_execute_requestA.
Qed.

Lemma keep_opTask {T} (op : BreakerOp T) : stretches_keep P (opTask i key opts op).
Proof.
  destruct op as [call | | | | e | | | e]; cbn [opTask].
  - apply keep_discard, keep_executeA.
  - apply keep_performHealthCheckA.
  - apply keep_sync; [apply (keeps_updateMetrics HK) | intros _; exact I].
  - apply keep_transitionToHalfOpenA.
  - apply keep_transitionToOpenA.
  - apply keep_transitionToClosedA.
  - apply keep_recordSuccessA.
  - apply keep_recordFailureA.
Qed.

(** A property kept by everything the breaker does holds throughout its
    use, whatever is called and in whatever order the stretches run. *)
Lemma keep_in_use {T} s s' :
  rtc (in_use T i key opts) s s' ->
  P (fst s) -> Forall (stretches_keep P) (snd s) ->
  P (fst s') /\ Forall (stretches_keep P) (snd s').
Proof.
  induction 1 as [s | s1 s2 s3 Hstep _ IH]; intros Hw Hall; [auto |].
  apply IH.
  - destruct Hstep as [w tasks op | s1 s2 Hres]; [exact Hw |].
    exact (proj1 (keep_resume _ _ Hres Hw Hall)).
  - destruct Hstep as [w tasks op | s1 s2 Hres].
    + cbn in *. apply Forall_app. split; [exact Hall |].
      apply Forall_cons. split; [apply keep_opTask | constructor].
    + exact (proj2 (keep_resume _ _ Hres Hw Hall)).
Qed.

Lemma kept_in_use {T} w w' tasks :
  rtc (in_use T i key opts) (w, []) (w', tasks) -> P w -> P w'.
Proof.
  intros Hrun Hw.
  exact (proj1 (keep_in_use _ _ Hrun Hw (Forall_nil_2 _))).
Qed.

End OperationKeeping.

(** *** Two instances *)

Lemma errorTimes_deliver k' k ev w :
  errorTimes (local_of k (deliver k' ev w)) = errorTimes (local_of k w).
Proof.
  unfold deliver. rewrite local_of_updateLocal.
  destruct (decide (k' = k)) as [-> |]; reflexivity.
Qed.

Lemma errorTimes_notifyAll k subs v : forall w,
  errorTimes (local_of k (InMemoryStateStore.notifyAll subs v w))
  = errorTimes (local_of k w).
Proof.
  induction subs as [| s subs IH]; intros w; [reflexivity |].
  rewrite notifyAll_cons, IH. apply errorTimes_deliver.
Qed.

Lemma errorTimes_putW i key k v w :
  errorTimes (local_of k (putW i key v w)) = errorTimes (local_of k w).
Proof. destruct i; cbn [putW]; [rewrite errorTimes_notifyAll |]; reflexivity. Qed.

Lemma errorTimes_within_kept i key k times : Kept i key (errorTimes_within k times).
Proof.
  unfold errorTimes_within. split; try (intros; assumption).
  - intros v w Hw. rewrite errorTimes_putW. exact Hw.
  - intros ev w _ Hw. rewrite errorTimes_deliver. exact Hw.
  - intros f w Hf Hw. rewrite local_of_updateLocal.
    destruct (decide (key = k)) as [-> |]; [| exact Hw].
    etrans; [apply (Hf (local_of k w)) | exact Hw].
Qed.

Lemma record_is_kept i key k v : k <> key -> Kept i key (record_is i k v).
Proof.
  intros Hne. unfold record_is. split; try (intros; assumption).
  intros v' w Hw. rewrite lookupW_putW_ne by exact Hne. exact Hw.
Qed.

Lemma only_emittable_deliver k ev w :
  emittable ev = true -> only_emittable w -> only_emittable (deliver k ev w).
Proof.
  intros Hev Hw k'. rewrite emitted_deliver_other.
  apply Forall_app. split; [apply Hw |].
  destruct (decide (k = k')); repeat constructor. exact Hev.
Qed.

Lemma only_emittable_notifyAll subs v : forall w,
  only_emittable w -> only_emittable (InMemoryStateStore.notifyAll subs v w).
Proof.
  induction subs as [| s subs IH]; intros w Hw; [exact Hw |].
  rewrite notifyAll_cons. apply IH, only_emittable_deliver; [reflexivity | exact Hw].
Qed.

Lemma only_emittable_kept i key : Kept i key only_emittable.
Proof.
  split; try (intros; assumption).
  - intros v w Hw. destruct i; cbn [putW]; [| exact Hw].
    apply only_emittable_notifyAll. exact Hw.
  - intros ev w Hev Hw. apply only_emittable_deliver; assumption.
  - intros f w Hf Hw k. rewrite local_of_updateLocal.
    destruct (decide (key = k)) as [-> |]; [| apply Hw].
    rewrite (proj2 (Hf (local_of k w))). apply Hw.
Qed.

(** Calling operations, and letting those in flight take turns, is a
    use of the breaker. *)
Lemma in_use_called {T} i key opts (ops : list (BreakerOp T)) : forall w tasks,
  rtc (in_use T i key opts) (w, tasks) (w, tasks ++ (opTask i key opts <$> ops)).
Proof.
  induction ops as [| op ops IH]; intros w tasks.
  - rewrite app_nil_r. reflexivity.
  - eapply rtc_l; [apply (in_use_call T i key opts w tasks op) |].
    rewrite fmap_cons.
    replace (tasks ++ opTask i key opts op :: (opTask i key opts <$> ops))
      with ((tasks ++ [opTask i key opts op]) ++ (opTask i key opts <$> ops))
      by (rewrite <- app_assoc; reflexivity).
    apply IH.
Qed.

Lemma in_use_scheduled {T} i key opts turns s :
  rtc (in_use T i key opts) s (schedule turns s).
Proof.
  eapply (rtc_subrel resume); [| apply schedule_run].
  intros s1 s2 Hres. apply in_use_resume, Hres.
Qed.

Lemma probe_use_run :
  rtc (in_use unit InMemory "payment-0" (options probe_breaker)) (probe_world, []) probe_use.
Proof.
  etrans; [apply (in_use_called InMemory "payment-0" _ probe_calls) |].
  apply in_use_scheduled.
Qed.

Lemma timeout_use_run :
  rtc (in_use unit InMemory "payment-0" (options probe_breaker)) (probe_world, [])
    timeout_use.
Proof.
  etrans; [apply (in_use_called InMemory "payment-0" _ timeout_calls) |].
  apply in_use_scheduled.
Qed.

(** [X5] Whatever a breaker does (calls through [execute] with any outcome,
    health-check and metrics ticks, transitions, accounting, any number
    of them in flight together and their stretches in any order), the
    records of all other service keys stay as they were: a breaker writes
    to the store under its own key only. *)
Theorem breaker_leaves_other_records {T} (i : StoreImpl) (key : string)
    (opts : CircuitBreakerOptions) (k : string) (w w' : World) (tasks : list (Async unit)) :
  k <> key ->
  rtc (in_use T i key opts) (w, []) (w', tasks) ->
  fst (getState (store_of i) k w') = fst (getState (store_of i) k w).
Proof.
  intros Hne Hrun.
  rewrite !getState_run. cbn [fst]. f_equal.
  exact (kept_in_use (record_is_kept i key k (lookupW i k w) Hne) opts w w' tasks Hrun eq_refl).
Qed.

Lemma breaker_leaves_other_records_witness :
  "payment-1" <> "payment-0" /\
  rtc (in_use unit InMemory "payment-0" (options probe_breaker)) (probe_world, [])
    probe_use /\
  (state <$> kv (fst probe_use) !! "payment-0") = Some OPEN /\
  fst (getState (store_of InMemory) "payment-1" (fst probe_use)) = Ok None.
Proof.
  assert (Hne : "payment-1" <> "payment-0") by discriminate.
  split; [exact Hne |]. split; [exact probe_use_run |].
  split; [vm_compute; reflexivity |].
  rewrite (breaker_leaves_other_records (T := unit) InMemory "payment-0" (options probe_breaker)
             "payment-1" probe_world (fst probe_use) (snd probe_use) Hne).
  - reflexivity.
  - rewrite <- surjective_pairing. exact probe_use_run.
Defined.

(** ** Computations that always fulfil *)

Lemma settles_ret {A} (a : A) : settles (ret a).
Proof. intros w. eexists _, _. reflexivity. Qed.

Lemma settles_bind {A B} (m : M A) (k : A -> M B) :
  settles m -> (forall a, settles (k a)) -> settles (bind m k).
Proof.
  intros Hm Hk w. destruct (Hm w) as (a & w1 & Hrun).
  destruct (Hk a w1) as (c & w2 & Hrun2).
  exists c, w2. rewrite (bind_Ok _ _ _ _ _ Hrun). exact Hrun2.
Qed.

Lemma settles_try_catch {A} (body : M A) handler :
  settles body -> settles (try_catch body handler).
Proof.
  intros Hb w. destruct (Hb w) as (a & w1 & Hrun).
  exists a, w1. unfold try_catch. rewrite Hrun. reflexivity.
Qed.

Lemma settles_Date_now : settles Date_now.
Proof. intros w. eexists _, _. reflexivity. Qed.

Lemma settles_getLocal k : settles (getLocal k).
Proof. intros w. eexists _, _. reflexivity. Qed.

Lemma settles_modifyLocal k f : settles (modifyLocal k f).
Proof. intros w. eexists _, _. reflexivity. Qed.

Lemma settles_emit k ev : settles (emit k ev).
Proof. intros w. eexists _, _. reflexivity. Qed.

Lemma settles_getState i k : settles (getState (store_of i) k).
Proof. intros w. eexists _, _. apply getState_run. Qed.

Lemma settles_setState i k v : settles (setState (store_of i) k v).
Proof. intros w. eexists _, _. apply setState_run. Qed.

Lemma settles_watchState i k sub : settles (watchState (store_of i) k sub).
Proof. intros w. destruct i; eexists _, _; reflexivity. Qed.

Ltac settle_step :=
  first
    [ apply settles_ret
    | apply settles_Date_now
    | apply settles_getLocal
    | apply settles_modifyLocal
    | apply settles_emit
    | apply settles_getState
    | apply settles_setState
    | apply settles_watchState
    | apply settles_bind; [| intros ?]
    | apply settles_try_catch
    | match goal with
      | |- settles (match ?x with _ => _ end) => destruct x
      | |- settles (if ?c then _ else _) => destruct c
      end
    | assumption ].

Ltac settle := cbv zeta; repeat settle_step.

Section Settling.
Variables (i : StoreImpl) (key : string) (opts : CircuitBreakerOptions).
Let b := mkBreaker key (store_of i) opts.

Lemma settles_initializeState : settles (initializeState b).
Proof. unfold initializeState. settle. Qed.

Lemma settles_updateStats st upd : settles (updateStats b st upd).
Proof. unfold updateStats. settle. Qed.

Lemma settles_transitionToHalfOpen : settles (transitionToHalfOpen b).
Proof. unfold transitionToHalfOpen. settle. all: apply settles_updateStats. Qed.

Lemma settles_updateMetrics : settles (updateMetrics b).
Proof. unfold updateMetrics. settle. Qed.

Lemma settles_watchStateChanges : settles (watchStateChanges b).
Proof. unfold watchStateChanges. settle. Qed.

Lemma settles_performHealthCheck : settles (performHealthCheck b).
Proof. unfold performHealthCheck. settle. all: apply settles_transitionToHalfOpen. Qed.

Lemma settles_init : settles (init b).
Proof.
  unfold init. apply settles_try_catch.
  apply settles_bind; [apply settles_initializeState | intros _].
  apply settles_bind; [apply settles_updateMetrics | intros _].
  apply settles_bind; [apply settles_watchStateChanges | intros _].
  apply settles_performHealthCheck.
Qed.

End Settling.

(** The constructor always yields the breaker, with the defaults filled
    in; running its [init] to the end cannot fail on the two stores. *)
Lemma newBreaker_run i key o w :
  exists w',
    newBreaker key (store_of i) o w
    = (Ok (mkBreaker key (store_of i) (constructorOptions o)), w') /\
    errorTimes (local_of key w') = [] /\
    activeRequests (local_of key w') = ∅.
Proof.
  set (b := mkBreaker key (store_of i) (constructorOptions o)).
  set (w1 := set_locals (<[key := newLocal (clock w (tick w))]> (locals w))
               (set_tick (S (tick w)) w)).
  destruct (settles_init i key (constructorOptions o) w1) as ([] & w2 & Hinit).
  assert (Hrun : newBreaker key (store_of i) o w = (Ok b, w2)).
  { unfold newBreaker. cbv zeta. run (Date_now_run w).
    unfold bind at 1.
    assert (Htc : try_catch (init b) (fun _ => ret tt) w1 = (Ok tt, w2))
      by (unfold try_catch; fold b in Hinit; rewrite Hinit; reflexivity).
    exact (bind_Ok _ (fun _ => ret b) _ _ _ Htc). }
  exists w2. split; [exact Hrun |]. split.
  - apply sublist_nil_r.
    refine (keeps_init (errorTimes_within_kept i key key []) (constructorOptions o)
              w1 _ _ Hinit _).
    unfold errorTimes_within, w1, local_of. cbn. rewrite lookup_insert_eq. reflexivity.
  - exact (proj2 (newBreaker_active_empty i key o w b w2 Hrun)).
Qed.

(** ** The metrics timer *)

Section MetricsRuns.
Variables (i : StoreImpl) (key : string) (opts : CircuitBreakerOptions).
Let b := mkBreaker key (store_of i) opts.

Lemma updateMetrics_run w :
  let l := local_of key w in
  let now := clock w (tick w) in
  exists w',
    updateMetrics b w = (Ok tt, w') /\
    metrics (local_of key w') = metricsAt now l /\
    emitted (local_of key w') = emitted l ++ [metricsTick (metricsAt now l)] /\
    activeRequests (local_of key w') = activeRequests l /\
    requestTimes (local_of key w')
    = (if decide (10000 <= now - lastMetricsUpdate l)
       then filter (fun time => now - 60000 < time) (requestTimes l)
       else requestTimes l) /\
    lastMetricsUpdate (local_of key w') = now /\
    kv w' = kv w /\
    tick w' = S (tick w) /\
    watchers w' = watchers w.
Proof.
  cbv zeta. unfold updateMetrics.
  run (Date_now_run w). run (getLocal_run (serviceKey b) (set_tick (S (tick w)) w)).
  rewrite (bind_Ok _ _ _ _ _ (modifyLocal_run _ _ _)).
  change (local_of (serviceKey b) (set_tick (S (tick w)) w)) with (local_of key w).
  destruct (decide (10000 <= clock w (tick w) - lastMetricsUpdate (local_of key w))).
  - rewrite (bind_Ok _ _ _ _ _ (modifyLocal_run _ _ _)).
    rewrite (bind_Ok _ _ _ _ _ (emit_run _ _ _)).
    rewrite modifyLocal_run.
    eexists. split; [reflexivity |].
    unfold deliver. rewrite !local_of_updateLocal, !decide_True by reflexivity.
    cbn. repeat split.
  - unfold bind at 1. cbn [ret].
    rewrite (bind_Ok _ _ _ _ _ (emit_run _ _ _)).
    rewrite modifyLocal_run.
    eexists. split; [reflexivity |].
    unfold deliver. rewrite !local_of_updateLocal, !decide_True by reflexivity.
    cbn. repeat split.
Qed.

End MetricsRuns.

(** [X6] A tick of the metrics timer leaves the store alone and publishes what
    it stored: [getMetrics] afterwards answers the metrics carried by the
    [metrics] event just emitted. Their [currentLoad] is the number of
    requests in flight, the last-minute total counts the request times of
    the last 60 s, and successes and failures of the last minute add up to
    the total. *)
Theorem updateMetrics_publishes (b : HighPerformanceCircuitBreaker) (w : World) :
  let l := local_of (serviceKey b) w in
  let now := clock w (tick w) in
  exists w' m,
    updateMetrics b w = (Ok tt, w') /\
    getMetrics b w' = (Ok m, w') /\
    emitted (local_of (serviceKey b) w') = emitted l ++ [metricsTick m] /\
    kv w' = kv w /\
    Metrics.currentLoad m = Z.of_nat (size (activeRequests l)) /\
    Metrics.totalRequests (Metrics.lastMinuteStats m)
    = Z.of_nat (length (filter (fun time => now - 60000 < time) (requestTimes l))) /\
    Metrics.totalRequests (Metrics.lastMinuteStats m)
    = Metrics.successfulRequests (Metrics.lastMinuteStats m)
      + Metrics.failedRequests (Metrics.lastMinuteStats m).
Proof.
  cbv zeta. destruct b as [key store opts].
  assert (Hrun : exists w',
            updateMetrics (mkBreaker key store opts) w = (Ok tt, w') /\
            metrics (local_of key w') = metricsAt (clock w (tick w)) (local_of key w) /\
            emitted (local_of key w')
            = emitted (local_of key w)
              ++ [metricsTick (metricsAt (clock w (tick w)) (local_of key w))] /\
            kv w' = kv w).
  { destruct (updateMetrics_run InMemory key opts w)
      as (w' & Hrun & Hm & Hev & _ & _ & _ & Hkv & _).
    exists w'. split; [exact Hrun |]. split; [exact Hm |]. split; [exact Hev | exact Hkv]. }
  destruct Hrun as (w' & Hrun & Hm & Hev & Hkv).
  exists w', (metricsAt (clock w (tick w)) (local_of key w)).
  split; [exact Hrun |]. split.
  { unfold getMetrics. run (getLocal_run key w'). cbn [serviceKey]. rewrite Hm. reflexivity. }
  split; [exact Hev |]. split; [exact Hkv |]. cbn.
  split; [reflexivity |]. split; [reflexivity |]. lia.
Qed.

(** [X7] No operation of a breaker adds to [errorTimes]: the field starts
    empty and is only ever filtered. So, whatever calls (failing ones
    included), ticks, transitions and accounting were made since the
    breaker was constructed, in flight together or not, [errorTimes] is
    empty, [calculateErrorRate] answers 0, and the metrics of the next
    tick report an error rate of 0 and no failed request in the last
    minute. *)
Theorem errorTimes_never_recorded {T} (i : StoreImpl) (key : string)
    (o : PartialOptions) (w0 w : World) (tasks : list (Async unit)) :
  let b := mkBreaker key (store_of i) (constructorOptions o) in
  rtc (in_use T i key (constructorOptions o))
    (snd (newBreaker key (store_of i) o w0), []) (w, tasks) ->
  let ticked := snd (updateMetrics b w) in
  fst (newBreaker key (store_of i) o w0) = Ok b /\
  errorTimes (local_of key w) = [] /\
  calculateErrorRate (local_of key w) = 0%Q /\
  (Metrics.errorRate (metrics (local_of key ticked)) == 0)%Q /\
  Metrics.failedRequests (Metrics.lastMinuteStats (metrics (local_of key ticked))) = 0.
Proof.
  cbv zeta. intros Hrun.
  destruct (newBreaker_run i key o w0) as (w1 & Hnew & Hempty & _).
  rewrite Hnew in *. cbn [fst snd] in *. split; [reflexivity |].
  set (b := mkBreaker key (store_of i) (constructorOptions o)).
  assert (Hw : errorTimes (local_of key w) = []).
  { apply sublist_nil_r.
    apply (kept_in_use (errorTimes_within_kept i key key []) (constructorOptions o)
             w1 w tasks Hrun).
    unfold errorTimes_within. rewrite Hempty. reflexivity. }
  split; [exact Hw |]. split.
  { unfold calculateErrorRate. rewrite Hw. reflexivity. }
  destruct (updateMetrics_run i key (constructorOptions o) w)
    as (w2 & Hrun2 & Hm & _).
  fold b in Hrun2. rewrite Hrun2. cbn [snd]. rewrite Hm.
  unfold metricsAt. cbn. rewrite Hw. split; reflexivity.
Qed.

Lemma errorTimes_never_recorded_witness :
  exists w tasks,
    rtc (in_use unit InMemory "payment-0" (constructorOptions noOptions))
      (snd (newBreaker "payment-0" (store_of InMemory) noOptions empty_world), [])
      (w, tasks) /\
    (failedRequests <$> kv w !! "payment-0") = Some 1 /\
    errorTimes (local_of "payment-0" w) = [] /\
    calculateErrorRate (local_of "payment-0" w) = 0%Q.
Proof.
  set (start := snd (newBreaker "payment-0" (store_of InMemory) noOptions empty_world)).
  set (calls := [OpExecute (@Rejects unit (ErrorObject "boom"))]).
  set (used := schedule (replicate 12 0%nat)
                 (start, opTask InMemory "payment-0" (constructorOptions noOptions)
                           <$> calls)).
  assert (Hrun : rtc (in_use unit InMemory "payment-0" (constructorOptions noOptions))
                   (start, []) (fst used, snd used)).
  { rewrite <- surjective_pairing.
    etrans; [apply (in_use_called InMemory "payment-0" _ calls) |].
    apply in_use_scheduled. }
  exists (fst used), (snd used). split; [exact Hrun |].
  split; [vm_compute; reflexivity |].
  destruct (errorTimes_never_recorded (T := unit) InMemory "payment-0" noOptions empty_world
              (fst used) (snd used) Hrun) as (_ & H1 & H2 & _).
  split; [exact H1 | exact H2].
Defined.

(** ** Requests, outcome by outcome *)

Section CallRuns.
Variables (i : StoreImpl) (key : string) (opts : CircuitBreakerOptions).
Let b := mkBreaker key (store_of i) opts.

Lemma activeRequests_putW k v w :
  activeRequests (local_of key (putW i k v w)) = activeRequests (local_of key w).
Proof.
  exact (stable_putW (active_is_stable key (activeRequests (local_of key w))) i k v w eq_refl).
Qed.

Lemma emitted_putW k v w :
  exists evs, emitted (local_of key (putW i k v w)) = emitted (local_of key w) ++ evs.
Proof.
  destruct i; cbn [putW].
  - rewrite emitted_notifyAll. eexists. reflexivity.
  - exists []. rewrite app_nil_r. reflexivity.
Qed.

Lemma lookupW_released k requestId w :
  lookupW i key (released k requestId w) = lookupW i key w.
Proof. reflexivity. Qed.

Lemma emitted_released requestId w :
  exists requestRate errorRate averageResponseTime concurrentRequests,
    emitted (local_of key (released key requestId w))
    = emitted (local_of key w)
      ++ [metricsCall requestRate errorRate averageResponseTime concurrentRequests].
Proof.
  unfold released. cbv zeta. rewrite emitted_deliver.
  rewrite local_of_updateLocal, decide_True by reflexivity.
  eexists _, _, _, _. reflexivity.
Qed.

(** A request whose thunk resolves. *)
Lemma execute_request_resolves {T} st requestId start (v : T) w :
  lookupW i key w = Some st ->
  exists w' st',
    execute_request b st requestId start (Resolves v) w = (Ok v, w') /\
    lookupW i key w' = Some st' /\
    totalRequests st' = totalRequests st + 1 /\
    successfulRequests st' = successfulRequests st + 1 /\
    lastFailureTime st' = lastFailureTime st /\
    lastError st' = lastError st /\
    (if decide (state st = HALF_OPEN)
     then state st' = CLOSED /\ failureCount st' = 0 /\ failedRequests st' = 0 /\
          lastSuccessTime st' = Some (clock w (S (S (S (tick w))))) /\
          exists evs ev,
            emitted (local_of key w')
            = emitted (local_of key w) ++ evs ++ [stateChange HALF_OPEN CLOSED; ev]
     else state st' = state st /\ failureCount st' = failureCount st /\
          failedRequests st' = failedRequests st /\
          lastSuccessTime st' = Some (clock w (S (tick w)))) /\
    invocations w' = S (invocations w) /\
    clock w' = clock w /\
    activeRequests (local_of key w') = activeRequests (local_of key w) ∖ {[requestId]}.
Proof.
  intros Hst.
  set (w1 := set_invocations (S (invocations w)) w).
  set (w2 := updateLocal key
               (fun l => set_responseTimes (responseTimes l ++ [clock w1 (tick w1) - start]) l)
               (set_tick (S (tick w1)) w1)).
  assert (Hw2 : lookupW i key w2 = Some st) by exact Hst.
  assert (Hact2 : forall n, activeRequests (local_of key (set_tick n w2))
                            = activeRequests (local_of key w)).
  { intros n. change (local_of key (set_tick n w2)) with (local_of key w2).
    unfold w2. rewrite local_of_updateLocal, decide_True by reflexivity. reflexivity. }
  pose proof (recordSuccess_run i key opts st w2 Hw2) as Hsucc.
  set (w3 := putW i key _ _) in Hsucc.
  assert (Hw3 : lookupW i key w3
                = Some (succeeded (clock w2 (tick w2)) (clock w2 (S (tick w2)))
                          (local_of key w2) st))
    by (unfold w3; wsimpl; reflexivity).
  assert (Hbody : forall w4,
            (if decide (state st = HALF_OPEN) then transitionToClosed b else ret tt) w3
            = (Ok tt, w4) ->
            execute_request b st requestId start (Resolves v) w
            = (Ok v, released key requestId w4)).
  { intros w4 Hw4. unfold execute_request.
    eapply try_catch_finally_Ok; [| apply finally_run].
    run (race_resolves i key opts v w). run (Date_now_run w1).
    unfold recordResponseTime.
    rewrite (bind_Ok _ _ _ _ _ (modifyLocal_run _ _ _)).
    run Hsucc. run Hw4. reflexivity. }
  destruct (decide (state st = HALF_OPEN)) as [Hhalf | Hother].
  - pose proof (transitionToClosed_run i key opts _ w3 Hw3) as Hclose.
    cbn [state succeeded with_lastUpdateTime with_currentLoad with_averageResponseTime
         with_lastSuccessTime with_totalRequests with_successfulRequests] in Hclose.
    rewrite Hhalf in Hclose. specialize (Hclose ltac:(discriminate)).
    eexists _, _. split; [apply Hbody, Hclose |].
    rewrite lookupW_released. wsimpl. split; [reflexivity |].
    repeat split.
    all: try (unfold released, w3, w2, w1; repeat (progress (cbn; wsimpl)); reflexivity).
    { match goal with
      | |- context [released key requestId ?w4] =>
          destruct (emitted_released requestId w4) as (r1 & r2 & r3 & n & Hev)
      end.
      rewrite Hev, emitted_deliver.
      match goal with
      | |- context [putW i key ?v1 (set_tick ?n w3)] =>
          destruct (emitted_putW key v1 (set_tick n w3)) as (evs2 & ->)
      end.
      change (local_of key (set_tick ?n ?w0)) with (local_of key w0).
      unfold w3 at 1.
      match goal with
      | |- context [putW i key ?v1 (set_tick ?n w2)] =>
          destruct (emitted_putW key v1 (set_tick n w2)) as (evs1 & ->)
      end.
      change (local_of key (set_tick ?n ?w0)) with (local_of key w0).
      assert (Hem2 : emitted (local_of key w2) = emitted (local_of key w)).
      { unfold w2. rewrite local_of_updateLocal, decide_True by reflexivity. reflexivity. }
      rewrite Hem2, <- !app_assoc. exists (evs1 ++ evs2). eexists.
      rewrite <- !app_assoc. reflexivity. }
    rewrite active_released.
    unfold deliver. rewrite local_of_updateLocal, decide_True by reflexivity.
    cbn [activeRequests set_emitted]. rewrite activeRequests_putW.
    change (local_of key (set_tick ?n ?w0)) with (local_of key w0).
    unfold w3. rewrite activeRequests_putW, Hact2. reflexivity.
  - eexists _, _. split; [apply Hbody; reflexivity |].
    rewrite lookupW_released. split; [exact Hw3 |].
    repeat split.
    all: try (unfold released, w3, w2, w1; repeat (progress (cbn; wsimpl)); reflexivity).
    rewrite active_released. unfold w3. rewrite activeRequests_putW, Hact2. reflexivity.
Qed.


Lemma invocations_afterFailure e st w :
  invocations (afterFailure i key e st w) = invocations w.
Proof. unfold afterFailure. repeat (progress (cbn; wsimpl)). reflexivity. Qed.

Lemma invocations_released k requestId w :
  invocations (released k requestId w) = invocations w.
Proof. reflexivity. Qed.

Lemma clock_released k requestId w : clock (released k requestId w) = clock w.
Proof. reflexivity. Qed.

Lemma invocations_deliver k ev w : invocations (deliver k ev w) = invocations w.
Proof. reflexivity. Qed.

Lemma clock_deliver k ev w : clock (deliver k ev w) = clock w.
Proof. reflexivity. Qed.

Lemma invocations_set_tick n w : invocations (set_tick n w) = invocations w.
Proof. reflexivity. Qed.

Lemma clock_set_tick n w : clock (set_tick n w) = clock w.
Proof. reflexivity. Qed.

Lemma failed_fields count now updated l e st :
  let stf := failed count now updated l e st in
  totalRequests stf = totalRequests st + 1 /\
  failedRequests stf = failedRequests st + 1 /\
  successfulRequests stf = successfulRequests st /\
  lastSuccessTime stf = lastSuccessTime st /\
  lastError stf = message e /\
  state stf = state st /\
  failureCount stf = count /\
  lastFailureTime stf = Some now.
Proof. repeat split. Qed.

Lemma opened_fields threshold now updated e st :
  let sto := opened threshold now updated e st in
  totalRequests sto = totalRequests st /\
  failedRequests sto = failedRequests st /\
  successfulRequests sto = successfulRequests st /\
  lastSuccessTime sto = lastSuccessTime st /\
  lastError sto = message e /\
  state sto = OPEN /\
  failureCount sto = threshold /\
  lastFailureTime sto = Some now.
Proof. repeat split. Qed.

(** A request whose call fails while the circuit is not OPEN. *)
Lemma execute_request_fails {T} st0 st requestId start (call : ServiceCall T) e w :
  lookupW i key w = Some st ->
  state st <> OPEN ->
  fails_with opts call e ->
  nullish e = false ->
  exists w' st',
    execute_request b st0 requestId start call w = (Throw e, w') /\
    lookupW i key w' = Some st' /\
    totalRequests st' = totalRequests st + 1 /\
    failedRequests st' = failedRequests st + 1 /\
    successfulRequests st' = successfulRequests st /\
    lastSuccessTime st' = lastSuccessTime st /\
    lastError st' = message e /\
    (if decide (state st = HALF_OPEN \/ failureThreshold opts <= failureCount st + 1)
     then state st' = OPEN /\ failureCount st' = failureThreshold opts /\
          lastFailureTime st' = Some (clock w (3 + tick w)%nat) /\
          exists evs ev,
            emitted (local_of key w')
            = evs ++ [stateChange (state st) OPEN; circuitOpen e; ev]
     else state st' = state st /\ failureCount st' = failureCount st + 1 /\
          lastFailureTime st' = Some (clock w (S (tick w)))) /\
    invocations w' = S (invocations w) /\
    clock w' = clock w /\
    activeRequests (local_of key w') = activeRequests (local_of key w) ∖ {[requestId]}.
Proof.
  intros Hst Hne Hfails He.
  set (w1 := set_invocations (S (invocations w)) w).
  assert (Hw1 : lookupW i key w1 = Some st) by exact Hst.
  pose proof (recordFailure_run i key opts e st w1 Hw1 He) as Hrec.
  pose proof (lookupW_afterFailure i key e st w1) as Hafter.
  pose proof (tick_afterFailure i key e st w1) as [Htick Hclock].
  pose proof (invocations_afterFailure e st w1) as Hinv.
  remember (afterFailure i key e st w1) as wf eqn:Hwf. clear Hwf.
  remember (failed (failureCount st + 1) (clock w1 (S (tick w1))) (clock w1 (S (S (tick w1))))
              (local_of key (putW i key (incremented i (clock w1 (tick w1)) st)
                               (set_tick (S (tick w1)) w1))) e st) as stf eqn:Hstf.
  pose proof (failed_fields (failureCount st + 1) (clock w1 (S (tick w1)))
                (clock w1 (S (S (tick w1))))
                (local_of key (putW i key (incremented i (clock w1 (tick w1)) st)
                                 (set_tick (S (tick w1)) w1))) e st) as Hfields.
  cbv zeta in Hfields. rewrite <- Hstf in Hfields.
  clear Hstf. destruct Hfields as (Ht & Hf & Hsu & Hls & Herr & Hstate & Hfc & Hlf).
  assert (Hexec : forall w2, recordFailure b e w1 = (Ok tt, w2) ->
            execute_request b st0 requestId start call w
            = (Throw e, released key requestId w2)).
  { intros w2 Hw2. unfold execute_request.
    apply (try_catch_finally_Throw _ _ _ _ e e w1 w2).
    - apply bind_Throw, race_fails, Hfails.
    - run Hw2. reflexivity.
    - apply finally_run. }
  assert (Hact : forall w', execute_request b st0 requestId start call w = (Throw e, w') ->
            activeRequests (local_of key w')
            = activeRequests (local_of key w) ∖ {[requestId]}).
  { intros w' Hrun.
    destruct (execute_request_active i key opts st0 requestId start call w _ _ Hrun)
      as [[_ H] | [H _]]; [exact H | discriminate H]. }
  destruct (decide (state st = HALF_OPEN \/ failureThreshold opts <= failureCount st + 1))
    as [Htrip | Hkeep].
  - rewrite (transitionToOpen_run i key opts e _ _ Hafter) in Hrec
      by first [exact He | rewrite Hstate; exact Hne].
    eexists _, _. split; [apply Hexec, Hrec |].
    rewrite lookupW_released. wsimpl. split; [reflexivity |].
    match goal with
    | |- context [opened ?th ?now ?upd e stf] =>
        destruct (opened_fields th now upd e stf)
          as (Ht' & Hf' & Hsu' & Hls' & Herr' & Hstate' & Hfc' & Hlf')
    end.
    split; [rewrite Ht'; exact Ht |]. split; [rewrite Hf'; exact Hf |].
    split; [rewrite Hsu'; exact Hsu |]. split; [rewrite Hls'; exact Hls |].
    split; [exact Herr' |].
    split.
    { split; [exact Hstate' |]. split; [exact Hfc' |]. split.
      - rewrite Hlf', Htick, Hclock. reflexivity.
      - match goal with
        | |- context [released key requestId ?w4] =>
            destruct (emitted_released requestId w4) as (r1 & r2 & r3 & n & Hev)
        end.
        rewrite Hev, !emitted_deliver, <- !app_assoc, Hstate.
        eexists _, _. reflexivity. }
    split.
    { rewrite invocations_released, !invocations_deliver, invocations_putW,
        invocations_set_tick, Hinv. reflexivity. }
    split.
    { rewrite clock_released, !clock_deliver, clock_putW, clock_set_tick, Hclock.
      reflexivity. }
    apply Hact, Hexec, Hrec.
  - eexists _, _. split; [apply Hexec, Hrec |].
    rewrite lookupW_released. split; [exact Hafter |].
    split; [exact Ht |]. split; [exact Hf |]. split; [exact Hsu |].
    split; [exact Hls |]. split; [exact Herr |].
    split; [repeat split; assumption |].
    split; [rewrite invocations_released, Hinv; reflexivity |].
    split; [rewrite clock_released, Hclock; reflexivity |].
    apply Hact, Hexec, Hrec.
Qed.

(** A request whose call never settles, with no deadline timer armed. *)
Lemma execute_request_hangs {T} st0 requestId start w :
  ~ 0 < serviceTimeout opts ->
  execute_request b st0 requestId start (@Outlasts T) w
  = (Pending, set_invocations (S (invocations w)) w).
Proof.
  intros Hnone. unfold execute_request.
  apply try_catch_finally_Pending, bind_Pending, race_hangs, Hnone.
Qed.

End CallRuns.

Section Calls.
Variables (i : StoreImpl) (key : string) (opts : CircuitBreakerOptions).
Let b := mkBreaker key (store_of i) opts.

Lemma atCapacity_active l l' :
  activeRequests l' = activeRequests l -> atCapacity b l' = atCapacity b l.
Proof. intros H. unfold atCapacity, activeSize. rewrite H. reflexivity. Qed.

(** Past the circuit check and below capacity, [execute] is the request
    itself, run with a fresh id in the world [execute_enter] leaves. *)
Lemma execute_admitted {T} (call : ServiceCall T) st1 w w1 :
  execute_load b w = (Ok st1, w1) ->
  atCapacity b (local_of key w1) = false ->
  execute b call w
  = execute_request b st1 (nextSymbol w1) (clock w1 (tick w1)) call (entered key w1).
Proof.
  intros Hload Hfree. unfold execute. run Hload.
  run (execute_enter_admit i key opts w1 Hfree). reflexivity.
Qed.

Lemma entered_shared w :
  lookupW i key (entered key w) = lookupW i key w /\
  invocations (entered key w) = invocations w /\
  clock (entered key w) = clock w /\
  tick (entered key w) = S (tick w).
Proof. repeat split. Qed.

Lemma emitted_entered w :
  emitted (local_of key (entered key w)) = emitted (local_of key w).
Proof.
  unfold entered. cbv zeta.
  rewrite local_of_updateLocal, decide_True by reflexivity. cbn [emitted set_requestTimes].
  change (local_of key (set_tick ?n ?w0)) with (local_of key w0).
  rewrite local_of_updateLocal, decide_True by reflexivity. reflexivity.
Qed.

Lemma released_entered (A : gset nat) (id : nat) : ({[id]} ∪ A) ∖ {[id]} = A ∖ {[id]}.
Proof.
  apply set_eq. intros x. rewrite !elem_of_difference, elem_of_union, elem_of_singleton.
  tauto.
Qed.

End Calls.

(** [X8] A call that succeeds on a CLOSED breaker: the caller gets the value,
    the thunk ran once, the slot is given back, and the record counts one
    more request and one more success. The failure count is left as it
    was: successes do not clear it, so the failures that trip the breaker
    need not be consecutive. *)
Theorem execute_success_keeps_failureCount {T} (b : HighPerformanceCircuitBreaker)
    (v : T) (w : World) (st : CircuitBreakerStats) :
  source_store (stateStore b) ->
  fst (getStats b w) = Ok (Some st) ->
  state st = CLOSED ->
  atCapacity b (local_of (serviceKey b) w) = false ->
  exists w' st',
    execute b (Resolves v) w = (Ok v, w') /\
    fst (getStats b w') = Ok (Some st') /\
    state st' = CLOSED /\
    failureCount st' = failureCount st /\
    totalRequests st' = totalRequests st + 1 /\
    successfulRequests st' = successfulRequests st + 1 /\
    failedRequests st' = failedRequests st /\
    lastSuccessTime st' = Some (clock w (2 + tick w)%nat) /\
    invocations w' = S (invocations w) /\
    active b w' = active b w ∖ {[nextSymbol w]}.
Proof.
  intros [i Hs] Hget Hclosed Hfree.
  destruct b as [key store opts]; cbn in *; subst store.
  rewrite getStats_run in Hget. cbn in Hget. injection Hget as Hst.
  assert (Hload : execute_load (mkBreaker key (store_of i) opts) w = (Ok st, w))
    by (apply execute_load_pass; [exact Hst | rewrite Hclosed; discriminate]).
  rewrite (execute_admitted i key opts (Resolves v) st w w Hload Hfree).
  destruct (execute_request_resolves i key opts st (nextSymbol w) (clock w (tick w)) v
              (entered key w) Hst)
    as (w' & st' & Hrun & Hst' & Ht & Hsu & _ & _ & Hcase & Hinv & _ & Hact).
  rewrite decide_False in Hcase by (rewrite Hclosed; discriminate).
  destruct Hcase as (Hstate & Hfc & Hfailed & Hlast).
  exists w', st'. split; [exact Hrun |].
  rewrite getStats_run. cbn [fst]. rewrite Hst'.
  split; [reflexivity |]. split; [congruence |]. split; [exact Hfc |].
  split; [exact Ht |]. split; [exact Hsu |]. split; [exact Hfailed |].
  split; [exact Hlast |]. split; [exact Hinv |].
  unfold active. cbn [serviceKey]. rewrite Hact, active_entered. apply released_entered.
Qed.

Lemma execute_success_keeps_failureCount_witness :
  source_store (stateStore trip_breaker) /\
  state (mkStats CLOSED 2 None None 2 0 2 None None None None None) = CLOSED /\
  exists st',
    fst (getStats trip_breaker (snd (execute trip_breaker (Resolves tt) trip_world)))
    = Ok (Some st') /\
    failureCount st' = 2 /\ successfulRequests st' = 1 /\ totalRequests st' = 3.
Proof.
  assert (Hs : source_store (stateStore trip_breaker)) by (exists InMemory; reflexivity).
  split; [exact Hs |]. split; [reflexivity |].
  destruct (execute_success_keeps_failureCount trip_breaker tt trip_world
              (mkStats CLOSED 2 None None 2 0 2 None None None None None)
              Hs eq_refl eq_refl eq_refl)
    as (w' & st' & Hrun & Hst' & _ & Hfc & Ht & Hsu & _).
  exists st'. rewrite Hrun. cbn [snd]. split; [exact Hst' |].
  rewrite Hfc, Ht, Hsu. repeat split.
Defined.

(** [X9] A call that succeeds while the breaker is HALF_OPEN closes the
    circuit: the caller gets the value and the record ends CLOSED with
    [failureCount] and [failedRequests] back at 0, one more request and one
    more success on record, and the transition is announced by
    [stateChange HALF_OPEN CLOSED], the last event before the metrics of
    the call. *)
Theorem successful_probe_closes {T} (b : HighPerformanceCircuitBreaker)
    (v : T) (w : World) (st : CircuitBreakerStats) :
  source_store (stateStore b) ->
  fst (getStats b w) = Ok (Some st) ->
  state st = HALF_OPEN ->
  atCapacity b (local_of (serviceKey b) w) = false ->
  exists w' st',
    execute b (Resolves v) w = (Ok v, w') /\
    fst (getStats b w') = Ok (Some st') /\
    state st' = CLOSED /\
    failureCount st' = 0 /\
    failedRequests st' = 0 /\
    totalRequests st' = totalRequests st + 1 /\
    successfulRequests st' = successfulRequests st + 1 /\
    lastSuccessTime st' = Some (clock w (4 + tick w)%nat) /\
    invocations w' = S (invocations w) /\
    active b w' = active b w ∖ {[nextSymbol w]} /\
    exists evs ev,
      emitted (local_of (serviceKey b) w')
      = emitted (local_of (serviceKey b) w) ++ evs ++ [stateChange HALF_OPEN CLOSED; ev].
Proof.
  intros [i Hs] Hget Hhalf Hfree.
  destruct b as [key store opts]; cbn in *; subst store.
  rewrite getStats_run in Hget. cbn in Hget. injection Hget as Hst.
  assert (Hload : execute_load (mkBreaker key (store_of i) opts) w = (Ok st, w))
    by (apply execute_load_pass; [exact Hst | rewrite Hhalf; discriminate]).
  rewrite (execute_admitted i key opts (Resolves v) st w w Hload Hfree).
  destruct (execute_request_resolves i key opts st (nextSymbol w) (clock w (tick w)) v
              (entered key w) Hst)
    as (w' & st' & Hrun & Hst' & Ht & Hsu & _ & _ & Hcase & Hinv & _ & Hact).
  rewrite decide_True in Hcase by exact Hhalf.
  destruct Hcase as (Hstate & Hfc & Hfailed & Hlast & Hev).
  exists w', st'. split; [exact Hrun |].
  rewrite getStats_run. cbn [fst]. rewrite Hst'.
  split; [reflexivity |]. split; [exact Hstate |]. split; [exact Hfc |].
  split; [exact Hfailed |]. split; [exact Ht |]. split; [exact Hsu |].
  split; [exact Hlast |]. split; [exact Hinv |].
  split; [| rewrite emitted_entered in Hev; exact Hev].
  unfold active. cbn [serviceKey]. rewrite Hact, active_entered. apply released_entered.
Qed.

Lemma successful_probe_closes_witness :
  source_store (stateStore probe_breaker) /\
  fst (getStats probe_breaker probe_world) = Ok (Some probe_record) /\
  state probe_record = HALF_OPEN /\
  exists st',
    fst (getStats probe_breaker (snd (execute probe_breaker (Resolves tt) probe_world)))
    = Ok (Some st') /\
    state st' = CLOSED /\ failureCount st' = 0 /\ failedRequests st' = 0.
Proof.
  assert (Hs : source_store (stateStore probe_breaker)) by (exists InMemory; reflexivity).
  split; [exact Hs |]. split; [reflexivity |]. split; [reflexivity |].
  destruct (successful_probe_closes probe_breaker tt probe_world probe_record
              Hs eq_refl eq_refl eq_refl)
    as (w' & st' & Hrun & Hst' & Hstate & Hfc & Hfailed & _).
  exists st'. rewrite Hrun. cbn [snd]. auto.
Defined.

(** [X10] A call made on an OPEN breaker once the cool-down has elapsed is the
    probe, and when it succeeds the circuit is closed by that same call:
    the caller gets the value, and the record goes from OPEN through
    HALF_OPEN to CLOSED with [failureCount] and [failedRequests] at 0. *)
Theorem execute_recovers_after_cooldown {T} (b : HighPerformanceCircuitBreaker)
    (v : T) (w : World) (st : CircuitBreakerStats) :
  source_store (stateStore b) ->
  fst (getStats b w) = Ok (Some st) ->
  state st = OPEN ->
  resetTimeout (options b) <= clock w (tick w) - default 0 (lastFailureTime st) ->
  atCapacity b (local_of (serviceKey b) w) = false ->
  exists w' st',
    execute b (Resolves v) w = (Ok v, w') /\
    fst (getStats b w') = Ok (Some st') /\
    state st' = CLOSED /\
    failureCount st' = 0 /\
    failedRequests st' = 0 /\
    totalRequests st' = totalRequests st + 1 /\
    successfulRequests st' = successfulRequests st + 1 /\
    invocations w' = S (invocations w) /\
    active b w' = active b w ∖ {[nextSymbol w]} /\
    exists evs evs' ev,
      emitted (local_of (serviceKey b) w')
      = emitted (local_of (serviceKey b) w)
        ++ evs ++ [stateChange OPEN HALF_OPEN] ++ evs' ++ [stateChange HALF_OPEN CLOSED; ev].
Proof.
  intros [i Hs] Hget Hopen Hdue Hfree.
  destruct b as [key store opts]; cbn in *; subst store.
  rewrite getStats_run in Hget. cbn in Hget. injection Hget as Hst.
  pose proof (execute_load_probe i key opts st w Hst Hopen Hdue) as Hload.
  set (w1 := afterHalfOpen i key st (set_tick (S (tick w)) w)) in *.
  set (st1 := halfOpened (clock w (S (tick w))) st) in *.
  assert (Hst1 : lookupW i key w1 = Some st1)
    by (unfold w1, afterHalfOpen; wsimpl; reflexivity).
  assert (Hact1 : activeRequests (local_of key w1) = activeRequests (local_of key w)).
  { unfold w1, afterHalfOpen, deliver.
    rewrite local_of_updateLocal, decide_True by reflexivity.
    cbn [activeRequests set_emitted]. rewrite activeRequests_putW. reflexivity. }
  assert (Hfree1 : atCapacity (mkBreaker key (store_of i) opts) (local_of key w1) = false)
    by (rewrite (atCapacity_active i key opts _ _ Hact1); exact Hfree).
  assert (Hsym : nextSymbol w1 = nextSymbol w)
    by (unfold w1, afterHalfOpen; cbn; wsimpl; reflexivity).
  assert (Hinv1 : invocations w1 = invocations w)
    by (unfold w1, afterHalfOpen; cbn; wsimpl; reflexivity).
  rewrite (execute_admitted i key opts (Resolves v) st1 w w1 Hload Hfree1).
  destruct (execute_request_resolves i key opts st1 (nextSymbol w1) (clock w1 (tick w1)) v
              (entered key w1) Hst1)
    as (w' & st' & Hrun & Hst' & Ht & Hsu & _ & _ & Hcase & Hinv & _ & Hact).
  rewrite decide_True in Hcase by reflexivity.
  destruct Hcase as (Hstate & Hfc & Hfailed & _ & Hev).
  exists w', st'. split; [exact Hrun |].
  rewrite getStats_run. cbn [fst]. rewrite Hst'.
  split; [reflexivity |]. split; [exact Hstate |]. split; [exact Hfc |].
  split; [exact Hfailed |]. split; [exact Ht |]. split; [exact Hsu |].
  split; [rewrite Hinv, invocations_entered, Hinv1; reflexivity |].
  split.
  { unfold active. cbn [serviceKey].
    rewrite Hact, active_entered, Hact1, Hsym. apply released_entered. }
  destruct Hev as (evs' & ev & Hev). rewrite emitted_entered in Hev.
  unfold w1, afterHalfOpen in Hev. rewrite emitted_deliver in Hev.
  match type of Hev with
  | context [putW i key ?v1 ?w0] =>
      destruct (emitted_putW i key opts key v1 w0) as (evs & Hput)
  end.
  rewrite Hput in Hev. exists evs, evs', ev. rewrite Hev, <- !app_assoc. reflexivity.
Qed.

Lemma execute_recovers_after_cooldown_witness :
  source_store (stateStore open_breaker) /\
  fst (getStats open_breaker open_world) = Ok (Some open_record) /\
  state open_record = OPEN /\
  resetTimeout (options open_breaker)
    <= clock open_world (tick open_world) - default 0 (lastFailureTime open_record) /\
  fst (execute open_breaker (Resolves tt) open_world) = Ok tt /\
  exists st',
    fst (getStats open_breaker (snd (execute open_breaker (Resolves tt) open_world)))
    = Ok (Some st') /\
    state st' = CLOSED /\ failureCount st' = 0.
Proof.
  assert (Hs : source_store (stateStore open_breaker)) by (exists Etcd; reflexivity).
  assert (Hdue : resetTimeout (options open_breaker)
                 <= clock open_world (tick open_world)
                    - default 0 (lastFailureTime open_record))
    by (vm_compute; discriminate).
  split; [exact Hs |]. split; [vm_compute; reflexivity |].
  split; [reflexivity |]. split; [exact Hdue |].
  destruct (execute_recovers_after_cooldown open_breaker tt open_world open_record
              Hs ltac:(vm_compute; reflexivity) eq_refl Hdue eq_refl)
    as (w' & st' & Hrun & Hst' & Hstate & Hfc & _).
  rewrite Hrun. cbn [fst snd]. split; [reflexivity |]. exists st'. auto.
Defined.


(** [X11] A call that fails (the thunk rejects with something other than
    [undefined] or [null], or the deadline timer fires) while the circuit
    is not OPEN: the caller gets that very error, the
    thunk ran once, the slot is given back, and the failure is counted
    once: [totalRequests] and [failedRequests] are each one more than
    before on both stores, although the store's [incrementFailureCount]
    had already raised them on its own. The circuit ends OPEN, with
    [failureCount = failureThreshold], exactly when the call was the probe
    of a HALF_OPEN breaker or the new count reached the threshold;
    otherwise the state is kept and [failureCount] is one more. *)
Theorem execute_failure_counted_once {T} (b : HighPerformanceCircuitBreaker)
    (call : ServiceCall T) (e : Thrown) (w : World) (st : CircuitBreakerStats) :
  source_store (stateStore b) ->
  fst (getStats b w) = Ok (Some st) ->
  state st <> OPEN ->
  atCapacity b (local_of (serviceKey b) w) = false ->
  fails_with (options b) call e ->
  nullish e = false ->
  exists w' st',
    execute b call w = (Throw e, w') /\
    fst (getStats b w') = Ok (Some st') /\
    totalRequests st' = totalRequests st + 1 /\
    failedRequests st' = failedRequests st + 1 /\
    successfulRequests st' = successfulRequests st /\
    lastError st' = message e /\
    (if decide (state st = HALF_OPEN \/ failureThreshold (options b) <= failureCount st + 1)
     then state st' = OPEN /\ failureCount st' = failureThreshold (options b)
     else state st' = state st /\ failureCount st' = failureCount st + 1) /\
    invocations w' = S (invocations w) /\
    active b w' = active b w ∖ {[nextSymbol w]}.
Proof.
  intros [i Hs] Hget Hne Hfree Hfails He.
  destruct b as [key store opts]; cbn in *; subst store.
  rewrite getStats_run in Hget. cbn in Hget. injection Hget as Hst.
  assert (Hload : execute_load (mkBreaker key (store_of i) opts) w = (Ok st, w))
    by (apply execute_load_pass; assumption).
  rewrite (execute_admitted i key opts call st w w Hload Hfree).
  destruct (execute_request_fails i key opts st st (nextSymbol w) (clock w (tick w)) call e
              (entered key w) Hst Hne Hfails He)
    as (w' & st' & Hrun & Hst' & Ht & Hf & Hsu & _ & Herr & Hcase & Hinv & _ & Hact).
  exists w', st'. split; [exact Hrun |].
  rewrite getStats_run. cbn [fst]. rewrite Hst'.
  split; [reflexivity |]. split; [exact Ht |]. split; [exact Hf |].
  split; [exact Hsu |]. split; [exact Herr |].
  split.
  { destruct (decide _); [destruct Hcase as (? & ? & _) | destruct Hcase as (? & ? & _)];
      split; assumption. }
  split; [exact Hinv |].
  unfold active. cbn [serviceKey]. rewrite Hact, active_entered. apply released_entered.
Qed.

Lemma execute_failure_counted_once_witness :
  source_store (stateStore probe_breaker) /\
  state probe_record <> OPEN /\
  fails_with (options probe_breaker) (@Rejects unit (ErrorObject "boom")) (ErrorObject "boom") /\
  fst (execute probe_breaker (@Rejects unit (ErrorObject "boom")) probe_world)
  = Throw (ErrorObject "boom") /\
  exists st',
    fst (getStats probe_breaker
           (snd (execute probe_breaker (@Rejects unit (ErrorObject "boom")) probe_world)))
    = Ok (Some st') /\
    state st' = OPEN /\ failedRequests st' = 4 /\ totalRequests st' = 4.
Proof.
  assert (Hs : source_store (stateStore probe_breaker)) by (exists InMemory; reflexivity).
  assert (Hne : state probe_record <> OPEN) by discriminate.
  assert (Hfails : fails_with (options probe_breaker) (@Rejects unit (ErrorObject "boom"))
                     (ErrorObject "boom")) by (left; reflexivity).
  split; [exact Hs |]. split; [exact Hne |]. split; [exact Hfails |].
  destruct (execute_failure_counted_once probe_breaker (@Rejects unit (ErrorObject "boom"))
              (ErrorObject "boom") probe_world probe_record Hs eq_refl Hne eq_refl Hfails
              eq_refl)
    as (w' & st' & Hrun & Hst' & Ht & Hf & _ & _ & Hcase & _).
  rewrite Hrun. cbn [fst snd]. split; [reflexivity |].
  exists st'. split; [exact Hst' |].
  rewrite decide_True in Hcase by (left; reflexivity).
  rewrite Ht, Hf. destruct Hcase as [-> _]. repeat split.
Defined.

(** [X12] A probe that fails re-opens the circuit whatever the threshold: a
    call on an OPEN breaker whose cool-down has elapsed is let through,
    and when it fails (with something other than [undefined] or [null])
    the caller gets the call's own error, and the record ends
    OPEN again with [failureCount = failureThreshold] and a
    [lastFailureTime] taken after the probe, so that the cool-down starts
    over. *)
Theorem failed_probe_reopens {T} (b : HighPerformanceCircuitBreaker)
    (call : ServiceCall T) (e : Thrown) (w : World) (st : CircuitBreakerStats) :
  source_store (stateStore b) ->
  fst (getStats b w) = Ok (Some st) ->
  state st = OPEN ->
  resetTimeout (options b) <= clock w (tick w) - default 0 (lastFailureTime st) ->
  atCapacity b (local_of (serviceKey b) w) = false ->
  fails_with (options b) call e ->
  nullish e = false ->
  exists w' st',
    execute b call w = (Throw e, w') /\
    fst (getStats b w') = Ok (Some st') /\
    state st' = OPEN /\
    failureCount st' = failureThreshold (options b) /\
    lastFailureTime st' = Some (clock w (6 + tick w)%nat) /\
    lastError st' = message e /\
    totalRequests st' = totalRequests st + 1 /\
    failedRequests st' = failedRequests st + 1 /\
    invocations w' = S (invocations w).
Proof.
  intros [i Hs] Hget Hopen Hdue Hfree Hfails He.
  destruct b as [key store opts]; cbn in *; subst store.
  rewrite getStats_run in Hget. cbn in Hget. injection Hget as Hst.
  pose proof (execute_load_probe i key opts st w Hst Hopen Hdue) as Hload.
  set (w1 := afterHalfOpen i key st (set_tick (S (tick w)) w)) in *.
  set (st1 := halfOpened (clock w (S (tick w))) st) in *.
  assert (Hst1 : lookupW i key w1 = Some st1)
    by (unfold w1, afterHalfOpen; wsimpl; reflexivity).
  assert (Hact1 : activeRequests (local_of key w1) = activeRequests (local_of key w)).
  { unfold w1, afterHalfOpen, deliver.
    rewrite local_of_updateLocal, decide_True by reflexivity.
    cbn [activeRequests set_emitted]. rewrite activeRequests_putW. reflexivity. }
  assert (Hfree1 : atCapacity (mkBreaker key (store_of i) opts) (local_of key w1) = false)
    by (rewrite (atCapacity_active i key opts _ _ Hact1); exact Hfree).
  assert (Hinv1 : invocations w1 = invocations w)
    by (unfold w1, afterHalfOpen; cbn; wsimpl; reflexivity).
  assert (Hclock1 : clock w1 = clock w /\ tick w1 = S (S (tick w)))
    by (unfold w1, afterHalfOpen; cbn; wsimpl; split; reflexivity).
  destruct Hclock1 as [Hclock1 Htick1].
  rewrite (execute_admitted i key opts call st1 w w1 Hload Hfree1).
  destruct (execute_request_fails i key opts st1 st1 (nextSymbol w1) (clock w1 (tick w1))
              call e (entered key w1) Hst1 ltac:(discriminate) Hfails He)
    as (w' & st' & Hrun & Hst' & Ht & Hf & _ & _ & Herr & Hcase & Hinv & _).
  rewrite decide_True in Hcase by (left; reflexivity).
  destruct Hcase as (Hstate & Hfc & Hlast & _).
  exists w', st'. split; [exact Hrun |].
  rewrite getStats_run. cbn [fst]. rewrite Hst'.
  split; [reflexivity |]. split; [exact Hstate |]. split; [exact Hfc |].
  split.
  { rewrite Hlast. cbn [entered clock tick set_tick updateLocal set_locals set_nextSymbol].
    rewrite Hclock1, Htick1. reflexivity. }
  split; [exact Herr |]. split; [exact Ht |]. split; [exact Hf |].
  rewrite Hinv, invocations_entered, Hinv1. reflexivity.
Qed.

Lemma failed_probe_reopens_witness :
  source_store (stateStore open_breaker) /\
  fst (getStats open_breaker open_world) = Ok (Some open_record) /\
  state open_record = OPEN /\
  resetTimeout (options open_breaker)
    <= clock open_world (tick open_world) - default 0 (lastFailureTime open_record) /\
  fails_with (options open_breaker) (@Outlasts unit) (ErrorObject "Service timeout") /\
  fst (execute open_breaker (@Outlasts unit) open_world)
  = Throw (ErrorObject "Service timeout") /\
  exists st',
    fst (getStats open_breaker (snd (execute open_breaker (@Outlasts unit) open_world)))
    = Ok (Some st') /\
    state st' = OPEN /\ lastFailureTime st' = Some 6106.
Proof.
  assert (Hs : source_store (stateStore open_breaker)) by (exists Etcd; reflexivity).
  assert (Hdue : resetTimeout (options open_breaker)
                 <= clock open_world (tick open_world)
                    - default 0 (lastFailureTime open_record))
    by (vm_compute; discriminate).
  assert (Hfails : fails_with (options open_breaker) (@Outlasts unit)
                     (ErrorObject "Service timeout"))
    by (right; split; [reflexivity | split; [vm_compute; reflexivity | reflexivity]]).
  split; [exact Hs |]. split; [vm_compute; reflexivity |].
  split; [reflexivity |]. split; [exact Hdue |]. split; [exact Hfails |].
  destruct (failed_probe_reopens open_breaker (@Outlasts unit) (ErrorObject "Service timeout")
              open_world open_record Hs ltac:(vm_compute; reflexivity) eq_refl Hdue eq_refl
              Hfails eq_refl)
    as (w' & st' & Hrun & Hst' & Hstate & _ & Hlast & _).
  rewrite Hrun. cbn [fst snd]. split; [reflexivity |].
  exists st'. split; [exact Hst' |]. split; [exact Hstate |].
  rewrite Hlast. vm_compute. reflexivity.
Defined.

(** [X13] With the deadline timer off ([serviceTimeout <= 0]), a call whose
    thunk never settles never settles either: [execute] stays pending, the
    thunk was invoked, nothing is accounted (the record is the one the
    admission saw), and the request keeps its slot in the in-flight set. *)
Theorem execute_hangs_without_timeout {T} (b : HighPerformanceCircuitBreaker)
    (w : World) (st : CircuitBreakerStats) :
  source_store (stateStore b) ->
  fst (getStats b w) = Ok (Some st) ->
  state st <> OPEN ->
  atCapacity b (local_of (serviceKey b) w) = false ->
  serviceTimeout (options b) <= 0 ->
  exists w',
    execute b (@Outlasts T) w = (Pending, w') /\
    fst (getStats b w') = Ok (Some st) /\
    invocations w' = S (invocations w) /\
    active b w' = {[nextSymbol w]} ∪ active b w.
Proof.
  intros [i Hs] Hget Hne Hfree Hoff.
  destruct b as [key store opts]; cbn in *; subst store.
  rewrite getStats_run in Hget. cbn in Hget. injection Hget as Hst.
  assert (Hload : execute_load (mkBreaker key (store_of i) opts) w = (Ok st, w))
    by (apply execute_load_pass; assumption).
  rewrite (execute_admitted i key opts (@Outlasts T) st w w Hload Hfree).
  rewrite (execute_request_hangs i key opts) by lia.
  eexists. split; [reflexivity |].
  rewrite getStats_run. cbn [fst]. wsimpl.
  split; [change (lookupW i key (entered key w)) with (lookupW i key w);
          rewrite Hst; reflexivity |].
  split; [reflexivity |].
  unfold active. cbn [serviceKey].
  change (local_of key (set_invocations ?n ?w0)) with (local_of key w0).
  apply active_entered.
Qed.

Lemma execute_hangs_without_timeout_witness :
  let b := mkBreaker "payment-0" InMemoryStateStore.store
             (mkOptions 3 1000 1 30000 0 (Some 10)) in
  source_store (stateStore b) /\
  serviceTimeout (options b) <= 0 /\
  fst (execute b (@Outlasts unit) trip_world) = Pending /\
  active b (snd (execute b (@Outlasts unit) trip_world)) = {[0%nat]} ∪ ∅.
Proof.
  cbv zeta.
  set (b := mkBreaker "payment-0" InMemoryStateStore.store
              (mkOptions 3 1000 1 30000 0 (Some 10))).
  assert (Hs : source_store (stateStore b)) by (exists InMemory; reflexivity).
  assert (Hoff : serviceTimeout (options b) <= 0) by (cbn; lia).
  split; [exact Hs |]. split; [exact Hoff |].
  destruct (execute_hangs_without_timeout (T:=unit) b trip_world
              (mkStats CLOSED 2 None None 2 0 2 None None None None None)
              Hs eq_refl ltac:(discriminate) eq_refl Hoff)
    as (w' & Hrun & _ & _ & Hact).
  rewrite Hrun. cbn [fst snd]. split; [reflexivity |]. rewrite Hact. reflexivity.
Defined.

(** ** A missing record *)

Section MissingRecord.
Variables (i : StoreImpl) (key : string) (opts : CircuitBreakerOptions).
Let b := mkBreaker key (store_of i) opts.

Lemma initializeState_fresh w :
  lookupW i key w = None ->
  exists st,
    initializeState b w = (Ok tt, putW i key st (set_tick (S (S (tick w))) w)) /\
    state st = CLOSED /\ failureCount st = 0 /\ totalRequests st = 0 /\
    successfulRequests st = 0 /\ failedRequests st = 0 /\
    lastFailureTime st = None /\ lastError st = None /\
    lastSuccessTime st = Some (clock w (tick w)) /\
    lastUpdateTime st = Some (clock w (S (tick w))).
Proof.
  intros Hnone. unfold initializeState.
  run (getState_run i key w). cbn. rewrite Hnone.
  run (Date_now_run w).
  run (Date_now_run (set_tick (S (tick w)) w)).
  rewrite setState_run. eexists. split; [reflexivity |]. cbn. repeat split.
Qed.

Lemma initializeState_present st w :
  lookupW i key w = Some st -> initializeState b w = (Ok tt, w).
Proof.
  intros Hst. unfold initializeState.
  run (getState_run i key w). cbn. rewrite Hst. reflexivity.
Qed.

Lemma execute_load_missing w :
  lookupW i key w = None ->
  exists st,
    execute_load b w = (Ok st, putW i key st (set_tick (S (S (tick w))) w)) /\
    state st = CLOSED /\ failureCount st = 0 /\ totalRequests st = 0 /\
    successfulRequests st = 0 /\ failedRequests st = 0.
Proof.
  intros Hnone.
  destruct (initializeState_fresh w Hnone)
    as (st & Hinit & Hclosed & Hfc & Ht & Hsu & Hf & _).
  exists st. split; [| repeat split; assumption].
  unfold execute_load.
  run (getState_run i key w). cbn. rewrite Hnone.
  unfold bind at 1.
  run Hinit.
  run (getState_run i key (putW i key st (set_tick (S (S (tick w))) w))).
  wsimpl. cbn.
  rewrite decide_False by (rewrite Hclosed; discriminate). reflexivity.
Qed.

End MissingRecord.

(** [X14] [initializeState] writes only when the key has no record: a record
    that is there is never overwritten (the world is left as it was), and
    a missing one becomes a CLOSED record with all counters at 0, no
    failure on file, and [lastSuccessTime] set to the current time. *)
Theorem initializeState_only_when_missing (b : HighPerformanceCircuitBreaker) (w : World) :
  source_store (stateStore b) ->
  match fst (getStats b w) with
  | Ok (Some st) => initializeState b w = (Ok tt, w)
  | _ =>
      exists w' st',
        initializeState b w = (Ok tt, w') /\
        fst (getStats b w') = Ok (Some st') /\
        state st' = CLOSED /\
        failureCount st' = 0 /\
        totalRequests st' = 0 /\
        successfulRequests st' = 0 /\
        failedRequests st' = 0 /\
        lastFailureTime st' = None /\
        lastError st' = None /\
        lastSuccessTime st' = Some (clock w (tick w))
  end.
Proof.
  intros [i Hs]. destruct b as [key store opts]; cbn in *; subst store.
  rewrite getStats_run. cbn [fst].
  destruct (lookupW i key w) as [st |] eqn:Hst.
  - apply (initializeState_present i key opts st w Hst).
  - destruct (initializeState_fresh i key opts w Hst)
      as (st' & Hinit & Hclosed & Hfc & Ht & Hsu & Hf & Hlf & Herr & Hls & _).
    eexists _, st'. split; [exact Hinit |].
    rewrite getStats_run. cbn [fst]. wsimpl. repeat split; assumption.
Qed.

Lemma initializeState_only_when_missing_witness :
  source_store (stateStore open_breaker) /\
  initializeState open_breaker open_world = (Ok tt, open_world) /\
  source_store (stateStore cap_breaker) /\
  exists st',
    fst (getStats cap_breaker (snd (initializeState cap_breaker empty_world)))
    = Ok (Some st') /\
    state st' = CLOSED /\ totalRequests st' = 0.
Proof.
  assert (Hs1 : source_store (stateStore open_breaker)) by (exists Etcd; reflexivity).
  assert (Hs2 : source_store (stateStore cap_breaker)) by (exists InMemory; reflexivity).
  split; [exact Hs1 |]. split.
  - exact (initializeState_only_when_missing open_breaker open_world Hs1).
  - split; [exact Hs2 |].
    destruct (initializeState_only_when_missing cap_breaker empty_world Hs2)
      as (w' & st' & Hrun & Hst' & Hclosed & _ & Ht & _).
    exists st'. rewrite Hrun. cbn [snd]. auto.
Defined.

(** [X15] The first call on a key that has no record yet creates it: [execute]
    initialises the record and goes on, so a successful call on an empty
    store leaves a CLOSED record with one request and one success. *)
Theorem execute_creates_missing_record {T} (b : HighPerformanceCircuitBreaker)
    (v : T) (w : World) :
  source_store (stateStore b) ->
  fst (getStats b w) = Ok None ->
  atCapacity b (local_of (serviceKey b) w) = false ->
  exists w' st',
    execute b (Resolves v) w = (Ok v, w') /\
    fst (getStats b w') = Ok (Some st') /\
    state st' = CLOSED /\
    failureCount st' = 0 /\
    totalRequests st' = 1 /\
    successfulRequests st' = 1 /\
    failedRequests st' = 0 /\
    invocations w' = S (invocations w).
Proof.
  intros [i Hs] Hget Hfree.
  destruct b as [key store opts]; cbn in *; subst store.
  rewrite getStats_run in Hget. cbn in Hget. injection Hget as Hnone.
  destruct (execute_load_missing i key opts w Hnone)
    as (st & Hload & Hclosed & Hfc & Ht & Hsu & Hf).
  set (w1 := putW i key st (set_tick (S (S (tick w))) w)) in *.
  assert (Hst1 : lookupW i key w1 = Some st) by (unfold w1; wsimpl; reflexivity).
  assert (Hact1 : activeRequests (local_of key w1) = activeRequests (local_of key w))
    by (unfold w1; rewrite activeRequests_putW; reflexivity).
  assert (Hfree1 : atCapacity (mkBreaker key (store_of i) opts) (local_of key w1) = false)
    by (rewrite (atCapacity_active i key opts _ _ Hact1); exact Hfree).
  assert (Hinv1 : invocations w1 = invocations w) by (unfold w1; wsimpl; reflexivity).
  rewrite (execute_admitted i key opts (Resolves v) st w w1 Hload Hfree1).
  destruct (execute_request_resolves i key opts st (nextSymbol w1) (clock w1 (tick w1)) v
              (entered key w1) Hst1)
    as (w' & st' & Hrun & Hst' & Ht' & Hsu' & _ & _ & Hcase & Hinv & _).
  rewrite decide_False in Hcase by (rewrite Hclosed; discriminate).
  destruct Hcase as (Hstate & Hfc' & Hfailed & _).
  exists w', st'. split; [exact Hrun |].
  rewrite getStats_run. cbn [fst]. rewrite Hst'.
  split; [reflexivity |]. split; [congruence |]. split; [congruence |].
  split; [lia |]. split; [lia |]. split; [congruence |].
  rewrite Hinv, invocations_entered, Hinv1. reflexivity.
Qed.

Lemma execute_creates_missing_record_witness :
  source_store (stateStore cap_breaker) /\
  fst (getStats cap_breaker empty_world) = Ok None /\
  fst (execute cap_breaker (Resolves tt) empty_world) = Ok tt /\
  exists st',
    fst (getStats cap_breaker (snd (execute cap_breaker (Resolves tt) empty_world)))
    = Ok (Some st') /\
    totalRequests st' = 1 /\ successfulRequests st' = 1.
Proof.
  assert (Hs : source_store (stateStore cap_breaker)) by (exists InMemory; reflexivity).
  split; [exact Hs |]. split; [reflexivity |].
  destruct (execute_creates_missing_record cap_breaker tt empty_world Hs eq_refl eq_refl)
    as (w' & st' & Hrun & Hst' & _ & _ & Ht & Hsu & _).
  rewrite Hrun. cbn [fst snd]. split; [reflexivity |]. exists st'. auto.
Defined.

(** ** The slot of a call *)

Section Slot.
Variables (i : StoreImpl) (key : string) (opts : CircuitBreakerOptions).
Let b := mkBreaker key (store_of i) opts.

(** The circuit check draws no symbol. *)
Lemma execute_load_nextSymbol w :
  nextSymbol (snd (execute_load b w)) = nextSymbol w.
Proof.
  unfold b.
  destruct (lookupW i key w) as [st |] eqn:Hst.
  - destruct (decide (state st = OPEN)) as [Hopen | Hne].
    + destruct (decide (resetTimeout opts
                        <= clock w (tick w) - default 0 (lastFailureTime st))) as [Hdue | Hearly].
      * rewrite (execute_load_probe i key opts st w Hst Hopen Hdue). cbn [snd].
        unfold afterHalfOpen. cbn. wsimpl. reflexivity.
      * rewrite (execute_load_reject i key opts st w Hst Hopen ltac:(lia)). reflexivity.
    + rewrite (execute_load_pass i key opts st w Hst Hne). reflexivity.
  - destruct (execute_load_missing i key opts w Hst) as (st & -> & _).
    cbn [snd]. wsimpl. reflexivity.
Qed.

Lemma execute_slot {T} (call : ServiceCall T) w :
  nextSymbol w ∉ activeRequests (local_of key w) ->
  (fst (execute b call w) <> Pending ->
   activeRequests (local_of key (snd (execute b call w))) = activeRequests (local_of key w)) /\
  (fst (execute b call w) = Pending ->
   activeRequests (local_of key (snd (execute b call w)))
   = {[nextSymbol w]} ∪ activeRequests (local_of key w)).
Proof.
  intros Hfresh.
  pose proof (execute_load_nextSymbol w) as Hsym. unfold b in *.
  destruct (execute_load_cases i key opts w) as (w1 & [Hload | (st & Hload)]).
  all: pose proof (preserves_execute_load
                     (active_is_stable key (activeRequests (local_of key w)))
                     i key opts w _ _ Hload eq_refl) as Hact.
  all: rewrite Hload in Hsym; cbn [snd] in Hsym.
  - unfold execute. rewrite (bind_Throw _ _ _ _ _ Hload). cbn [fst snd].
    split; [intros _; exact Hact | discriminate].
  - unfold execute. run Hload.
    destruct (execute_enter_cases i key opts w1) as [[_ Hrej] | [_ Hadm]].
    + rewrite (bind_Throw _ _ _ _ _ Hrej). cbn [fst snd].
      split; [intros _; exact Hact | discriminate].
    + run Hadm. cbn [fst snd].
      destruct (execute_request (mkBreaker key (store_of i) opts) st (nextSymbol w1) (clock w1 (tick w1)) call
                  (entered key w1)) as [r w'] eqn:Hrun.
      cbn [fst snd].
      destruct (execute_request_active i key opts st _ _ call _ _ _ Hrun)
        as [[Hr Hrel] | [Hr Hkeep]].
      * split; [intros _ | intros H; contradiction].
        rewrite Hrel, active_entered, Hact, Hsym, released_entered.
        apply set_eq. intros x. rewrite elem_of_difference, elem_of_singleton.
        split; [tauto |]. intros Hx. split; [exact Hx |]. intros ->. exact (Hfresh Hx).
      * split; [intros H; contradiction | intros _].
        rewrite Hkeep, active_entered, Hact, Hsym. reflexivity.
Qed.

End Slot.

(** [X16] [execute] gives its slot back whichever way it settles: when the
    call is fulfilled or rejected (by the thunk, the deadline, the circuit
    check or the concurrency check), the in-flight set is what it was
    before the call. Only a call that never settles keeps its request in
    the set. *)
Theorem execute_releases_slot {T} (b : HighPerformanceCircuitBreaker)
    (call : ServiceCall T) (w : World) :
  source_store (stateStore b) ->
  nextSymbol w ∉ active b w ->
  (fst (execute b call w) <> Pending -> active b (snd (execute b call w)) = active b w) /\
  (fst (execute b call w) = Pending ->
   active b (snd (execute b call w)) = {[nextSymbol w]} ∪ active b w).
Proof.
  intros [i Hs] Hfresh. destruct b as [key store opts]; cbn in *; subst store.
  apply (execute_slot i key opts call w Hfresh).
Qed.

Lemma execute_releases_slot_witness :
  source_store (stateStore cap_breaker) /\
  (nextSymbol full_world ∉ active cap_breaker full_world) /\
  active cap_breaker
    (snd (execute cap_breaker (@Rejects unit (ErrorObject "boom")) full_world))
  = {[7%nat]}.
Proof.
  assert (Hs : source_store (stateStore cap_breaker)) by (exists InMemory; reflexivity).
  assert (Hfresh : nextSymbol full_world ∉ active cap_breaker full_world).
  { vm_compute. intros H. discriminate H. }
  split; [exact Hs |]. split; [exact Hfresh |].
  rewrite (proj1 (execute_releases_slot cap_breaker (@Rejects unit (ErrorObject "boom"))
                    full_world Hs Hfresh)).
  - reflexivity.
  - vm_compute. discriminate.
Defined.

(** ** The health-check timer *)

Section HealthCheck.
Variables (i : StoreImpl) (key : string) (opts : CircuitBreakerOptions).
Let b := mkBreaker key (store_of i) opts.

Lemma performHealthCheck_missing w :
  lookupW i key w = None -> performHealthCheck b w = (Ok tt, w).
Proof.
  intros Hnone. unfold performHealthCheck, try_catch.
  run (getState_run i key w). cbn. rewrite Hnone. reflexivity.
Qed.

Lemma performHealthCheck_refresh_run st w :
  lookupW i key w = Some st ->
  ~ (state st = OPEN /\
     resetTimeout opts <= clock w (tick w) - default 0 (lastFailureTime st)) ->
  let l := local_of key w in
  let st' :=
    with_lastUpdateTime (Some (clock w (tick w)))
      (with_lastMinuteRequests (Some (Z.of_nat (length (requestTimes l))))
        (with_averageResponseTime (Some (calculateAverageResponseTime l))
          (with_currentLoad (Some (activeSize l)) st))) in
  performHealthCheck b w
  = (Ok tt, deliver key (healthCheck st') (putW i key st' (set_tick (S (tick w)) w))).
Proof.
  intros Hst Hnot. cbv zeta. unfold performHealthCheck, try_catch.
  run (getState_run i key w). cbn. rewrite Hst.
  run (Date_now_run w).
  rewrite decide_False by exact Hnot.
  unfold bind at 1. cbn [ret].
  run (getLocal_run (serviceKey b) (set_tick (S (tick w)) w)).
  rewrite (bind_Ok _ _ _ _ _ (setState_run i key _ _)).
  rewrite emit_run. reflexivity.
Qed.

End HealthCheck.

(** [X17] A tick of the health check never opens or closes a circuit and never
    touches the request counters or the in-flight set. On a key without a
    record it does nothing at all. On an OPEN record whose cool-down has
    elapsed it makes the move to HALF_OPEN and resets [failureCount];
    otherwise it keeps the state and [failureCount], refreshes
    [currentLoad] (the number of requests in flight), [lastMinuteRequests]
    and [lastUpdateTime], and emits [healthCheck] with the record it
    wrote. *)
Theorem performHealthCheck_effects (b : HighPerformanceCircuitBreaker) (w : World) :
  source_store (stateStore b) ->
  match fst (getStats b w) with
  | Ok (Some st) =>
      exists w' st',
        performHealthCheck b w = (Ok tt, w') /\
        fst (getStats b w') = Ok (Some st') /\
        totalRequests st' = totalRequests st /\
        successfulRequests st' = successfulRequests st /\
        failedRequests st' = failedRequests st /\
        lastFailureTime st' = lastFailureTime st /\
        active b w' = active b w /\
        if decide (state st = OPEN /\
                   resetTimeout (options b)
                   <= clock w (tick w) - default 0 (lastFailureTime st))
        then state st' = HALF_OPEN /\ failureCount st' = 0
        else state st' = state st /\ failureCount st' = failureCount st /\
             currentLoad st' = Some (Z.of_nat (size (active b w))) /\
             lastMinuteRequests st'
             = Some (Z.of_nat (length (requestTimes (local_of (serviceKey b) w)))) /\
             lastUpdateTime st' = Some (clock w (tick w)) /\
             exists evs, emitted (local_of (serviceKey b) w') = evs ++ [healthCheck st']
  | _ => performHealthCheck b w = (Ok tt, w)
  end.
Proof.
  intros [i Hs]. destruct b as [key store opts]; cbn in *; subst store.
  rewrite getStats_run. cbn [fst].
  destruct (lookupW i key w) as [st |] eqn:Hst;
    [| apply (performHealthCheck_missing i key opts w Hst)].
  assert (Hact : forall r w', performHealthCheck (mkBreaker key (store_of i) opts) w = (r, w') ->
            active (mkBreaker key (store_of i) opts) w'
            = active (mkBreaker key (store_of i) opts) w).
  { intros r w' Hrun.
    exact (preserves_performHealthCheck
             (active_is_stable key (activeRequests (local_of key w)))
             i key opts w r w' Hrun eq_refl). }
  destruct (decide (state st = OPEN /\
                    resetTimeout opts <= clock w (tick w) - default 0 (lastFailureTime st)))
    as [[Hopen Hdue] | Hnot].
  - pose proof (performHealthCheck_probe i key opts st w Hst Hopen Hdue) as Hrun.
    eexists _, _. split; [exact Hrun |].
    rewrite getStats_run. cbn [fst]. unfold afterHalfOpen at 1. wsimpl.
    split; [reflexivity |].
    split; [reflexivity |]. split; [reflexivity |]. split; [reflexivity |].
    split; [reflexivity |]. split; [exact (Hact _ _ Hrun) |].
    split; reflexivity.
  - pose proof (performHealthCheck_refresh_run i key opts st w Hst Hnot) as Hrun.
    cbv zeta in Hrun.
    eexists _, _. split; [exact Hrun |].
    rewrite getStats_run. cbn [fst]. wsimpl.
    split; [reflexivity |].
    split; [reflexivity |]. split; [reflexivity |]. split; [reflexivity |].
    split; [reflexivity |]. split; [exact (Hact _ _ Hrun) |].
    split; [reflexivity |]. split; [reflexivity |]. split; [reflexivity |].
    split; [reflexivity |]. split; [reflexivity |].
    rewrite emitted_deliver. eexists. reflexivity.
Qed.

Lemma performHealthCheck_effects_witness :
  source_store (stateStore cap_breaker) /\
  exists st',
    fst (getStats cap_breaker (snd (performHealthCheck cap_breaker full_world)))
    = Ok (Some st') /\
    state st' = CLOSED /\ currentLoad st' = Some 1 /\ lastUpdateTime st' = Some 2000.
Proof.
  assert (Hs : source_store (stateStore cap_breaker)) by (exists InMemory; reflexivity).
  split; [exact Hs |].
  pose proof (performHealthCheck_effects cap_breaker full_world Hs) as H.
  cbn in H. destruct H as (w' & st' & Hrun & Hst' & _ & _ & _ & _ & _ & Hcase).
  destruct Hcase as (Hstate & _ & Hload & _ & Hupd & _).
  exists st'. rewrite Hrun. cbn [snd]. split; [exact Hst' |].
  split; [exact Hstate |]. split; [rewrite Hload; reflexivity | exact Hupd].
Defined.

(** ** The factory *)

Lemma forEach_run {A B} (f : A -> M B) (R : A -> B -> Prop) (xs : list A) :
  (forall x w, exists y w', f x w = (Ok y, w') /\ R x y) ->
  forall w, exists ys w', forEach f xs w = (Ok ys, w') /\ Forall2 R xs ys.
Proof.
  intros Hf. induction xs as [| x xs IH]; intros w.
  - exists [], w. split; [reflexivity | constructor].
  - destruct (Hf x w) as (y & w1 & Hrun & Hy).
    destruct (IH w1) as (ys & w2 & Hrest & Hys).
    exists (y :: ys), w2. split; [| constructor; assumption].
    cbn [forEach]. run Hrun. run Hrest. reflexivity.
Qed.


Section FactoryRuns.
Variable f : ShardedCircuitBreakerFactory.

Lemma getServiceBreakers_found serviceName breakers w :
  serviceBreakers f !! serviceName = Some breakers ->
  getServiceBreakers f serviceName w = (Ok breakers, w).
Proof. intros H. unfold getServiceBreakers. rewrite H. reflexivity. Qed.

Lemma getServiceBreakers_missing serviceName w :
  serviceBreakers f !! serviceName = None ->
  getServiceBreakers f serviceName w = (Throw (serviceNotFound serviceName), w).
Proof. intros H. unfold getServiceBreakers. rewrite H. reflexivity. Qed.

Lemma getServiceBreaker_found serviceName breakers shardId breaker w :
  serviceBreakers f !! serviceName = Some breakers ->
  0 <= shardId < Z.of_nat (length breakers) ->
  breakers !! Z.to_nat shardId = Some breaker ->
  getServiceBreaker f serviceName (Finite shardId) w = (Ok (Some breaker), w).
Proof.
  intros Hfound Hrange Hb. unfold getServiceBreaker.
  run (getServiceBreakers_found serviceName breakers w Hfound).
  rewrite decide_False by lia. rewrite Hb. reflexivity.
Qed.

(** The wrapping of a call's outcome into a result object. *)
Lemma executeServiceCall_run {T} serviceName shardId breaker (call : ServiceCall T) w :
  getServiceBreaker f serviceName shardId w = (Ok (Some breaker), w) ->
  executeServiceCall f serviceName shardId call w
  = match execute breaker call (set_tick (S (tick w)) w) with
    | (Ok value, w1) =>
        (Ok {| r_success := true;
               r_data := Some value;
               r_error := None;
               r_service := serviceName;
               r_shardId := shardId;
               r_responseTime := Some (clock w1 (tick w1) - clock w (tick w));
               r_circuitOpen := None |},
         set_tick (S (tick w1)) w1)
    | (Throw error, w1) =>
        (Ok {| r_success := false;
               r_data := None;
               r_error := Some (if instanceofError error then error
                                else ErrorObject (toText error));
               r_service := serviceName;
               r_shardId := shardId;
               r_responseTime := Some (clock w1 (tick w1) - clock w (tick w));
               r_circuitOpen :=
                 Some (instanceofError error
                       && includes "Circuit breaker is OPEN" (default "" (message error))) |},
         set_tick (S (tick w1)) w1)
    | (Pending, w1) => (Pending, w1)
    end.
Proof.
  intros Hfind. unfold executeServiceCall.
  run Hfind. run (Date_now_run w).
  unfold try_catch.
  destruct (execute breaker call (set_tick (S (tick w)) w)) as [[value | error |] w1] eqn:Hrun.
  - run Hrun. run (Date_now_run w1). reflexivity.
  - rewrite (bind_Throw _ _ _ _ _ Hrun). run (Date_now_run w1). reflexivity.
  - rewrite (bind_Pending _ _ _ _ Hrun). reflexivity.
Qed.

End FactoryRuns.

Lemma createServiceBreakers_run (i : StoreImpl) (f : ShardedCircuitBreakerFactory)
    (config : ServiceCircuitBreakerConfig) (w : World) :
  factoryStore f = store_of i ->
  serviceBreakers f !! name config = None ->
  let count := default 4%nat (shardCount config) in
  let given := default noOptions (cfg_options config) in
  exists breakers w',
    createServiceBreakers f config w
    = (Ok (mkFactory (factoryStore f) (baseOptions f)
             (<[name config := breakers]> (serviceBreakers f))
             (<[name config := mkConfig (name config) (Some count) (Some given)]>
                (serviceConfigs f)),
           breakers), w') /\
    length breakers = count /\
    (forall n b, breakers !! n = Some b ->
       b = mkBreaker (name config +:+ "-" +:+ pretty n) (factoryStore f)
             (constructorOptions (mergeOptions (baseOptions f) given))).
Proof.
  intros Hstore Hfree. cbv zeta.
  set (count := default 4%nat (shardCount config)).
  set (given := default noOptions (cfg_options config)).
  destruct (forEach_run
              (fun n => newBreaker (name config +:+ "-" +:+ pretty n) (factoryStore f)
                          (mergeOptions (baseOptions f) given))
              (fun n b => b = mkBreaker (name config +:+ "-" +:+ pretty n)
                                (factoryStore f)
                                (constructorOptions (mergeOptions (baseOptions f) given)))
              (seq 0 count))
    with (w := w) as (breakers & w' & Hrun & Hall).
  { intros n w0. rewrite Hstore.
    destruct (newBreaker_run i (name config +:+ "-" +:+ pretty n)
                (mergeOptions (baseOptions f) given) w0) as (w1 & Hnew & _).
    eexists _, w1. split; [exact Hnew | reflexivity]. }
  exists breakers, w'. split.
  { unfold createServiceBreakers. cbv zeta. rewrite Hfree.
    fold count. fold given. run Hrun. reflexivity. }
  split.
  { rewrite <- (Forall2_length _ _ _ Hall), length_seq. reflexivity. }
  intros n b Hb.
  destruct (Forall2_lookup_r _ _ _ _ _ Hall Hb) as (n' & Hn' & ->).
  apply lookup_seq in Hn' as [-> _]. reflexivity.
Qed.


Lemma plainName_payment : plainName "payment".
Proof.
  intros H. unfold inheritedKeys in H.
  repeat (apply elem_of_cons in H as [H | H]; [discriminate H |]).
  apply elem_of_nil in H. exact H.
Qed.



Lemma payment_breakers :
  serviceBreakers payment_factory !! "payment"
  = Some [ mkBreaker "payment-0" InMemoryStateStore.store
             (constructorOptions (mergeOptions base_options noOptions));
           mkBreaker "payment-1" InMemoryStateStore.store
             (constructorOptions (mergeOptions base_options noOptions)) ].
Proof.
  destruct (createServiceBreakers_run InMemory
              (newFactory InMemoryStateStore.store base_options)
              (mkConfig "payment" (Some 2%nat) None) empty_world eq_refl eq_refl)
    as (breakers & w' & Hrun & Hlen & Hnth).
  unfold payment_factory, payment_setup. rewrite Hrun. cbn [fst serviceBreakers].
  rewrite lookup_insert_eq. f_equal.
  destruct breakers as [| b0 [| b1 [| b2 rest]]]; try discriminate Hlen.
  rewrite (Hnth 0%nat b0 eq_refl), (Hnth 1%nat b1 eq_refl). reflexivity.
Qed.




(** [X21] Failed lookups are not turned into results: for a service that was
    never created, [executeServiceCall], [executeWithKey],
    [getServiceState], [getServiceStates] and [getServiceBreakers] all
    reject with the "not found" error; for a shard id outside
    [0 .. shards-1] of an existing service, [executeServiceCall] and
    [getServiceState] reject with "Invalid shard ID". In every case the
    world is untouched, so the thunk was not invoked. *)
Theorem factory_lookup_errors_are_thrown {T} (f : ShardedCircuitBreakerFactory)
    (serviceName : string) (call : ServiceCall T) (w : World) :
  plainName serviceName ->
  match serviceBreakers f !! serviceName with
  | None =>
      let notFound := serviceNotFound serviceName in
      getServiceBreakers f serviceName w = (Throw notFound, w) /\
      getServiceStates f serviceName w = (Throw notFound, w) /\
      hasService f serviceName = false /\
      (forall key, executeWithKey f serviceName key call w = (Throw notFound, w)) /\
      (forall shardId,
         executeServiceCall f serviceName shardId call w = (Throw notFound, w) /\
         getServiceState f serviceName shardId w = (Throw notFound, w))
  | Some breakers =>
      forall shardId, ~ (0 <= shardId < Z.of_nat (length breakers)) ->
        exists text,
          includes "Invalid shard ID" text = true /\
          executeServiceCall f serviceName (Finite shardId) call w
          = (Throw (ErrorObject text), w) /\
          getServiceState f serviceName (Finite shardId) w = (Throw (ErrorObject text), w)
  end.
Proof.
  intros _. destruct (serviceBreakers f !! serviceName) as [breakers |] eqn:Hfound.
  - intros shardId Hout.
    assert (Hfind : exists text,
              includes "Invalid shard ID" text = true /\
              @getServiceBreaker f serviceName (Finite shardId) w
              = (Throw (ErrorObject text), w)).
    { unfold getServiceBreaker.
      rewrite (bind_Ok _ _ _ _ _ (getServiceBreakers_found f serviceName breakers w Hfound)).
      cbn beta iota. rewrite decide_True by lia.
      eexists. split; [| reflexivity]. reflexivity. }
    destruct Hfind as (text & Htext & Hfind).
    exists text. split; [exact Htext |]. split.
    + unfold executeServiceCall. apply bind_Throw, Hfind.
    + unfold getServiceState. apply bind_Throw, Hfind.
  - pose proof (getServiceBreakers_missing f serviceName w Hfound) as Hmiss.
    cbv zeta. split; [exact Hmiss |]. split.
    { unfold getServiceStates. apply bind_Throw, Hmiss. }
    split.
    { unfold hasService. rewrite Hfound. reflexivity. }
    split.
    { intros key. unfold executeWithKey. apply bind_Throw, Hmiss. }
    intros shardId.
    assert (Hfind : @getServiceBreaker f serviceName shardId w
                    = (Throw (serviceNotFound serviceName), w))
      by (unfold getServiceBreaker; apply bind_Throw, Hmiss).
    split.
    + unfold executeServiceCall. apply bind_Throw, Hfind.
    + unfold getServiceState. apply bind_Throw, Hfind.
Qed.

Lemma factory_lookup_errors_are_thrown_witness :
  plainName "payment" /\
  exists text,
    executeServiceCall payment_factory "payment" (Finite 2) (Resolves tt) payment_world
    = (Throw (ErrorObject text), payment_world).
Proof.
  split; [exact plainName_payment |].
  pose proof (factory_lookup_errors_are_thrown payment_factory "payment" (Resolves tt)
                payment_world plainName_payment) as H.
  rewrite payment_breakers in H.
  destruct (H 2 ltac:(cbn; lia)) as (text & _ & Hrun & _).
  exists text. exact Hrun.
Defined.

(** [X22] A service created with [shardCount = 0] can be created, but no key
    can be routed on it: the shard id is [NaN], which passes the bounds
    check, no breaker is found, and [executeWithKey] fulfils with
    [success = false], [shardId = NaN] and [circuitOpen = false]. The thunk
    is never invoked; the call only reads the clock twice. *)
Theorem executeWithKey_without_shards {T} (f : ShardedCircuitBreakerFactory)
    (serviceName : string) (key : CodeUnits) (call : ServiceCall T) (w : World) :
  plainName serviceName ->
  serviceBreakers f !! serviceName = Some [] ->
  getShardIdForKey key 0 = NaN /\
  exists res,
    executeWithKey f serviceName key call w = (Ok res, set_tick (S (S (tick w))) w) /\
    r_success res = false /\
    r_data res = None /\
    r_shardId res = NaN /\
    r_circuitOpen res = Some false /\
    exists text, r_error res = Some (ErrorObject text).
Proof.
  intros _ Hfound. split; [reflexivity |].
  unfold executeWithKey.
  rewrite (bind_Ok _ _ _ _ _ (getServiceBreakers_found f serviceName [] w Hfound)).
  cbn beta iota.
  change (getShardIdForKey key (Z.of_nat (length (@nil HighPerformanceCircuitBreaker))))
    with NaN.
  unfold executeServiceCall, getServiceBreaker.
  rewrite (bind_Ok _ _ _ _ _
             (bind_Ok _ _ _ _ _ (getServiceBreakers_found f serviceName [] w Hfound))).
  cbn beta iota.
  run (Date_now_run w).
  eexists. split; [reflexivity |]. cbn. repeat split. eexists. reflexivity.
Qed.

Lemma executeWithKey_without_shards_witness :
  let f := mkFactory InMemoryStateStore.store base_options {[ "payment" := [] ]} ∅ in
  plainName "payment" /\
  serviceBreakers f !! "payment" = Some [] /\
  exists res,
    fst (executeWithKey f "payment" (charCodes "user-123") (Resolves tt) empty_world)
    = Ok res /\
    r_success res = false /\ r_shardId res = NaN.
Proof.
  cbv zeta.
  set (f := mkFactory InMemoryStateStore.store base_options {[ "payment" := [] ]} ∅).
  assert (Hfound : serviceBreakers f !! "payment" = Some [])
    by (cbn [f serviceBreakers]; apply lookup_singleton_eq).
  split; [exact plainName_payment |]. split; [exact Hfound |].
  destruct (executeWithKey_without_shards f "payment" (charCodes "user-123") (Resolves tt)
              empty_world plainName_payment Hfound)
    as (_ & res & Hrun & Hsucc & _ & Hshard & _).
  exists res. rewrite Hrun. auto.
Defined.

(** [X23] [getServiceStates] answers one state per shard, in shard order, and
    each is what [getServiceState] answers for that shard: the state of the
    shard's record, or CLOSED when the shard has no record. Neither query
    changes anything. *)
Theorem getServiceStates_agrees (f : ShardedCircuitBreakerFactory)
    (serviceName : string) (breakers : list HighPerformanceCircuitBreaker) (w : World) :
  plainName serviceName ->
  serviceBreakers f !! serviceName = Some breakers ->
  Forall (fun breaker => source_store (stateStore breaker)) breakers ->
  exists states,
    getServiceStates f serviceName w = (Ok states, w) /\
    length states = length breakers /\
    forall (shardId : nat) breaker,
      breakers !! shardId = Some breaker ->
      exists s,
        states !! shardId = Some s /\
        getServiceState f serviceName (Finite (Z.of_nat shardId)) w = (Ok s, w) /\
        s = match fst (getStats breaker w) with
            | Ok (Some stats) => state stats
            | _ => CLOSED
            end.
Proof.
  intros _ Hfound Hstores.
  assert (Hone : forall breaker, source_store (stateStore breaker) ->
            exists stats, getStats breaker w = (Ok stats, w)).
  { intros [key store opts] [i Hs]. cbn in Hs. subst store.
    eexists. apply getStats_run. }
  assert (Hall : exists states,
            forEach (fun breaker => let* stats := getStats breaker in ret (stateOrClosed stats))
              breakers w = (Ok states, w) /\
            Forall2 (fun breaker s =>
                       s = stateOrClosed
                             (match fst (getStats breaker w) with
                              | Ok stats => stats
                              | _ => None
                              end)) breakers states).
  { clear Hfound. induction Hstores as [| breaker rest Hb Hrest IH].
    - exists []. split; [reflexivity | constructor].
    - destruct IH as (states & Hrun & Hall).
      destruct (Hone breaker Hb) as (stats & Hstats).
      exists (stateOrClosed stats :: states). split.
      + assert (Hf : (let* stats := getStats breaker in ret (stateOrClosed stats)) w
                     = (Ok (stateOrClosed stats), w)) by (run Hstats; reflexivity).
        cbn [forEach]. run Hf. run Hrun. reflexivity.
      + constructor; [| exact Hall]. rewrite Hstats. reflexivity. }
  destruct Hall as (states & Hrun & Hall).
  exists states. split.
  { unfold getServiceStates.
    run (getServiceBreakers_found f serviceName breakers w Hfound). exact Hrun. }
  split; [symmetry; exact (Forall2_length _ _ _ Hall) |].
  intros shardId breaker Hb.
  destruct (Forall2_lookup_l _ _ _ _ _ Hall Hb) as (s & Hs & Heq).
  exists s. split; [exact Hs |].
  pose proof (lookup_lt_Some _ _ _ Hb) as Hlt.
  assert (Hfind : getServiceBreaker f serviceName (Finite (Z.of_nat shardId)) w
                  = (Ok (Some breaker), w)).
  { apply (getServiceBreaker_found f serviceName breakers); [exact Hfound | lia |].
    rewrite Nat2Z.id. exact Hb. }
  rewrite Forall_forall in Hstores.
  destruct (Hone breaker (Hstores breaker (list_elem_of_lookup_2 _ _ _ Hb)))
    as (stats & Hstats).
  rewrite Hstats in Heq. cbn [fst] in Heq.
  split.
  - unfold getServiceState. run Hfind. run Hstats. rewrite Heq.
    destruct stats; reflexivity.
  - rewrite Hstats. cbn [fst]. rewrite Heq. destruct stats; reflexivity.
Qed.

Lemma getServiceStates_agrees_witness :
  plainName "payment" /\
  getServiceStates payment_factory "payment" payment_world
  = (Ok [CLOSED; CLOSED], payment_world).
Proof.
  split; [exact plainName_payment |].
  destruct (getServiceStates_agrees payment_factory "payment" _ payment_world
              plainName_payment payment_breakers)
    as (states & Hrun & Hlen & Hnth).
  { repeat constructor; exists InMemory; reflexivity. }
  rewrite Hrun. f_equal. f_equal.
  destruct states as [| s0 [| s1 [| s2 rest]]]; try discriminate Hlen.
  destruct (Hnth 0%nat _ eq_refl) as (s & Hs & _ & Heq).
  destruct (Hnth 1%nat _ eq_refl) as (s' & Hs' & _ & Heq').
  cbn in Hs, Hs'. injection Hs as <-. injection Hs' as <-.
  rewrite Heq, Heq'. vm_compute. reflexivity.
Defined.

(** [X24] The two admission rejections, seen through the factory. A call that
    meets an OPEN circuit inside its cool-down comes back with
    [success = false], the breaker's error and [circuitOpen = true]; a
    call that meets a breaker at capacity comes back with
    [success = false], the overload error and [circuitOpen = false]. In
    both cases the thunk is not invoked and neither the store nor any
    breaker changes. The cool-down is judged at the clock reading that
    follows the one the factory takes for [responseTime]. *)
Theorem rejections_are_reported {T} (f : ShardedCircuitBreakerFactory)
    (serviceName : string) (breakers : list HighPerformanceCircuitBreaker)
    (shardId : Z) (breaker : HighPerformanceCircuitBreaker)
    (call : ServiceCall T) (w : World) (st : CircuitBreakerStats) :
  plainName serviceName ->
  serviceBreakers f !! serviceName = Some breakers ->
  0 <= shardId < Z.of_nat (length breakers) ->
  breakers !! Z.to_nat shardId = Some breaker ->
  source_store (stateStore breaker) ->
  fst (getStats breaker w) = Ok (Some st) ->
  (state st = OPEN /\
   clock w (S (tick w)) - default 0 (lastFailureTime st) < resetTimeout (options breaker)
   \/ state st <> OPEN /\ atCapacity breaker (local_of (serviceKey breaker) w) = true) ->
  exists res w',
    executeServiceCall f serviceName (Finite shardId) call w = (Ok res, w') /\
    r_success res = false /\
    r_data res = None /\
    r_circuitOpen res = Some (bool_decide (state st = OPEN)) /\
    r_error res
    = Some (ErrorObject (if bool_decide (state st = OPEN)
                         then "Circuit breaker is OPEN"
                         else "Maximum concurrent requests exceeded")) /\
    invocations w' = invocations w /\
    kv w' = kv w /\
    locals w' = locals w.
Proof.
  intros _ Hfound Hrange Hb [i Hs] Hget Hcase.
  destruct breaker as [key store opts]; cbn in *; subst store.
  rewrite getStats_run in Hget. cbn in Hget. injection Hget as Hst.
  rewrite (executeServiceCall_run f serviceName (Finite shardId) _ call w
             (getServiceBreaker_found f serviceName breakers shardId _ w Hfound Hrange Hb)).
  set (w0 := set_tick (S (tick w)) w).
  assert (Hst0 : lookupW i key w0 = Some st) by exact Hst.
  destruct Hcase as [[Hopen Hearly] | [Hne Hfull]].
  - assert (Hrun : execute (mkBreaker key (store_of i) opts) call w0
                   = (Throw (ErrorObject "Circuit breaker is OPEN"),
                      set_tick (S (tick w0)) w0)).
    { unfold execute. apply bind_Throw.
      apply (execute_load_reject i key opts st w0 Hst0 Hopen). exact Hearly. }
    rewrite Hrun. rewrite bool_decide_eq_true_2 by exact Hopen.
    eexists _, _. split; [reflexivity |]. repeat split.
  - assert (Hrun : execute (mkBreaker key (store_of i) opts) call w0
                   = (Throw (ErrorObject "Maximum concurrent requests exceeded"), w0)).
    { unfold execute. run (execute_load_pass i key opts st w0 Hst0 Hne).
      apply bind_Throw. apply (execute_enter_reject i key opts w0). exact Hfull. }
    rewrite Hrun. rewrite bool_decide_eq_false_2 by exact Hne.
    eexists _, _. split; [reflexivity |]. repeat split.
Qed.

Lemma rejections_are_reported_witness :
  let f := mkFactory InMemoryStateStore.store base_options
             {[ "payment" := [cap_breaker] ]} ∅ in
  plainName "payment" /\
  source_store (stateStore cap_breaker) /\
  fst (getStats cap_breaker full_world) = Ok (Some cap_record) /\
  atCapacity cap_breaker (local_of (serviceKey cap_breaker) full_world) = true /\
  exists res,
    fst (executeServiceCall f "payment" (Finite 0) (Resolves tt) full_world) = Ok res /\
    r_success res = false /\ r_circuitOpen res = Some false.
Proof.
  cbv zeta.
  set (f := mkFactory InMemoryStateStore.store base_options
              {[ "payment" := [cap_breaker] ]} ∅).
  assert (Hs : source_store (stateStore cap_breaker)) by (exists InMemory; reflexivity).
  assert (Hfound : serviceBreakers f !! "payment" = Some [cap_breaker])
    by (cbn [f serviceBreakers]; apply lookup_singleton_eq).
  assert (Hget : fst (getStats cap_breaker full_world) = Ok (Some cap_record))
    by (vm_compute; reflexivity).
  assert (Hfull : atCapacity cap_breaker (local_of (serviceKey cap_breaker) full_world) = true)
    by (vm_compute; reflexivity).
  split; [exact plainName_payment |]. split; [exact Hs |].
  split; [exact Hget |]. split; [exact Hfull |].
  assert (Hrange : 0 <= 0 < Z.of_nat (length [cap_breaker])) by (cbn; lia).
  assert (Hb : [cap_breaker] !! Z.to_nat 0 = Some cap_breaker) by reflexivity.
  assert (Hcase : state cap_record = OPEN /\
                  clock full_world (S (tick full_world))
                  - default 0 (lastFailureTime cap_record)
                  < resetTimeout (options cap_breaker)
                  \/ state cap_record <> OPEN /\
                     atCapacity cap_breaker (local_of (serviceKey cap_breaker) full_world)
                     = true)
    by (right; split; [discriminate | exact Hfull]).
  destruct (rejections_are_reported f "payment" [cap_breaker] 0 cap_breaker (Resolves tt)
              full_world cap_record plainName_payment Hfound Hrange Hb Hs Hget Hcase)
    as (res & w' & Hrun & Hsucc & _ & Hflag & _).
  exists res. rewrite Hrun. cbn [fst]. split; [reflexivity |].
  split; [exact Hsucc | exact Hflag].
Defined.

(** ** An option that is never read *)


(** ** Events that are declared but never emitted *)

(** [X26] [success], [timeout] and [rejected] can be subscribed to through the
    factory, but no operation of a breaker emits them: whatever calls
    (fulfilled, rejected, timed out or turned away), ticks, transitions and
    accounting are made, any number of them in flight together and their
    stretches in any order, every event in every breaker's log is one of
    [stateChange], [circuitOpen], [failure], [metrics], [healthCheck] and
    [stateUpdate]. A call that runs into the deadline is announced by
    [failure]. *)
Theorem declared_events_never_emitted {T} (i : StoreImpl) (key : string)
    (opts : CircuitBreakerOptions) (w w' : World) (tasks : list (Async unit)) :
  only_emittable w ->
  rtc (in_use T i key opts) (w, []) (w', tasks) ->
  only_emittable w'.
Proof.
  intros Hw Hrun.
  exact (kept_in_use (only_emittable_kept i key) opts w w' tasks Hrun Hw).
Qed.

Lemma only_emittable_probe_world : only_emittable probe_world.
Proof. intros k. unfold local_of. cbn. rewrite lookup_empty. constructor. Qed.

Lemma declared_events_never_emitted_witness :
  only_emittable probe_world /\
  rtc (in_use unit InMemory "payment-0" (options probe_breaker)) (probe_world, [])
    timeout_use /\
  only_emittable (fst timeout_use) /\
  failure (ErrorObject "Service timeout") ∈ emitted (local_of "payment-0" (fst timeout_use)).
Proof.
  split; [exact only_emittable_probe_world |]. split; [exact timeout_use_run |].
  split.
  - apply (declared_events_never_emitted (T := unit) InMemory "payment-0" (options probe_breaker)
             probe_world (fst timeout_use) (snd timeout_use) only_emittable_probe_world).
    rewrite <- surjective_pairing. exact timeout_use_run.
  - assert (Hlog : exists evs evs',
              emitted (local_of "payment-0" (fst timeout_use))
              = evs ++ failure (ErrorObject "Service timeout") :: evs')
      by (vm_compute; eexists [_], _; reflexivity).
    destruct Hlog as (evs & evs' & ->).
    apply elem_of_app. right. apply elem_of_cons. left. reflexivity.
Defined.

(** ** The routing hash in closed form *)

Lemma hashLoop_polynomial key : forall h,
  hashLoop (Int32.ToInt32 h) key
  = Int32.ToInt32 (fold_left (fun h c => 31 * h + c) key h).
Proof.
  induction key as [| c rest IH]; intros h; [reflexivity |].
  cbn [hashLoop fold_left]. rewrite <- IH. f_equal.
  rewrite hashStep_djb2. unfold RoutingSpec.djb2_step. rewrite <- ToInt32_wrap32.
  apply ToInt32_mod_eq.
  replace (Int32.ToInt32 h * 2 ^ 5 - Int32.ToInt32 h + c)
    with (31 * Int32.ToInt32 h + c) by lia.
  rewrite (Zplus_mod (31 * Int32.ToInt32 h)), (Zmult_mod 31 (Int32.ToInt32 h)),
    ToInt32_congr.
  rewrite <- Zmult_mod, <- Zplus_mod. reflexivity.
Qed.

(** [X27] The wrap-around of the 32-bit loop can be postponed to the end: the
    hash of a key is the polynomial [c_0 * 31^(k-1) + ... + c_(k-1)] of
    its code units, reduced once into the signed 32-bit range (the
    [hashCode] of a Java string), and the shard is its absolute value
    modulo the shard count. Hence the empty key goes to shard 0 and a key
    of a single code unit [c] to shard [c mod n]. *)
Theorem hash_is_polynomial (key : CodeUnits) (n : Z) :
  1 <= n ->
  let h := Int32.ToInt32 (fold_left (fun h c => 31 * h + c) key 0) in
  hashLoop 0 key = h /\
  getShardIdForKey key n = Finite (Z.abs h mod n) /\
  getShardIdForKey [] n = Finite 0 /\
  (forall c, 0 <= c < 2^16 -> getShardIdForKey [c] n = Finite (c mod n)).
Proof.
  intros Hn. cbv zeta.
  assert (Hhash : forall k, hashLoop 0 k
                            = Int32.ToInt32 (fold_left (fun h c => 31 * h + c) k 0))
    by (intros k; exact (hashLoop_polynomial k 0)).
  assert (Hshard : forall k, getShardIdForKey k n = Finite (Z.abs (hashLoop 0 k) mod n)).
  { intros k. unfold getShardIdForKey, Int32.rem, Int32.Math_abs.
    rewrite decide_False by lia. f_equal. apply Z.rem_mod_nonneg; lia. }
  split; [apply Hhash |]. split; [rewrite Hshard, Hhash; reflexivity |]. split.
  - rewrite Hshard. cbn [hashLoop]. rewrite Z.mod_0_l by lia. reflexivity.
  - intros c Hc. rewrite Hshard, Hhash. cbn [fold_left].
    rewrite ToInt32_small by lia. f_equal. f_equal. lia.
Qed.

Lemma hash_is_polynomial_witness :
  1 <= 4 /\
  getShardIdForKey (charCodes "Aa") 4 = Finite 0 /\
  getShardIdForKey (charCodes "BB") 4 = Finite 0.
Proof.
  split; [lia |].
  destruct (hash_is_polynomial (charCodes "Aa") 4 ltac:(lia)) as (_ & Ha & _).
  destruct (hash_is_polynomial (charCodes "BB") 4 ltac:(lia)) as (_ & Hb & _).
  rewrite Ha, Hb. split; reflexivity.
Defined.

(** ** A breaker as the constructor leaves it *)

Section Construction.
Variables (i : StoreImpl) (key : string) (opts : CircuitBreakerOptions).
Let b := mkBreaker key (store_of i) opts.

Lemma watchStateChanges_run w :
  watchStateChanges b w
  = (Ok tt,
     set_watchers (<[physKey i key := default [] (watchers w !! physKey i key) ++ [key]]>
                     (watchers w)) w).
Proof. unfold watchStateChanges. destruct i; reflexivity. Qed.

Lemma watchers_putW k v w : watchers (putW i k v w) = watchers w.
Proof. apply putW_shared. Qed.

(** [initializeState] and the first health check, as far as the record
    and the watchers go. *)
Lemma initializeState_record w :
  exists w' st,
    initializeState b w = (Ok tt, w') /\
    lookupW i key w' = Some st /\
    watchers w' = watchers w /\
    match lookupW i key w with
    | Some st0 => st = st0
    | None =>
        state st = CLOSED /\ failureCount st = 0 /\ totalRequests st = 0 /\
        successfulRequests st = 0 /\ failedRequests st = 0
    end.
Proof.
  destruct (lookupW i key w) as [st0 |] eqn:Hst.
  - exists w, st0. split; [apply (initializeState_present i key opts st0 w Hst) |].
    split; [exact Hst |]. split; reflexivity.
  - destruct (initializeState_fresh i key opts w Hst)
      as (st & Hinit & Hclosed & Hfc & Ht & Hsu & Hf & _).
    eexists _, st. split; [exact Hinit |]. wsimpl.
    split; [reflexivity |]. split; [rewrite watchers_putW; reflexivity |].
    repeat split; assumption.
Qed.

Lemma performHealthCheck_record st w :
  lookupW i key w = Some st ->
  exists w' st',
    performHealthCheck b w = (Ok tt, w') /\
    lookupW i key w' = Some st' /\
    watchers w' = watchers w /\
    totalRequests st' = totalRequests st /\
    successfulRequests st' = successfulRequests st /\
    failedRequests st' = failedRequests st /\
    (state st' = state st /\ failureCount st' = failureCount st
     \/ state st = OPEN /\ state st' = HALF_OPEN /\ failureCount st' = 0).
Proof.
  intros Hst.
  destruct (decide (state st = OPEN /\
                    resetTimeout opts <= clock w (tick w) - default 0 (lastFailureTime st)))
    as [[Hopen Hdue] | Hnot].
  - pose proof (performHealthCheck_probe i key opts st w Hst Hopen Hdue) as Hrun.
    eexists _, _. split; [exact Hrun |].
    unfold afterHalfOpen. wsimpl. split; [reflexivity |].
    split; [cbn [deliver updateLocal watchers set_locals]; rewrite watchers_putW;
            reflexivity |].
    split; [reflexivity |]. split; [reflexivity |]. split; [reflexivity |].
    right. split; [exact Hopen |]. split; reflexivity.
  - pose proof (performHealthCheck_refresh_run i key opts st w Hst Hnot) as Hrun.
    cbv zeta in Hrun.
    eexists _, _. split; [exact Hrun |]. wsimpl. split; [reflexivity |].
    split; [cbn [deliver updateLocal watchers set_locals]; rewrite watchers_putW;
            reflexivity |].
    split; [reflexivity |]. split; [reflexivity |]. split; [reflexivity |].
    left. split; reflexivity.
Qed.

Lemma init_run w :
  exists w' st',
    init b w = (Ok tt, w') /\
    lookupW i key w' = Some st' /\
    registrations key (default [] (watchers w' !! physKey i key))
    = S (registrations key (default [] (watchers w !! physKey i key))) /\
    match lookupW i key w with
    | Some st =>
        totalRequests st' = totalRequests st /\
        successfulRequests st' = successfulRequests st /\
        failedRequests st' = failedRequests st /\
        (state st' = state st /\ failureCount st' = failureCount st
         \/ state st = OPEN /\ state st' = HALF_OPEN /\ failureCount st' = 0)
    | None =>
        state st' = CLOSED /\ failureCount st' = 0 /\ totalRequests st' = 0 /\
        successfulRequests st' = 0 /\ failedRequests st' = 0
    end.
Proof.
  destruct (initializeState_record w) as (w1 & st1 & Hinit & Hst1 & Hw1 & Hcase).
  destruct (updateMetrics_run i key opts w1)
    as (w2 & Hmetrics & _ & _ & _ & _ & _ & Hkv2 & _ & Hw2).
  pose proof (watchStateChanges_run w2) as Hwatch.
  set (w3 := set_watchers _ w2) in Hwatch.
  assert (Hst3 : lookupW i key w3 = Some st1)
    by (unfold w3, lookupW; cbn [kv set_watchers]; rewrite Hkv2; exact Hst1).
  destruct (performHealthCheck_record st1 w3 Hst3)
    as (w4 & st4 & Hhealth & Hst4 & Hw4 & Ht & Hsu & Hf & Hstate).
  exists w4, st4. split.
  { unfold init, try_catch. fold b.
    rewrite (bind_Ok _ _ _ _ _ Hinit). cbn beta iota.
    rewrite (bind_Ok _ _ _ _ _ Hmetrics). cbn beta iota.
    rewrite (bind_Ok _ _ _ _ _ Hwatch). cbn beta iota.
    rewrite Hhealth. reflexivity. }
  split; [exact Hst4 |]. split.
  { rewrite Hw4. unfold w3. cbn [watchers set_watchers]. rewrite lookup_insert_eq.
    cbn [default from_option id]. rewrite Hw2, Hw1, registrations_app, registrations_cons.
    rewrite decide_True by reflexivity. change (registrations key []) with 0%nat. lia. }
  destruct (lookupW i key w) as [st |].
  - subst st1. repeat split; assumption.
  - destruct Hcase as (Hclosed & Hfc & Ht1 & Hsu1 & Hf1).
    destruct Hstate as [[Hs Hc] | (Hopen & _)]; [| congruence].
    repeat split; congruence.
Qed.

End Construction.

(** [X28] The constructor always yields a breaker that is ready: its options
    are the given ones with the defaults 5, 60000, 1, 30000, 5000 and
    10000 filled in; once [init] has run, the key has a record (a missing
    one was created CLOSED with all counters at 0; one that was there kept
    its counters, and its state unless it was OPEN past its cool-down,
    which the first health check turns into HALF_OPEN); the breaker has
    registered exactly one watch on its own key; and no request is in
    flight. *)
Theorem constructor_leaves_ready_breaker (i : StoreImpl) (key : string)
    (o : PartialOptions) (w0 : World) :
  let b := mkBreaker key (store_of i) (constructorOptions o) in
  exists w st,
    newBreaker key (store_of i) o w0 = (Ok b, w) /\
    options b
    = mkOptions (default 5 (p_failureThreshold o)) (default 60000 (p_resetTimeout o))
        (default 1 (p_halfOpenRetryLimit o)) (default 30000 (p_monitorInterval o))
        (default 5000 (p_serviceTimeout o)) (Some (default 10000 (p_maxConcurrent o))) /\
    fst (getStats b w) = Ok (Some st) /\
    active b w = ∅ /\
    registrations key (default [] (watchers w !! physKey i key))
    = S (registrations key (default [] (watchers w0 !! physKey i key))) /\
    match fst (getStats b w0) with
    | Ok (Some st0) =>
        totalRequests st = totalRequests st0 /\
        successfulRequests st = successfulRequests st0 /\
        failedRequests st = failedRequests st0 /\
        (state st = state st0 /\ failureCount st = failureCount st0
         \/ state st0 = OPEN /\ state st = HALF_OPEN /\ failureCount st = 0)
    | _ =>
        state st = CLOSED /\ failureCount st = 0 /\ totalRequests st = 0 /\
        successfulRequests st = 0 /\ failedRequests st = 0
    end.
Proof.
  cbv zeta.
  set (b := mkBreaker key (store_of i) (constructorOptions o)).
  set (w1 := set_locals (<[key := newLocal (clock w0 (tick w0))]> (locals w0))
               (set_tick (S (tick w0)) w0)).
  destruct (init_run i key (constructorOptions o) w1) as (w & st & Hinit & Hst & Hreg & Hcase).
  assert (Hrun : newBreaker key (store_of i) o w0 = (Ok b, w)).
  { unfold newBreaker. cbv zeta. run (Date_now_run w0).
    unfold bind at 1.
    assert (Htc : try_catch (init b) (fun _ => ret tt) w1 = (Ok tt, w))
      by (unfold try_catch; fold b in Hinit; rewrite Hinit; reflexivity).
    exact (bind_Ok _ (fun _ => ret b) _ _ _ Htc). }
  exists w, st. split; [exact Hrun |]. split; [reflexivity |].
  unfold b. rewrite !getStats_run. cbn [fst]. split; [rewrite Hst; reflexivity |].
  split; [exact (proj2 (newBreaker_active_empty i key o w0 b w Hrun)) |].
  split; [exact Hreg |].
  change (lookupW i key w1) with (lookupW i key w0) in Hcase.
  destruct (lookupW i key w0); exact Hcase.
Qed.
